(** * key-hub: the store, the load balancer, the key checker, the rate
    limiter and the relay bookkeeping, embedded from the TypeScript sources.

    Conventions of the embedding.
    - A JavaScript [number] that the program only ever uses as an integer
      (counters, priorities, weights, HTTP statuses, millisecond timestamps)
      is a [Z]; [Math.random()] and the values computed from it are exact
      rationals [Q].
    - An optional property [p?: T] is an [option T]; [None] is [undefined].
    - A [Map<string, V>] is a [gmap string V].
    - [Date.now()] is an explicit argument of the operation that reads it.
    - [await db.write()] persists the document that the function has just
      built; the functions below return that document. *)

From stdpp Require Import gmap strings list pretty.
From Stdlib Require Import ZArith QArith Qround String Ascii List Sorted Lia Bool.
Import ListNotations.
Local Open Scope Z_scope.

(** ** packages/shared: the data model *)

Inductive ApiKeyStatus := Active | Invalid | QuotaExceeded | Disabled | Unknown.

Inductive ChannelType := OpenAI | Anthropic | Gemini | OpenAICompatible.

Inductive TestMethod := TestBalance | TestChat | TestModels.

Inductive LoadBalanceStrategy := RoundRobin | Weighted | Priority | LeastUsed.

Definition ApiKeyStatus_eqb (a b : ApiKeyStatus) : bool :=
  match a, b with
  | Active, Active | Invalid, Invalid | QuotaExceeded, QuotaExceeded
  | Disabled, Disabled | Unknown, Unknown => true
  | _, _ => false
  end.

Definition ChannelType_eqb (a b : ChannelType) : bool :=
  match a, b with
  | OpenAI, OpenAI | Anthropic, Anthropic | Gemini, Gemini
  | OpenAICompatible, OpenAICompatible => true
  | _, _ => false
  end.

Module Channel.
Record t := mk {
  id : string;
  name : string;
  type : ChannelType;
  baseUrl : string;
  testMethod : TestMethod;
  testModel : option string;
  proxyId : option string;
  loadBalanceStrategy : LoadBalanceStrategy;
  enabled : bool;
  createdAt : Z;
  updatedAt : Z
}.
End Channel.

Module ApiKey.
Record t := mk {
  id : string;
  channelId : string;
  key : string;
  alias : option string;
  status : ApiKeyStatus;
  priority : Z;
  weight : Z;
  balance : option Q;
  lastChecked : option Z;
  lastUsed : option Z;
  errorCount : Z;
  totalRequests : Z;
  createdAt : Z;
  updatedAt : Z
}.
End ApiKey.

Module Token.
Record t := mk {
  id : string;
  name : string;
  token : string;
  allowedChannels : list string;
  rateLimit : option Z;
  enabled : bool;
  createdAt : Z;
  lastUsed : option Z
}.
End Token.

Module RequestLog.
Record t := mk {
  id : string;
  timestamp : Z;
  tokenId : option string;
  channelId : string;
  keyId : string;
  model : string;
  path : string;
  method : string;
  status : Z;
  latency : Z;
  inputTokens : option Z;
  outputTokens : option Z;
  error : option string;
  streaming : bool
}.
End RequestLog.

Module KeyCheckResult.
Record t := mk {
  keyId : string;
  status : ApiKeyStatus;
  balance : option Q;
  error : option string;
  checkedAt : Z
}.
End KeyCheckResult.

(** [Partial<ApiKey>]: every property of [ApiKey] may be present.  A
    property of the patch is [None] when the object does not have it.  For
    an optional property of [ApiKey] the patch can also have the property
    with the value [undefined], which is [Some None]: the object spread
    copies such a property like any other.  A required property that is
    present carries a value of its type. *)
Module ApiKeyPatch.
Record t := mk {
  id : option string;
  channelId : option string;
  key : option string;
  alias : option (option string);
  status : option ApiKeyStatus;
  priority : option Z;
  weight : option Z;
  balance : option (option Q);
  lastChecked : option (option Z);
  lastUsed : option (option Z);
  errorCount : option Z;
  totalRequests : option Z;
  createdAt : option Z;
  updatedAt : option Z
}.
Definition empty : t :=
  mk None None None None None None None None None None None None None None.
End ApiKeyPatch.

(** ** Array helpers with their JavaScript behaviour *)

Section Arrays.
Context {A : Type}.

(** [Array.prototype.findIndex]: the first index whose element satisfies
    [p], or [-1]. *)
Fixpoint findIndex (p : A -> bool) (l : list A) : Z :=
  match l with
  | [] => -1
  | x :: l' =>
      if p x then 0
      else let i := findIndex p l' in if i =? -1 then -1 else i + 1
  end.

(** [Array.prototype.find]. *)
Fixpoint find (p : A -> bool) (l : list A) : option A :=
  match l with
  | [] => None
  | x :: l' => if p x then Some x else find p l'
  end.

(** [l.splice(i, 1)] for an index [i >= 0]. *)
Fixpoint removeAt (i : nat) (l : list A) : list A :=
  match l, i with
  | [], _ => []
  | _ :: l', O => l'
  | x :: l', S i' => x :: removeAt i' l'
  end.

(** [l[i]] for a numeric index: [undefined] (here [None]) out of range. *)
Definition at_index (l : list A) (i : Z) : option A :=
  if i <? 0 then None else l !! Z.to_nat i.
End Arrays.

(** ** packages/server/src/db/index.ts *)

Record Settings := { checkInterval : Z; maxLogsRetention : Z }.

Record Database := {
  channels : list Channel.t;
  apiKeys : list ApiKey.t;
  logs : list RequestLog.t;
  settings : Settings
}.

Definition defaultData : Database :=
  {| channels := []; apiKeys := []; logs := [];
     settings := {| checkInterval := 3600000; maxLogsRetention := 604800000 |} |}.

Definition getChannels (db : Database) : list Channel.t := channels db.

Definition getChannelById (id : string) (db : Database) : option Channel.t :=
  find (fun c => String.eqb (Channel.id c) id) (channels db).

Definition deleteChannel (id : string) (db : Database) : bool * Database :=
  let index := findIndex (fun c => String.eqb (Channel.id c) id) (channels db) in
  if index =? -1 then (false, db)
  else
    (true,
     {| channels := removeAt (Z.to_nat index) (channels db);
        apiKeys :=
          List.filter (fun k => negb (String.eqb (ApiKey.channelId k) id)) (apiKeys db);
        logs := logs db;
        settings := settings db |}).

(** [getApiKeys(channelId?)]: the argument is tested for truthiness, so the
    empty string selects every key, like an absent argument. *)
Definition getApiKeys (channelId : option string) (db : Database) : list ApiKey.t :=
  match channelId with
  | None => apiKeys db
  | Some cid =>
      if String.eqb cid EmptyString then apiKeys db
      else List.filter (fun k => String.eqb (ApiKey.channelId k) cid) (apiKeys db)
  end.

Definition getApiKeyById (id : string) (db : Database) : option ApiKey.t :=
  find (fun k => String.eqb (ApiKey.id k) id) (apiKeys db).

Definition getActiveKeysByChannel (channelId : string) (db : Database) : list ApiKey.t :=
  List.filter
    (fun k => String.eqb (ApiKey.channelId k) channelId
              && ApiKeyStatus_eqb (ApiKey.status k) Active)
    (apiKeys db).

(** [{ ...old, ...updates, updatedAt: Date.now() }]: every property that
    [updates] has replaces the one of [old]; an [updatedAt] of [updates] is
    replaced in turn. *)
Definition applyPatch (old : ApiKey.t) (updates : ApiKeyPatch.t) (now : Z) : ApiKey.t :=
  let pick {T} (o : option T) (d : T) : T := match o with Some v => v | None => d end in
  {| ApiKey.id := pick (ApiKeyPatch.id updates) (ApiKey.id old);
     ApiKey.channelId := pick (ApiKeyPatch.channelId updates) (ApiKey.channelId old);
     ApiKey.key := pick (ApiKeyPatch.key updates) (ApiKey.key old);
     ApiKey.alias := pick (ApiKeyPatch.alias updates) (ApiKey.alias old);
     ApiKey.status := pick (ApiKeyPatch.status updates) (ApiKey.status old);
     ApiKey.priority := pick (ApiKeyPatch.priority updates) (ApiKey.priority old);
     ApiKey.weight := pick (ApiKeyPatch.weight updates) (ApiKey.weight old);
     ApiKey.balance := pick (ApiKeyPatch.balance updates) (ApiKey.balance old);
     ApiKey.lastChecked := pick (ApiKeyPatch.lastChecked updates) (ApiKey.lastChecked old);
     ApiKey.lastUsed := pick (ApiKeyPatch.lastUsed updates) (ApiKey.lastUsed old);
     ApiKey.errorCount := pick (ApiKeyPatch.errorCount updates) (ApiKey.errorCount old);
     ApiKey.totalRequests := pick (ApiKeyPatch.totalRequests updates) (ApiKey.totalRequests old);
     ApiKey.createdAt := pick (ApiKeyPatch.createdAt updates) (ApiKey.createdAt old);
     ApiKey.updatedAt := now |}.

Definition updateApiKey (now : Z) (id : string) (updates : ApiKeyPatch.t) (db : Database)
  : option ApiKey.t * Database :=
  let index := findIndex (fun k => String.eqb (ApiKey.id k) id) (apiKeys db) in
  if index =? -1 then (None, db)
  else
    match at_index (apiKeys db) index with
    | None => (None, db) (* not reached: [index] is in range *)
    | Some old =>
        let key := applyPatch old updates now in
        (Some key,
         {| channels := channels db;
            apiKeys := <[Z.to_nat index := key]> (apiKeys db);
            logs := logs db;
            settings := settings db |})
    end.

(** [addLog]: [now] is the [Date.now()] read for the cutoff.  The retention
    is [settings.maxLogsRetention || 604800000]. *)
Definition addLog (now : Z) (log : RequestLog.t) (db : Database) : Database :=
  let pushed := logs db ++ [log] in
  let maxRetention :=
    if maxLogsRetention (settings db) =? 0 then 604800000
    else maxLogsRetention (settings db) in
  let cutoff := now - maxRetention in
  {| channels := channels db;
     apiKeys := apiKeys db;
     logs := List.filter (fun l => cutoff <? RequestLog.timestamp l) pushed;
     settings := settings db |}.

Definition getLogsForStats (since : Z) (db : Database) : list RequestLog.t :=
  List.filter (fun l => since <=? RequestLog.timestamp l) (logs db).

(** ** packages/server/src/services/loadBalancer.ts *)

(** What a selection evaluates to: [null], a key, or [undefined] (an array
    read out of range). *)
Inductive Selection :=
  | SelNull
  | SelUndefined
  | SelKey (k : ApiKey.t).

Definition selection_of (o : option ApiKey.t) : Selection :=
  match o with Some k => SelKey k | None => SelUndefined end.

(** [Array.prototype.sort] with a comparator: the sort is stable, so for a
    consistent comparator its result is the one of this insertion sort.
    [x] is placed before the first element [y] with [cmp x y <= 0]. *)
Section Sort.
Context {A : Type} (cmp : A -> A -> Z).

Fixpoint sort_insert (x : A) (l : list A) : list A :=
  match l with
  | [] => [x]
  | y :: l' => if 0 <? cmp x y then y :: sort_insert x l' else x :: y :: l'
  end.

Fixpoint sort (l : list A) : list A :=
  match l with
  | [] => []
  | x :: l' => sort_insert x (sort l')
  end.
End Sort.

(** [l.reduce(f, init)]. *)
Definition reduce {A B : Type} (f : B -> A -> B) (init : B) (l : list A) : B :=
  fold_left f l init.

(** The module's round-robin cursors, [roundRobinIndex]. *)
Abbreviation Cursors := (gmap string Z).

(** [a % b] of JavaScript on integers: the remainder takes the sign of [a]. *)
Definition js_rem (a b : Z) : Z := Z.rem a b.

(** The four private selectors are only called by [selectKey], on a
    non-empty array.  [roundRobinSelect] on an empty array would compute
    with [NaN]; the embedding returns [undefined] there and leaves the
    cursor alone. *)
Definition roundRobinSelect (keys : list ApiKey.t) (channelId : string) (rr : Cursors)
  : Selection * Cursors :=
  let currentIndex :=
    match rr !! channelId with
    | Some i => if i =? 0 then 0 else i
    | None => 0
    end in
  let n := Z.of_nat (length keys) in
  if n =? 0 then (SelUndefined, rr)
  else
    (selection_of (at_index keys (js_rem currentIndex n)),
     <[channelId := js_rem (currentIndex + 1) n]> rr).

(** The [for] loop of [weightedSelect]: [None] when the loop ends without
    returning. *)
Fixpoint weightedScan (random : Q) (keys : list ApiKey.t) : option ApiKey.t :=
  match keys with
  | [] => None
  | key :: rest =>
      let random' := (random - inject_Z (ApiKey.weight key))%Q in
      if Qle_bool random' 0 then Some key else weightedScan random' rest
  end.

(** [draw] is the value of the one [Math.random()] call.  The products and
    the subtractions of the loop are exact here, which decides which keys
    can be returned and that the index is in range; which share of the
    draws goes to which key depends on the rounding of the product, for
    which see [weightedSelectD]. *)
Definition weightedSelect (draw : Q) (keys : list ApiKey.t) : Selection :=
  let totalWeight := reduce (fun sum k => sum + ApiKey.weight k) 0 keys in
  let n := Z.of_nat (length keys) in
  if totalWeight =? 0 then selection_of (at_index keys (Qfloor (draw * inject_Z n)%Q))
  else
    match weightedScan (draw * inject_Z totalWeight)%Q keys with
    | Some key => SelKey key
    | None => selection_of (at_index keys (n - 1))
    end.

(** [sorted[0].priority] on an empty array is a [TypeError]; the embedding
    returns [undefined] for it. *)
Definition prioritySelect (keys : list ApiKey.t) : Selection :=
  let sorted := sort (fun a b => ApiKey.priority b - ApiKey.priority a) keys in
  match sorted with
  | [] => SelUndefined
  | s0 :: _ =>
      let highestPriority := ApiKey.priority s0 in
      let topKeys := List.filter (fun k => ApiKey.priority k =? highestPriority) sorted in
      match topKeys with
      | [] => SelUndefined
      | t0 :: _ =>
          SelKey
            (reduce
               (fun best k => if ApiKey.errorCount k <? ApiKey.errorCount best then k else best)
               t0 topKeys)
      end
  end.

Definition leastUsedSelect (keys : list ApiKey.t) : Selection :=
  match keys with
  | [] => SelUndefined
  | k0 :: _ =>
      SelKey
        (reduce
           (fun least k =>
              if ApiKey.totalRequests k <? ApiKey.totalRequests least then k else least)
           k0 keys)
  end.

(** [strategy] ranges over the four values of [LoadBalanceStrategy]; the
    [default] branch of the [switch] is the round-robin one and is not
    reached for them. *)
Definition selectKey (draw : Q) (keys : list ApiKey.t) (strategy : LoadBalanceStrategy)
    (channelId : string) (rr : Cursors) : Selection * Cursors :=
  let activeKeys := List.filter (fun k => ApiKeyStatus_eqb (ApiKey.status k) Active) keys in
  if (length activeKeys =? 0)%nat then (SelNull, rr)
  else
    match strategy with
    | RoundRobin => roundRobinSelect activeKeys channelId rr
    | Weighted => (weightedSelect draw activeKeys, rr)
    | Priority => (prioritySelect activeKeys, rr)
    | LeastUsed => (leastUsedSelect activeKeys, rr)
    end.

(** Every stored cursor is a non-negative integer: the module starts with an
    empty map and only ever stores [(currentIndex + 1) % keys.length]. *)
Definition cursors_ok (rr : Cursors) : Prop :=
  forall c i, rr !! c = Some i -> 0 <= i.

(** ** packages/server/src/middleware/index.ts *)

(** One entry of [requestCounts]. *)
Record RateRecord := { count : Z; resetAt : Z }.

Abbreviation RequestCounts := (gmap string RateRecord).

(** The JSON body [{ error: { message, type } }]. *)
Record ErrorBody := { message : string; type : string }.

(** What a middleware does with the request: call [next()] or answer. *)
Inductive MiddlewareResult :=
  | Next
  | Reply (status : Z) (body : ErrorBody).

(** [tokenInfo] is [(req as any).tokenInfo].  [!token.rateLimit] holds for an
    absent limit and for the limit [0].  [record.count++] updates the object
    that the map holds. *)
Definition rateLimitMiddleware (now : Z) (tokenInfo : option Token.t)
    (requestCounts : RequestCounts) : MiddlewareResult * RequestCounts :=
  match tokenInfo with
  | None => (Next, requestCounts)
  | Some token =>
      match Token.rateLimit token with
      | None => (Next, requestCounts)
      | Some rateLimit =>
          if rateLimit =? 0 then (Next, requestCounts)
          else
            let windowMs := 60000 in
            let fresh := {| count := 0; resetAt := now + windowMs |} in
            let record :=
              match requestCounts !! Token.id token with
              | None => fresh
              | Some r => if resetAt r <=? now then fresh else r
              end in
            let record' := {| count := count record + 1; resetAt := resetAt record |} in
            let requestCounts' := <[Token.id token := record']> requestCounts in
            if rateLimit <? count record' then
              (Reply 429 {| message := "Rate limit exceeded"; type := "rate_limit_error" |},
               requestCounts')
            else (Next, requestCounts')
      end
  end.

(** ** packages/server/src/routes/channels.ts (token routes) *)

(** The [rateLimit] field of [createTokenSchema]:
    [z.number().int().min(0).optional()]. *)
Definition createTokenSchema_rateLimit (rateLimit : option Z) : bool :=
  match rateLimit with
  | None => true
  | Some n => 0 <=? n
  end.

(** ** packages/server/src/services/keyChecker.ts *)

(** A thrown value: an [Error] with its message, or anything else. *)
Inductive Thrown :=
  | ErrorObject (msg : string)
  | NotAnError.

(** The value that [res.json()] resolves to, as far as the checker reads
    it.  [null] is the one JSON value on which reading a property throws;
    every other value (an object, an array, a number, a string, a boolean)
    is reduced to its [total_available] property, [None] when it has none.
    The body is declared with a numeric [total_available]; another kind of
    value there is not modelled. *)
Inductive JsonBody :=
  | JsonNull
  | JsonValue (total_available : option Q).

(** A [Response] as far as the checker reads it: the status, what
    [res.text()] gives, and what [res.json()] gives.  Reading the body can
    throw. *)
Record HttpResponse := {
  res_status : Z;
  res_text : Thrown + string;
  res_json : Thrown + JsonBody
}.

(** The outcome of the one [fetch] of a probe: it throws (connection,
    proxy, the 30 s timeout) or resolves to a response. *)
Definition Upstream : Type := Thrown + HttpResponse.

Definition res_ok (status : Z) : bool := (200 <=? status) && (status <=? 299).

Definition handleErrorResponse (now : Z) (keyId : string) (res : HttpResponse)
  : KeyCheckResult.t :=
  let errorMsg := "HTTP " +:+ pretty (res_status res) in
  let errorMsg :=
    match res_text res with
    | inr body => errorMsg +:+ ": " +:+ String.substring 0 200 body
    | inl _ => errorMsg
    end in
  let status :=
    if (res_status res =? 401) || (res_status res =? 403) then Invalid
    else if res_status res =? 429 then QuotaExceeded
    else Invalid in
  {| KeyCheckResult.keyId := keyId;
     KeyCheckResult.status := status;
     KeyCheckResult.balance := None;
     KeyCheckResult.error := Some errorMsg;
     KeyCheckResult.checkedAt := now |}.

(** The three [catch] blocks. *)
Definition caught (now : Z) (keyId : string) (e : Thrown) : KeyCheckResult.t :=
  {| KeyCheckResult.keyId := keyId;
     KeyCheckResult.status := Invalid;
     KeyCheckResult.balance := None;
     KeyCheckResult.error :=
       Some (match e with ErrorObject m => m | NotAnError => "Connection failed" end);
     KeyCheckResult.checkedAt := now |}.

(** The [TypeError] of [data.total_available] for [data = null]. *)
Definition nullPropertyError : Thrown :=
  ErrorObject "Cannot read properties of null (reading 'total_available')".

Definition activeResult (now : Z) (keyId : string) (balance : option Q) : KeyCheckResult.t :=
  {| KeyCheckResult.keyId := keyId;
     KeyCheckResult.status := Active;
     KeyCheckResult.balance := balance;
     KeyCheckResult.error := None;
     KeyCheckResult.checkedAt := now |}.

(** In the three provider functions [up] is the outcome of the request that
    the function sends; the URL, headers and body of that request are not
    part of the embedding. *)
Definition checkOpenAI (now : Z) (channel : Channel.t) (key : ApiKey.t) (up : Upstream)
  : KeyCheckResult.t :=
  match up with
  | inl e => caught now (ApiKey.id key) e
  | inr res =>
      match Channel.testMethod channel with
      | TestModels =>
          if res_ok (res_status res) then activeResult now (ApiKey.id key) None
          else handleErrorResponse now (ApiKey.id key) res
      | TestBalance =>
          if res_ok (res_status res) then
            match res_json res with
            | inl e => caught now (ApiKey.id key) e
            | inr JsonNull => caught now (ApiKey.id key) nullPropertyError
            | inr (JsonValue total_available) =>
                activeResult now (ApiKey.id key) total_available
            end
          else handleErrorResponse now (ApiKey.id key) res
      | TestChat =>
          if res_ok (res_status res) then activeResult now (ApiKey.id key) None
          else handleErrorResponse now (ApiKey.id key) res
      end
  end.

Definition checkAnthropic (now : Z) (channel : Channel.t) (key : ApiKey.t) (up : Upstream)
  : KeyCheckResult.t :=
  match up with
  | inl e => caught now (ApiKey.id key) e
  | inr res =>
      match Channel.testMethod channel with
      | TestModels =>
          if res_ok (res_status res) then activeResult now (ApiKey.id key) None
          else handleErrorResponse now (ApiKey.id key) res
      | _ =>
          if res_ok (res_status res) then activeResult now (ApiKey.id key) None
          else handleErrorResponse now (ApiKey.id key) res
      end
  end.

Definition checkGemini (now : Z) (channel : Channel.t) (key : ApiKey.t) (up : Upstream)
  : KeyCheckResult.t :=
  match up with
  | inl e => caught now (ApiKey.id key) e
  | inr res =>
      match Channel.testMethod channel with
      | TestModels =>
          if res_ok (res_status res) then activeResult now (ApiKey.id key) None
          else handleErrorResponse now (ApiKey.id key) res
      | _ =>
          if res_ok (res_status res) then activeResult now (ApiKey.id key) None
          else handleErrorResponse now (ApiKey.id key) res
      end
  end.

Definition checkKey (now : Z) (channel : Channel.t) (key : ApiKey.t) (up : Upstream)
  : KeyCheckResult.t :=
  match Channel.type channel with
  | Anthropic => checkAnthropic now channel key up
  | Gemini => checkGemini now channel key up
  | OpenAI | OpenAICompatible => checkOpenAI now channel key up
  end.

(** ** scheduler/index.ts *)

(** What one probe meets: the outcome of its request, the [Date.now()] that
    stamps the result, and the [Date.now()] read by [updateApiKey]. *)
Record ProbeEnv := {
  upstream : Upstream;
  checkedTime : Z;
  updateTime : Z
}.

(** The body of the inner loop of [runKeyCheck].  [checkKey] does not throw,
    so the [catch] of the loop is not reached. *)
Definition checkAndUpdate (env : Channel.t -> ApiKey.t -> ProbeEnv)
    (channel : Channel.t) (db : Database) (key : ApiKey.t) : Database :=
  let e := env channel key in
  let result := checkKey (checkedTime e) channel key (upstream e) in
  snd (updateApiKey (updateTime e) (ApiKey.id key)
         {| ApiKeyPatch.id := None; ApiKeyPatch.channelId := None;
            ApiKeyPatch.key := None; ApiKeyPatch.createdAt := None;
            ApiKeyPatch.updatedAt := None;
            ApiKeyPatch.alias := None;
            ApiKeyPatch.status := Some (KeyCheckResult.status result);
            ApiKeyPatch.priority := None;
            ApiKeyPatch.weight := None;
            ApiKeyPatch.balance := Some (KeyCheckResult.balance result);
            ApiKeyPatch.lastChecked := Some (Some (KeyCheckResult.checkedAt result));
            ApiKeyPatch.lastUsed := None;
            ApiKeyPatch.errorCount :=
              Some (if ApiKeyStatus_eqb (KeyCheckResult.status result) Active then 0
                    else ApiKey.errorCount key + 1);
            ApiKeyPatch.totalRequests := None |}
         db).

(** [allKeys] is the array of the store itself, not a copy: the filter of
    each channel reads the store as the earlier updates of the run left it.
    The key objects it collects are the ones stored at that moment. *)
Definition runKeyCheck (env : Channel.t -> ApiKey.t -> ProbeEnv) (db : Database)
  : Database :=
  let channels := List.filter Channel.enabled (getChannels db) in
  fold_left
    (fun db channel =>
       let allKeys := getApiKeys None db in
       let channelKeys :=
         List.filter
           (fun k => String.eqb (ApiKey.channelId k) (Channel.id channel)
                     && negb (ApiKeyStatus_eqb (ApiKey.status k) Disabled))
           allKeys in
       fold_left (checkAndUpdate env channel) channelKeys db)
    channels db.

(** [checkSingleKey]: [inl msg] is [throw new Error(msg)]. *)
Definition checkSingleKey (e : ProbeEnv) (keyId : string) (db : Database)
  : string + Database :=
  let keys := getApiKeys None db in
  match find (fun k => String.eqb (ApiKey.id k) keyId) keys with
  | None => inl "Key not found"
  | Some key =>
      match getChannelById (ApiKey.channelId key) db with
      | None => inl "Channel not found"
      | Some channel =>
          let result := checkKey (checkedTime e) channel key (upstream e) in
          inr (snd (updateApiKey (updateTime e) (ApiKey.id key)
                 {| ApiKeyPatch.id := None; ApiKeyPatch.channelId := None;
                    ApiKeyPatch.key := None; ApiKeyPatch.createdAt := None;
                    ApiKeyPatch.updatedAt := None;
                    ApiKeyPatch.alias := None;
                    ApiKeyPatch.status := Some (KeyCheckResult.status result);
                    ApiKeyPatch.priority := None;
                    ApiKeyPatch.weight := None;
                    ApiKeyPatch.balance := Some (KeyCheckResult.balance result);
                    ApiKeyPatch.lastChecked := Some (Some (KeyCheckResult.checkedAt result));
                    ApiKeyPatch.lastUsed := None;
                    ApiKeyPatch.errorCount :=
                      Some (if ApiKeyStatus_eqb (KeyCheckResult.status result) Active then 0
                            else ApiKey.errorCount key + 1);
                    ApiKeyPatch.totalRequests := None |}
                 db))
      end
  end.


(** ** packages/server/src/routes/openai.ts *)

Definition MODEL_CHANNEL_MAP : list (string * list ChannelType) :=
  [ ("gpt-4", [OpenAI; OpenAICompatible]);
    ("gpt-4-turbo", [OpenAI; OpenAICompatible]);
    ("gpt-4o", [OpenAI; OpenAICompatible]);
    ("gpt-4o-mini", [OpenAI; OpenAICompatible]);
    ("gpt-3.5-turbo", [OpenAI; OpenAICompatible]);
    ("o1", [OpenAI; OpenAICompatible]);
    ("o1-mini", [OpenAI; OpenAICompatible]);
    ("o1-preview", [OpenAI; OpenAICompatible]);
    ("claude-3-opus", [Anthropic]);
    ("claude-3-sonnet", [Anthropic]);
    ("claude-3-haiku", [Anthropic]);
    ("claude-3.5-sonnet", [Anthropic]);
    ("claude-3-5-sonnet", [Anthropic]);
    ("gemini-pro", [Gemini]);
    ("gemini-1.5-pro", [Gemini]);
    ("gemini-1.5-flash", [Gemini]) ].

(** The [for ... of Object.entries(...)] loop with its [break]:
    [model.startsWith(prefix)] is [String.prefix prefix model]. *)
Fixpoint firstMatch (table : list (string * list ChannelType)) (model : string)
  : list ChannelType :=
  match table with
  | [] => []
  | (prefix, types) :: rest =>
      if String.prefix prefix model then types else firstMatch rest model
  end.

(** The channel types that [findChannelForModel] routes [model] to. *)
Definition matchingTypes (model : string) : list ChannelType :=
  let matchingTypes := firstMatch MODEL_CHANNEL_MAP model in
  if (length matchingTypes =? 0)%nat then [OpenAI; OpenAICompatible] else matchingTypes.

(** The loop over the eligible channels.  [selectKey] reads [Math.random()]
    only when it goes on to return a key, which ends the loop, so one draw
    serves the whole loop. *)
Fixpoint tryChannels (draw : Q) (eligibleChannels : list Channel.t) (db : Database)
    (rr : Cursors) : option (Channel.t * ApiKey.t) * Cursors :=
  match eligibleChannels with
  | [] => (None, rr)
  | channel :: rest =>
      let keys := getActiveKeysByChannel (Channel.id channel) db in
      match selectKey draw keys (Channel.loadBalanceStrategy channel) (Channel.id channel) rr with
      | (SelKey key, rr') => (Some (channel, key), rr')
      | (_, rr') => tryChannels draw rest db rr'
      end
  end.

Definition findChannelForModel (draw : Q) (model : string) (allowedChannels : list string)
    (db : Database) (rr : Cursors) : option (Channel.t * ApiKey.t) * Cursors :=
  let channels := List.filter Channel.enabled (getChannels db) in
  let types := matchingTypes model in
  let eligibleChannels :=
    List.filter (fun c => existsb (ChannelType_eqb (Channel.type c)) types) channels in
  let eligibleChannels :=
    if (0 <? length allowedChannels)%nat then
      List.filter (fun c => existsb (String.eqb (Channel.id c)) allowedChannels)
        eligibleChannels
    else eligibleChannels in
  tryChannels draw eligibleChannels db rr.

(** What happens to the body once [fetch] has resolved: it is read to its end
    ([response.json()] resolves, or the stream is copied), or reading it
    throws.  [stringified] is [JSON.stringify(data)] of the parsed body. *)
Inductive BodyOutcome :=
  | BodyRead (stringified : string)
  | BodyThrows (e : Thrown).

(** The upstream side of one relay: an exception before any response
    (connection or proxy failure), or a response with its status. *)
Inductive RelayOutcome :=
  | NoResponse (e : Thrown)
  | Responded (status : Z) (body : BodyOutcome).

(** The [Date.now()] readings of the handler, in the order of the source, and
    the two [nanoid()] values. *)
Record RelayEnv := {
  atStart : Z;
  atResponse : Z;
  atLogTimestamp : Z;
  atLastUsed : Z;
  atStatsUpdate : Z;
  atAddLog : Z;
  atCatch : Z;
  atCatchUpdate : Z;
  atCatchLogTimestamp : Z;
  atCatchAddLog : Z;
  logId : string;
  catchLogId : string
}.

(** The [catch] block of the handler, store side. *)
Definition relayCatch (env : RelayEnv) (tokenInfo : Token.t) (model : string)
    (isStreaming : bool) (channel : Channel.t) (key : ApiKey.t) (e : Thrown)
    (db : Database) : Database :=
  let latency := atCatch env - atStart env in
  let errorMsg := match e with ErrorObject m => m | NotAnError => "Unknown error" end in
  let db1 :=
    snd (updateApiKey (atCatchUpdate env) (ApiKey.id key)
           {| ApiKeyPatch.id := None; ApiKeyPatch.channelId := None;
              ApiKeyPatch.key := None; ApiKeyPatch.createdAt := None;
              ApiKeyPatch.updatedAt := None;
              ApiKeyPatch.alias := None; ApiKeyPatch.status := None;
              ApiKeyPatch.priority := None; ApiKeyPatch.weight := None;
              ApiKeyPatch.balance := None; ApiKeyPatch.lastChecked := None;
              ApiKeyPatch.lastUsed := None;
              ApiKeyPatch.errorCount := Some (ApiKey.errorCount key + 1);
              ApiKeyPatch.totalRequests := None |}
           db) in
  addLog (atCatchAddLog env)
    {| RequestLog.id := catchLogId env;
       RequestLog.timestamp := atCatchLogTimestamp env;
       RequestLog.tokenId := Some (Token.id tokenInfo);
       RequestLog.channelId := Channel.id channel;
       RequestLog.keyId := ApiKey.id key;
       RequestLog.model := model;
       RequestLog.path := "/v1/chat/completions";
       RequestLog.method := "POST";
       RequestLog.status := 500;
       RequestLog.latency := latency;
       RequestLog.inputTokens := None;
       RequestLog.outputTokens := None;
       RequestLog.error := Some errorMsg;
       RequestLog.streaming := isStreaming |}
    db1.

(** The handler of [POST /v1/chat/completions] from the point where
    [findChannelForModel] has returned [(channel, key)], store side: the
    effects on the store, in the order of the source.  [key] is the object
    that the selection returned. *)
Definition relayChatCompletions (env : RelayEnv) (tokenInfo : Token.t) (model : string)
    (isStreaming : bool) (channel : Channel.t) (key : ApiKey.t) (up : RelayOutcome)
    (db : Database) : Database :=
  match up with
  | NoResponse e => relayCatch env tokenInfo model isStreaming channel key e db
  | Responded status body =>
      let latency := atResponse env - atStart env in
      let log error :=
        {| RequestLog.id := logId env;
           RequestLog.timestamp := atLogTimestamp env;
           RequestLog.tokenId := Some (Token.id tokenInfo);
           RequestLog.channelId := Channel.id channel;
           RequestLog.keyId := ApiKey.id key;
           RequestLog.model := model;
           RequestLog.path := "/v1/chat/completions";
           RequestLog.method := "POST";
           RequestLog.status := status;
           RequestLog.latency := latency;
           RequestLog.inputTokens := None;
           RequestLog.outputTokens := None;
           RequestLog.error := error;
           RequestLog.streaming := isStreaming |} in
      let db1 :=
        snd (updateApiKey (atStatsUpdate env) (ApiKey.id key)
               {| ApiKeyPatch.id := None; ApiKeyPatch.channelId := None;
                  ApiKeyPatch.key := None; ApiKeyPatch.createdAt := None;
                  ApiKeyPatch.updatedAt := None;
                  ApiKeyPatch.alias := None; ApiKeyPatch.status := None;
                  ApiKeyPatch.priority := None; ApiKeyPatch.weight := None;
                  ApiKeyPatch.balance := None; ApiKeyPatch.lastChecked := None;
                  ApiKeyPatch.lastUsed := Some (Some (atLastUsed env));
                  ApiKeyPatch.errorCount :=
                    Some (if res_ok status then 0 else ApiKey.errorCount key + 1);
                  ApiKeyPatch.totalRequests := Some (ApiKey.totalRequests key + 1) |}
               db) in
      match body with
      | BodyThrows e => relayCatch env tokenInfo model isStreaming channel key e db1
      | BodyRead stringified =>
          if isStreaming && res_ok status then addLog (atAddLog env) (log None) db1
          else
            addLog (atAddLog env)
              (log (if res_ok status then None else Some stringified)) db1
      end
  end.

(** ** The specification's reading of the model table (section 4.8, step 2) *)

(** Longest-prefix match: among the entries of the table whose name is a
    prefix of [model], the one with the longest name. *)
Definition spec_longestPrefixEntry (table : list (string * list ChannelType))
    (model : string) : option (string * list ChannelType) :=
  fold_left
    (fun best e =>
       if String.prefix (fst e) model then
         match best with
         | None => Some e
         | Some b => if (String.length (fst b) <? String.length (fst e))%nat then Some e else best
         end
       else best)
    table None.

Definition spec_longestPrefixTypes (model : string) : list ChannelType :=
  match spec_longestPrefixEntry MODEL_CHANNEL_MAP model with
  | Some (_, types) => types
  | None => [OpenAI; OpenAICompatible]
  end.

Fixpoint types_eqb (a b : list ChannelType) : bool :=
  match a, b with
  | [], [] => true
  | x :: a', y :: b' => ChannelType_eqb x y && types_eqb a' b'
  | _, _ => false
  end.

(** Two names are comparable when one is a prefix of the other. *)
Definition comparable (a b : string) : bool := String.prefix a b || String.prefix b a.

(** Every entry of [table] that is comparable with [s] has the types [T]. *)
Definition family_has_types (table : list (string * list ChannelType)) (s : string)
    (T : list ChannelType) : bool :=
  forallb (fun e => implb (comparable (fst e) s) (types_eqb (snd e) T)) table.

(** ** Request sequences and sample data used in the statements below *)

(** The requests of one token reaching the rate limiter at the given
    [Date.now()] readings, in order. *)
Fixpoint serveAll (tokenInfo : option Token.t) (times : list Z) (rc : RequestCounts)
  : list MiddlewareResult * RequestCounts :=
  match times with
  | [] => ([], rc)
  | now :: rest =>
      let (r, rc1) := rateLimitMiddleware now tokenInfo rc in
      let (rs, rc2) := serveAll tokenInfo rest rc1 in
      (r :: rs, rc2)
  end.

Definition rateLimited : MiddlewareResult :=
  Reply 429 {| message := "Rate limit exceeded"; type := "rate_limit_error" |}.

Definition sampleChannel (id : string) (type : ChannelType) (testMethod : TestMethod)
  : Channel.t :=
  {| Channel.id := id; Channel.name := "sample"; Channel.type := type;
     Channel.baseUrl := "https://api.example.com"; Channel.testMethod := testMethod;
     Channel.testModel := None; Channel.proxyId := None;
     Channel.loadBalanceStrategy := Priority; Channel.enabled := true;
     Channel.createdAt := 0; Channel.updatedAt := 0 |}.

Definition sampleKey (id channelId : string) (status : ApiKeyStatus)
    (priority errorCount : Z) : ApiKey.t :=
  {| ApiKey.id := id; ApiKey.channelId := channelId; ApiKey.key := "sk-sample";
     ApiKey.alias := None; ApiKey.status := status; ApiKey.priority := priority;
     ApiKey.weight := 50; ApiKey.balance := None; ApiKey.lastChecked := None;
     ApiKey.lastUsed := None; ApiKey.errorCount := errorCount;
     ApiKey.totalRequests := 0; ApiKey.createdAt := 0; ApiKey.updatedAt := 0 |}.

Definition sampleToken (id : string) (rateLimit : option Z) : Token.t :=
  {| Token.id := id; Token.name := "sample"; Token.token := "kh-sample";
     Token.allowedChannels := []; Token.rateLimit := rateLimit;
     Token.enabled := true; Token.createdAt := 0; Token.lastUsed := None |}.

Definition sampleLog (id : string) (timestamp : Z) : RequestLog.t :=
  {| RequestLog.id := id; RequestLog.timestamp := timestamp;
     RequestLog.tokenId := None; RequestLog.channelId := "c1";
     RequestLog.keyId := "k1"; RequestLog.model := "gpt-4";
     RequestLog.path := "/v1/chat/completions"; RequestLog.method := "POST";
     RequestLog.status := 200; RequestLog.latency := 1;
     RequestLog.inputTokens := None; RequestLog.outputTokens := None;
     RequestLog.error := None; RequestLog.streaming := false |}.


Definition withWeight (weight : Z) (k : ApiKey.t) : ApiKey.t :=
  {| ApiKey.id := ApiKey.id k; ApiKey.channelId := ApiKey.channelId k;
     ApiKey.key := ApiKey.key k; ApiKey.alias := ApiKey.alias k;
     ApiKey.status := ApiKey.status k; ApiKey.priority := ApiKey.priority k;
     ApiKey.weight := weight; ApiKey.balance := ApiKey.balance k;
     ApiKey.lastChecked := ApiKey.lastChecked k; ApiKey.lastUsed := ApiKey.lastUsed k;
     ApiKey.errorCount := ApiKey.errorCount k;
     ApiKey.totalRequests := ApiKey.totalRequests k;
     ApiKey.createdAt := ApiKey.createdAt k; ApiKey.updatedAt := ApiKey.updatedAt k |}.


Definition sampleDb (keys : list ApiKey.t) : Database :=
  {| channels := [sampleChannel "c1" OpenAI TestBalance; sampleChannel "c2" Gemini TestChat];
     apiKeys := keys; logs := []; settings := settings defaultData |}.


(** The message that the [catch] blocks of the checker record. *)
Definition caughtMessage (e : Thrown) : string :=
  match e with ErrorObject m => m | NotAnError => "Connection failed" end.

(** The stored key after a probe of [key] that gave [result], written by
    [updateApiKey] at [updateTime]. *)
Definition keyAfterProbe (key : ApiKey.t) (result : KeyCheckResult.t) (updateTime : Z)
  : ApiKey.t :=
  {| ApiKey.id := ApiKey.id key; ApiKey.channelId := ApiKey.channelId key;
     ApiKey.key := ApiKey.key key; ApiKey.alias := ApiKey.alias key;
     ApiKey.status := KeyCheckResult.status result;
     ApiKey.priority := ApiKey.priority key; ApiKey.weight := ApiKey.weight key;
     ApiKey.balance := KeyCheckResult.balance result;
     ApiKey.lastChecked := Some (KeyCheckResult.checkedAt result);
     ApiKey.lastUsed := ApiKey.lastUsed key;
     ApiKey.errorCount :=
       match KeyCheckResult.status result with
       | Active => 0
       | _ => ApiKey.errorCount key + 1
       end;
     ApiKey.totalRequests := ApiKey.totalRequests key;
     ApiKey.createdAt := ApiKey.createdAt key; ApiKey.updatedAt := updateTime |}.

(** The same when the key that the update finds under the id is [stored]
    and the probe was started with the object [key], read earlier: the
    error count is computed from [key], every field that the update does
    not write is the one of [stored]. *)
Definition storedAfterProbe (stored key : ApiKey.t) (result : KeyCheckResult.t)
    (updateTime : Z) : ApiKey.t :=
  {| ApiKey.id := ApiKey.id stored; ApiKey.channelId := ApiKey.channelId stored;
     ApiKey.key := ApiKey.key stored; ApiKey.alias := ApiKey.alias stored;
     ApiKey.status := KeyCheckResult.status result;
     ApiKey.priority := ApiKey.priority stored; ApiKey.weight := ApiKey.weight stored;
     ApiKey.balance := KeyCheckResult.balance result;
     ApiKey.lastChecked := Some (KeyCheckResult.checkedAt result);
     ApiKey.lastUsed := ApiKey.lastUsed stored;
     ApiKey.errorCount :=
       match KeyCheckResult.status result with
       | Active => 0
       | _ => ApiKey.errorCount key + 1
       end;
     ApiKey.totalRequests := ApiKey.totalRequests stored;
     ApiKey.createdAt := ApiKey.createdAt stored; ApiKey.updatedAt := updateTime |}.


(** ** Further operations of packages/server/src/db/index.ts *)

(** [Partial<Channel>]: every property of [Channel] may be present; the
    properties are treated as in [ApiKeyPatch]. *)
Module ChannelPatch.
Record t := mk {
  id : option string;
  name : option string;
  type : option ChannelType;
  baseUrl : option string;
  testMethod : option TestMethod;
  testModel : option (option string);
  proxyId : option (option string);
  loadBalanceStrategy : option LoadBalanceStrategy;
  enabled : option bool;
  createdAt : option Z;
  updatedAt : option Z
}.
End ChannelPatch.

Definition createChannel (channel : Channel.t) (db : Database) : Database :=
  {| channels := channels db ++ [channel];
     apiKeys := apiKeys db; logs := logs db; settings := settings db |}.

(** [{ ...old, ...updates, updatedAt: Date.now() }] for a channel. *)
Definition applyChannelPatch (old : Channel.t) (updates : ChannelPatch.t) (now : Z)
  : Channel.t :=
  let pick {T} (o : option T) (d : T) : T := match o with Some v => v | None => d end in
  {| Channel.id := pick (ChannelPatch.id updates) (Channel.id old);
     Channel.name := pick (ChannelPatch.name updates) (Channel.name old);
     Channel.type := pick (ChannelPatch.type updates) (Channel.type old);
     Channel.baseUrl := pick (ChannelPatch.baseUrl updates) (Channel.baseUrl old);
     Channel.testMethod := pick (ChannelPatch.testMethod updates) (Channel.testMethod old);
     Channel.testModel := pick (ChannelPatch.testModel updates) (Channel.testModel old);
     Channel.proxyId := pick (ChannelPatch.proxyId updates) (Channel.proxyId old);
     Channel.loadBalanceStrategy :=
       pick (ChannelPatch.loadBalanceStrategy updates) (Channel.loadBalanceStrategy old);
     Channel.enabled := pick (ChannelPatch.enabled updates) (Channel.enabled old);
     Channel.createdAt := pick (ChannelPatch.createdAt updates) (Channel.createdAt old);
     Channel.updatedAt := now |}.

Definition updateChannel (now : Z) (id : string) (updates : ChannelPatch.t) (db : Database)
  : option Channel.t * Database :=
  let index := findIndex (fun c => String.eqb (Channel.id c) id) (channels db) in
  if index =? -1 then (None, db)
  else
    match at_index (channels db) index with
    | None => (None, db) (* not reached: [index] is in range *)
    | Some old =>
        let channel := applyChannelPatch old updates now in
        (Some channel,
         {| channels := <[Z.to_nat index := channel]> (channels db);
            apiKeys := apiKeys db; logs := logs db; settings := settings db |})
    end.

Definition createApiKey (key : ApiKey.t) (db : Database) : Database :=
  {| channels := channels db; apiKeys := apiKeys db ++ [key];
     logs := logs db; settings := settings db |}.

Definition createApiKeys (keys : list ApiKey.t) (db : Database) : Database :=
  {| channels := channels db; apiKeys := apiKeys db ++ keys;
     logs := logs db; settings := settings db |}.

Definition deleteApiKey (id : string) (db : Database) : bool * Database :=
  let index := findIndex (fun k => String.eqb (ApiKey.id k) id) (apiKeys db) in
  if index =? -1 then (false, db)
  else
    (true,
     {| channels := channels db;
        apiKeys := removeAt (Z.to_nat index) (apiKeys db);
        logs := logs db; settings := settings db |}).

(** [l.slice(start, end)] of JavaScript for integer arguments: a negative
    argument counts from the end, and both are clamped to the array. *)
Definition js_slice {A} (l : list A) (start stop : Z) : list A :=
  let len := Z.of_nat (length l) in
  let k := if start <? 0 then Z.max (len + start) 0 else Z.min start len in
  let final := if stop <? 0 then Z.max (len + stop) 0 else Z.min stop len in
  firstn (Z.to_nat (final - k)) (skipn (Z.to_nat k) l).

(** The [filters] argument of [getLogs]. *)
Module LogFilters.
Record t := mk {
  channelId : option string;
  status : option Z;
  startTime : option Z;
  endTime : option Z;
  limit : option Z;
  offset : option Z
}.
End LogFilters.

(** Truthiness of an optional string and of an optional number. *)
Definition truthy_string (o : option string) : option string :=
  match o with
  | Some s => if String.eqb s EmptyString then None else Some s
  | None => None
  end.

Definition truthy_number (o : option Z) : option Z :=
  match o with
  | Some n => if n =? 0 then None else Some n
  | None => None
  end.

(** The four [if (filters?.x) logs = logs.filter(...)] steps of [getLogs]. *)
Definition logMatches (filters : option LogFilters.t) (l : RequestLog.t) : bool :=
  match filters with
  | None => true
  | Some f =>
      match truthy_string (LogFilters.channelId f) with
      | Some c => String.eqb (RequestLog.channelId l) c
      | None => true
      end
      && match truthy_number (LogFilters.status f) with
         | Some s => RequestLog.status l =? s
         | None => true
         end
      && match truthy_number (LogFilters.startTime f) with
         | Some t => t <=? RequestLog.timestamp l
         | None => true
         end
      && match truthy_number (LogFilters.endTime f) with
         | Some t => RequestLog.timestamp l <=? t
         | None => true
         end
  end.

(** Whether one of the four filter steps runs, which replaces [logs] by a
    copy. *)
Definition anyLogFilter (filters : option LogFilters.t) : bool :=
  match filters with
  | None => false
  | Some f =>
      match truthy_string (LogFilters.channelId f) with Some _ => true | None => false end
      || match truthy_number (LogFilters.status f) with Some _ => true | None => false end
      || match truthy_number (LogFilters.startTime f) with Some _ => true | None => false end
      || match truthy_number (LogFilters.endTime f) with Some _ => true | None => false end
  end.

Definition filterLogs (filters : option LogFilters.t) (logs : list RequestLog.t)
  : list RequestLog.t :=
  match filters with
  | None => logs
  | Some f =>
      let logs :=
        match truthy_string (LogFilters.channelId f) with
        | Some c => List.filter (fun l => String.eqb (RequestLog.channelId l) c) logs
        | None => logs
        end in
      let logs :=
        match truthy_number (LogFilters.status f) with
        | Some s => List.filter (fun l => RequestLog.status l =? s) logs
        | None => logs
        end in
      let logs :=
        match truthy_number (LogFilters.startTime f) with
        | Some t => List.filter (fun l => t <=? RequestLog.timestamp l) logs
        | None => logs
        end in
      match truthy_number (LogFilters.endTime f) with
      | Some t => List.filter (fun l => RequestLog.timestamp l <=? t) logs
      | None => logs
      end
  end.

(** [getLogs]: the result [(logs, total)] and the store afterwards.
    [logs.sort] sorts in place; when no filter step has run, [logs] is the
    array of the store, which is then left sorted. *)
Definition getLogs (filters : option LogFilters.t) (db : Database)
  : (list RequestLog.t * Z) * Database :=
  let filtered := filterLogs filters (logs db) in
  let sorted :=
    sort (fun a b => RequestLog.timestamp b - RequestLog.timestamp a) filtered in
  let total := Z.of_nat (length sorted) in
  let offset :=
    match truthy_number (match filters with Some f => LogFilters.offset f | None => None end) with
    | Some o => o
    | None => 0
    end in
  let limit :=
    match truthy_number (match filters with Some f => LogFilters.limit f | None => None end) with
    | Some n => n
    | None => 50
    end in
  ((js_slice sorted offset (offset + limit), total),
   if anyLogFilter filters then db
   else {| channels := channels db; apiKeys := apiKeys db; logs := sorted;
           settings := settings db |}).

(** ** Proxies and tokens: the other two collections of the document *)

Inductive ProxyType := Socks5 | Socks5h | Http | Https.

Module Proxy.
Record t := mk {
  id : string;
  name : string;
  type : ProxyType;
  host : string;
  port : Z;
  username : option string;
  password : option string;
  enabled : bool;
  createdAt : Z;
  updatedAt : Z
}.
End Proxy.

(** The whole document: [core] holds the collections of [Database]. *)
Record Store := {
  core : Database;
  proxies : list Proxy.t;
  tokens : list Token.t
}.

Definition getProxyById (id : string) (st : Store) : option Proxy.t :=
  find (fun p => String.eqb (Proxy.id p) id) (proxies st).

Definition createProxy (proxy : Proxy.t) (st : Store) : Store :=
  {| core := core st; proxies := proxies st ++ [proxy]; tokens := tokens st |}.

(** [channel.proxyId = undefined] on a channel that references [id]. *)
Definition clearProxy (id : string) (c : Channel.t) : Channel.t :=
  match Channel.proxyId c with
  | Some p =>
      if String.eqb p id then
        {| Channel.id := Channel.id c; Channel.name := Channel.name c;
           Channel.type := Channel.type c; Channel.baseUrl := Channel.baseUrl c;
           Channel.testMethod := Channel.testMethod c;
           Channel.testModel := Channel.testModel c; Channel.proxyId := None;
           Channel.loadBalanceStrategy := Channel.loadBalanceStrategy c;
           Channel.enabled := Channel.enabled c; Channel.createdAt := Channel.createdAt c;
           Channel.updatedAt := Channel.updatedAt c |}
      else c
  | None => c
  end.

Definition deleteProxy (id : string) (st : Store) : bool * Store :=
  let index := findIndex (fun p => String.eqb (Proxy.id p) id) (proxies st) in
  if index =? -1 then (false, st)
  else
    (true,
     {| core :=
          {| channels := map (clearProxy id) (channels (core st));
             apiKeys := apiKeys (core st); logs := logs (core st);
             settings := settings (core st) |};
        proxies := removeAt (Z.to_nat index) (proxies st);
        tokens := tokens st |}).

(** [Partial<Token>], with the properties treated as in [ApiKeyPatch]. *)
Module TokenPatch.
Record t := mk {
  id : option string;
  name : option string;
  token : option string;
  allowedChannels : option (list string);
  rateLimit : option (option Z);
  enabled : option bool;
  createdAt : option Z;
  lastUsed : option (option Z)
}.
End TokenPatch.

Definition getTokenByValue (token : string) (st : Store) : option Token.t :=
  find (fun t => String.eqb (Token.token t) token) (tokens st).

Definition createToken (token : Token.t) (st : Store) : Store :=
  {| core := core st; proxies := proxies st; tokens := tokens st ++ [token] |}.

(** [{ ...old, ...updates }]: [updateToken] does not stamp the token. *)
Definition applyTokenPatch (old : Token.t) (updates : TokenPatch.t) : Token.t :=
  let pick {T} (o : option T) (d : T) : T := match o with Some v => v | None => d end in
  {| Token.id := pick (TokenPatch.id updates) (Token.id old);
     Token.name := pick (TokenPatch.name updates) (Token.name old);
     Token.token := pick (TokenPatch.token updates) (Token.token old);
     Token.allowedChannels :=
       pick (TokenPatch.allowedChannels updates) (Token.allowedChannels old);
     Token.rateLimit := pick (TokenPatch.rateLimit updates) (Token.rateLimit old);
     Token.enabled := pick (TokenPatch.enabled updates) (Token.enabled old);
     Token.createdAt := pick (TokenPatch.createdAt updates) (Token.createdAt old);
     Token.lastUsed := pick (TokenPatch.lastUsed updates) (Token.lastUsed old) |}.

Definition updateToken (id : string) (updates : TokenPatch.t) (st : Store)
  : option Token.t * Store :=
  let index := findIndex (fun t => String.eqb (Token.id t) id) (tokens st) in
  if index =? -1 then (None, st)
  else
    match at_index (tokens st) index with
    | None => (None, st) (* not reached: [index] is in range *)
    | Some old =>
        let token := applyTokenPatch old updates in
        (Some token,
         {| core := core st; proxies := proxies st;
            tokens := <[Z.to_nat index := token]> (tokens st) |})
    end.

Definition deleteToken (id : string) (st : Store) : bool * Store :=
  let index := findIndex (fun t => String.eqb (Token.id t) id) (tokens st) in
  if index =? -1 then (false, st)
  else
    (true,
     {| core := core st; proxies := proxies st;
        tokens := removeAt (Z.to_nat index) (tokens st) |}).

(** ** authMiddleware *)

(** What [authMiddleware] does with the request: answer with a status and
    the body [{ error }], or attach the token and call [next()]. *)
Inductive AuthResult :=
  | AuthReply (status : Z) (error : string)
  | AuthNext (tokenInfo : Token.t).

(** [s.slice(n)] of a string for [n >= 0]. *)
Fixpoint string_drop (n : nat) (s : string) : string :=
  match n, s with
  | O, _ => s
  | S n', String _ s' => string_drop n' s'
  | S _, EmptyString => EmptyString
  end.

(** [authorization] is [req.headers.authorization].  [updateToken] is called
    without [await]; its change of the store is made before it first
    suspends, so it is part of this step.  The token attached to the
    request is the object found, not the updated copy. *)
Definition authMiddleware (now : Z) (authorization : option string) (st : Store)
  : AuthResult * Store :=
  match truthy_string authorization with
  | None => (AuthReply 401 "Missing or invalid Authorization header", st)
  | Some authHeader =>
      if negb (String.prefix "Bearer " authHeader) then
        (AuthReply 401 "Missing or invalid Authorization header", st)
      else
        let tokenValue := string_drop 7 authHeader in
        match getTokenByValue tokenValue st with
        | None => (AuthReply 401 "Invalid token", st)
        | Some token =>
            if negb (Token.enabled token) then (AuthReply 403 "Token is disabled", st)
            else
              (AuthNext token,
               snd (updateToken (Token.id token)
                      {| TokenPatch.id := None; TokenPatch.token := None;
                         TokenPatch.createdAt := None;
                         TokenPatch.name := None; TokenPatch.allowedChannels := None;
                         TokenPatch.rateLimit := None; TokenPatch.enabled := None;
                         TokenPatch.lastUsed := Some (Some now) |}
                      st))
        end
  end.

(** ** Invariants of the store used in the statements below *)

(** Every key references a stored channel. *)
Definition keys_reference_channels (db : Database) : Prop :=
  forall k, In k (apiKeys db) ->
    exists c, In c (channels db) /\ Channel.id c = ApiKey.channelId k.

(** A key with every field but [updatedAt] taken from [k]. *)
Definition touched (k : ApiKey.t) (now : Z) : ApiKey.t :=
  {| ApiKey.id := ApiKey.id k; ApiKey.channelId := ApiKey.channelId k;
     ApiKey.key := ApiKey.key k; ApiKey.alias := ApiKey.alias k;
     ApiKey.status := ApiKey.status k; ApiKey.priority := ApiKey.priority k;
     ApiKey.weight := ApiKey.weight k; ApiKey.balance := ApiKey.balance k;
     ApiKey.lastChecked := ApiKey.lastChecked k; ApiKey.lastUsed := ApiKey.lastUsed k;
     ApiKey.errorCount := ApiKey.errorCount k;
     ApiKey.totalRequests := ApiKey.totalRequests k;
     ApiKey.createdAt := ApiKey.createdAt k; ApiKey.updatedAt := now |}.

Definition sampleProxy (id : string) : Proxy.t :=
  {| Proxy.id := id; Proxy.name := "sample"; Proxy.type := Socks5;
     Proxy.host := "127.0.0.1"; Proxy.port := 1080; Proxy.username := None;
     Proxy.password := None; Proxy.enabled := true; Proxy.createdAt := 0;
     Proxy.updatedAt := 0 |}.

Definition withProxy (proxyId : option string) (c : Channel.t) : Channel.t :=
  {| Channel.id := Channel.id c; Channel.name := Channel.name c;
     Channel.type := Channel.type c; Channel.baseUrl := Channel.baseUrl c;
     Channel.testMethod := Channel.testMethod c; Channel.testModel := Channel.testModel c;
     Channel.proxyId := proxyId;
     Channel.loadBalanceStrategy := Channel.loadBalanceStrategy c;
     Channel.enabled := Channel.enabled c; Channel.createdAt := Channel.createdAt c;
     Channel.updatedAt := Channel.updatedAt c |}.

Definition sampleStore (channels : list Channel.t) (proxies : list Proxy.t)
    (tokens : list Token.t) : Store :=
  {| core := {| channels := channels; apiKeys := []; logs := [];
                settings := settings defaultData |};
     proxies := proxies; tokens := tokens |}.

Definition withLastUsed (lastUsed : option Z) (t : Token.t) : Token.t :=
  {| Token.id := Token.id t; Token.name := Token.name t; Token.token := Token.token t;
     Token.allowedChannels := Token.allowedChannels t;
     Token.rateLimit := Token.rateLimit t; Token.enabled := Token.enabled t;
     Token.createdAt := Token.createdAt t; Token.lastUsed := lastUsed |}.

Definition withEnabled (enabled : bool) (t : Token.t) : Token.t :=
  {| Token.id := Token.id t; Token.name := Token.name t; Token.token := Token.token t;
     Token.allowedChannels := Token.allowedChannels t;
     Token.rateLimit := Token.rateLimit t; Token.enabled := enabled;
     Token.createdAt := Token.createdAt t; Token.lastUsed := Token.lastUsed t |}.

(** ** Repeated selections and weights, for the statements on the load balancer *)

(** [count] successive calls of [selectKey] on the same keys, each with the
    draw [draw]. *)
Fixpoint selectMany (draw : Q) (keys : list ApiKey.t) (strategy : LoadBalanceStrategy)
    (channelId : string) (count : nat) (rr : Cursors) : list Selection * Cursors :=
  match count with
  | O => ([], rr)
  | S count' =>
      let (sel, rr1) := selectKey draw keys strategy channelId rr in
      let (sels, rr2) := selectMany draw keys strategy channelId count' rr1 in
      (sel :: sels, rr2)
  end.

(** The cursor that [roundRobinSelect] reads for a channel. *)
Definition cursorOf (rr : Cursors) (channelId : string) : Z :=
  match rr !! channelId with Some i => i | None => 0 end.

Definition isActive (k : ApiKey.t) : bool := ApiKeyStatus_eqb (ApiKey.status k) Active.

(** The sum of the weights of a list of keys. *)
Fixpoint sumWeights (keys : list ApiKey.t) : Z :=
  match keys with
  | [] => 0
  | k :: rest => ApiKey.weight k + sumWeights rest
  end.

(** ** The arithmetic of [weightedSelect] in double precision

    A finite double is an integer multiple of 2^-1074 whose significand has
    at most 53 bits.  The doubles below are counted in these multiples:
    [units] of them make 1, and an integer weight [w] is [w * units]. *)
Definition units : Z := 2 ^ 1074.

(** A positive double: a significand below 2^53 and an exponent. *)
Definition representable (n : Z) : Prop :=
  exists m k, n = m * 2 ^ k /\ 0 < m < 2 ^ 53 /\ 0 <= k.

(** The rounding of IEEE 754 to the nearest double, ties to the even
    significand, of a value that is a whole number of multiples of 2^-1074
    (overflow, which the small numbers here do not reach, apart): the
    significand keeps 53 bits. *)
Definition roundToDouble (n : Z) : Z :=
  let a := Z.abs n in
  let shift := Z.log2 a - 52 in
  if shift <=? 0 then n
  else
    let q := a / 2 ^ shift in
    let r := a mod 2 ^ shift in
    let half := 2 ^ (shift - 1) in
    let m :=
      if r <? half then q
      else if half <? r then q + 1
      else if Z.even q then q else q + 1 in
    Z.sgn n * (m * 2 ^ shift).

(** The [for] loop of [weightedSelect] as the code computes it: [random] is
    a double, and [random -= key.weight] rounds the difference. *)
Fixpoint weightedScanD (random : Z) (keys : list ApiKey.t) : option ApiKey.t :=
  match keys with
  | [] => None
  | key :: rest =>
      let random' := roundToDouble (random - ApiKey.weight key * units) in
      if random' <=? 0 then Some key else weightedScanD random' rest
  end.

(** [weightedSelect] as the code computes it.  [draw] is the double that
    [Math.random()] returns, in multiples of 2^-1074; the two products are
    rounded, and [Math.floor] is the integer quotient by [units]. *)
Definition weightedSelectD (draw : Z) (keys : list ApiKey.t) : Selection :=
  let totalWeight := reduce (fun sum k => sum + ApiKey.weight k) 0 keys in
  let n := Z.of_nat (length keys) in
  if totalWeight =? 0 then
    selection_of (at_index keys (roundToDouble (draw * n) / units))
  else
    match weightedScanD (roundToDouble (draw * totalWeight)) keys with
    | Some key => SelKey key
    | None => selection_of (at_index keys (n - 1))
    end.

(** The weighted branch of [selectKey] with that arithmetic. *)
Definition selectKeyWeightedD (draw : Z) (keys : list ApiKey.t) : Selection :=
  let activeKeys := List.filter (fun k => ApiKeyStatus_eqb (ApiKey.status k) Active) keys in
  if (length activeKeys =? 0)%nat then SelNull
  else weightedSelectD draw activeKeys.

(** The double nearest to 8/11, which is above 8/11. *)
Definition draw_8_11 : Z := 3275345183542179 * 2 ^ 1022.

(** ** Eligibility of a channel for a model and a token, for the statements
    on the router *)

(** The channel is enabled, its type is one of the types of the model, and
    it is allowed: the list of allowed channels is empty or names it. *)
Definition eligible (model : string) (allowedChannels : list string) (c : Channel.t)
  : Prop :=
  Channel.enabled c = true /\
  In (Channel.type c) (matchingTypes model) /\
  (allowedChannels = [] \/ In (Channel.id c) allowedChannels).

(** No active key of the store belongs to the channel. *)
Definition no_active_key (db : Database) (c : Channel.t) : Prop :=
  forall k, In k (apiKeys db) -> ApiKey.channelId k = Channel.id c ->
            ApiKey.status k <> Active.

(** ** GET /v1/models *)

(** One element of the [data] array of the answer. *)
Module ModelInfo.
Record t := mk {
  id : string;
  object : string;
  created : Z;
  owned_by : ChannelType
}.
End ModelInfo.

(** The body of the inner loop of [GET /v1/models]: push [model] for the
    first channel that supports it.  [clock model] is the [Date.now()] read
    when [model] is pushed; [Math.floor(x / 1000)] is the floor division of
    [Z]. *)
Definition pushModel (clock : string -> Z) (model : string) (types : list ChannelType)
    (state : list ModelInfo.t * gset string) (channel : Channel.t)
  : list ModelInfo.t * gset string :=
  let (models, modelSet) := state in
  if existsb (ChannelType_eqb (Channel.type channel)) types then
    if bool_decide (model ∈ modelSet) then state
    else
      (models ++ [ {| ModelInfo.id := model;
                      ModelInfo.object := "model";
                      ModelInfo.created := clock model / 1000;
                      ModelInfo.owned_by := Channel.type channel |} ],
       {[model]} ∪ modelSet)
  else state.

(** The channels that the token may use: [GET /v1/models] filters the
    enabled channels by the token's list when the list is not empty. *)
Definition eligibleChannelsOf (tokenInfo : Token.t) (db : Database) : list Channel.t :=
  let channels := List.filter Channel.enabled (getChannels db) in
  if (0 <? length (Token.allowedChannels tokenInfo))%nat then
    List.filter
      (fun c => existsb (String.eqb (Channel.id c)) (Token.allowedChannels tokenInfo))
      channels
  else channels.

(** The handler of [GET /v1/models]: the [data] array of its answer. *)
Definition listModels (clock : string -> Z) (tokenInfo : Token.t) (db : Database)
  : list ModelInfo.t :=
  let eligibleChannels := eligibleChannelsOf tokenInfo db in
  fst
    (fold_left
       (fun state (entry : string * list ChannelType) =>
          fold_left (pushModel clock (fst entry) (snd entry)) eligibleChannels state)
       MODEL_CHANNEL_MAP ([], ∅)).

(** ** Orders and pages, for the statements on [getLogs] *)

(** Newest first: every log is at least as recent as all the logs after it. *)
Definition newest_first (l : list RequestLog.t) : Prop :=
  StronglySorted (fun a b => RequestLog.timestamp b <= RequestLog.timestamp a) l.

(** [filters?.offset || 0] and [filters?.limit || 50]. *)
Definition effectiveOffset (filters : option LogFilters.t) : Z :=
  match truthy_number (match filters with Some f => LogFilters.offset f | None => None end) with
  | Some o => o
  | None => 0
  end.

Definition effectiveLimit (filters : option LogFilters.t) : Z :=
  match truthy_number (match filters with Some f => LogFilters.limit f | None => None end) with
  | Some n => n
  | None => 50
  end.

(** ** checkKeys *)

(** The [for] loop of [checkKeys] from index [i] on, with [results] as
    collected so far.  [probe] is [checkKey(channel, _)] with what the probe
    of each key meets; the probes of one batch run together and
    [Promise.all] keeps their order; the pause between batches is not part
    of the embedding.  Each round moves [i] by 5, so [fuel] rounds are
    enough for an array of [fuel] keys. *)
Fixpoint checkKeysFrom (fuel : nat) (probe : ApiKey.t -> KeyCheckResult.t)
    (keys : list ApiKey.t) (i : Z) (results : list KeyCheckResult.t)
  : list KeyCheckResult.t :=
  match fuel with
  | O => results
  | S fuel' =>
      if i <? Z.of_nat (length keys) then
        let batchSize := 5 in
        let batch := js_slice keys i (i + batchSize) in
        let batchResults := map probe batch in
        checkKeysFrom fuel' probe keys (i + batchSize) (results ++ batchResults)
      else results
  end.

Definition checkKeys (env : Channel.t -> ApiKey.t -> ProbeEnv) (channel : Channel.t)
    (keys : list ApiKey.t) : list KeyCheckResult.t :=
  checkKeysFrom (length keys)
    (fun key =>
       checkKey (checkedTime (env channel key)) channel key (upstream (env channel key)))
    keys 0 [].

(** ** The scheduler run, for the statements below *)

(** The stored key after the probe of [key] in the loop of [channel]. *)
Definition probedKey (env : Channel.t -> ApiKey.t -> ProbeEnv) (channel : Channel.t)
    (key : ApiKey.t) : ApiKey.t :=
  keyAfterProbe key
    (checkKey (checkedTime (env channel key)) channel key (upstream (env channel key)))
    (updateTime (env channel key)).

(** What a run over the channels [chs] leaves of the key [k]: the probed key
    when a channel of [chs] has the id that [k] references and [k] is not
    disabled, and [k] itself otherwise. *)
Definition afterRun (env : Channel.t -> ApiKey.t -> ProbeEnv) (chs : list Channel.t)
    (k : ApiKey.t) : ApiKey.t :=
  match find (fun ch => String.eqb (ApiKey.channelId k) (Channel.id ch)) chs with
  | Some ch =>
      if ApiKeyStatus_eqb (ApiKey.status k) Disabled then k else probedKey env ch k
  | None => k
  end.

(** ** The retention in force and the message of a failed relay *)

(** [settings.maxLogsRetention || 604800000]. *)
Definition retentionOf (db : Database) : Z :=
  if maxLogsRetention (settings db) =? 0 then 604800000 else maxLogsRetention (settings db).

(** The message that the [catch] block of the relay records. *)
Definition relayErrorMessage (e : Thrown) : string :=
  match e with ErrorObject m => m | NotAnError => "Unknown error" end.

(** ** packages/server/src/routes/keys.ts *)

Definition maskKey (key : string) : string :=
  if (String.length key <=? 8)%nat then "****"
  else
    String.substring 0 4 key +:+ "****"
    +:+ String.substring (String.length key - 4) 4 key.

(** [{ ...key, key: maskKey(key.key) }]. *)
Definition masked (k : ApiKey.t) : ApiKey.t :=
  {| ApiKey.id := ApiKey.id k; ApiKey.channelId := ApiKey.channelId k;
     ApiKey.key := maskKey (ApiKey.key k); ApiKey.alias := ApiKey.alias k;
     ApiKey.status := ApiKey.status k; ApiKey.priority := ApiKey.priority k;
     ApiKey.weight := ApiKey.weight k; ApiKey.balance := ApiKey.balance k;
     ApiKey.lastChecked := ApiKey.lastChecked k; ApiKey.lastUsed := ApiKey.lastUsed k;
     ApiKey.errorCount := ApiKey.errorCount k;
     ApiKey.totalRequests := ApiKey.totalRequests k;
     ApiKey.createdAt := ApiKey.createdAt k; ApiKey.updatedAt := ApiKey.updatedAt k |}.

(** The body of [POST /api/keys], with its fields of the types that
    [createKeySchema] asks for. *)
Module CreateKeyBody.
Record t := mk {
  channelId : string;
  key : string;
  alias : option string;
  priority : option Z;
  weight : option Z
}.
End CreateKeyBody.

(** The body of [PUT /api/keys/:id]. *)
Module UpdateKeyBody.
Record t := mk {
  alias : option string;
  priority : option Z;
  weight : option Z;
  status : option ApiKeyStatus
}.
End UpdateKeyBody.

(** [z.number().int().min(1).max(100).optional()]. *)
Definition optional_1_100 (o : option Z) : bool :=
  match o with
  | None => true
  | Some n => (1 <=? n) && (n <=? 100)
  end.

Definition createKeySchema (body : CreateKeyBody.t) : bool :=
  (1 <=? String.length (CreateKeyBody.channelId body))%nat
  && (1 <=? String.length (CreateKeyBody.key body))%nat
  && optional_1_100 (CreateKeyBody.priority body)
  && optional_1_100 (CreateKeyBody.weight body).

Definition updateKeySchema (body : UpdateKeyBody.t) : bool :=
  optional_1_100 (UpdateKeyBody.priority body)
  && optional_1_100 (UpdateKeyBody.weight body).

(** The answer of a key route: [{ success: true, data }] with a status, an
    error message with a status, or 400 with the errors of the schema. *)
Inductive KeyReply :=
  | KeyData (status : Z) (data : ApiKey.t)
  | KeyError (status : Z) (error : string)
  | KeyInvalid.

(** [POST /api/keys]; [newId] is the value of [nanoid()]. *)
Definition postKey (now : Z) (newId : string) (body : CreateKeyBody.t) (db : Database)
  : KeyReply * Database :=
  if negb (createKeySchema body) then (KeyInvalid, db)
  else
    match getChannelById (CreateKeyBody.channelId body) db with
    | None => (KeyError 400 "Channel not found", db)
    | Some _ =>
        let key :=
          {| ApiKey.id := newId;
             ApiKey.channelId := CreateKeyBody.channelId body;
             ApiKey.key := CreateKeyBody.key body;
             ApiKey.alias := CreateKeyBody.alias body;
             ApiKey.status := Unknown;
             ApiKey.priority :=
               match truthy_number (CreateKeyBody.priority body) with
               | Some p => p
               | None => 50
               end;
             ApiKey.weight :=
               match truthy_number (CreateKeyBody.weight body) with
               | Some w => w
               | None => 50
               end;
             ApiKey.balance := None; ApiKey.lastChecked := None;
             ApiKey.lastUsed := None; ApiKey.errorCount := 0;
             ApiKey.totalRequests := 0; ApiKey.createdAt := now;
             ApiKey.updatedAt := now |} in
        (KeyData 201 (masked key), createApiKey key db)
    end.

(** [PUT /api/keys/:id]: the parsed body is the patch. *)
Definition putKey (now : Z) (id : string) (body : UpdateKeyBody.t) (db : Database)
  : KeyReply * Database :=
  if negb (updateKeySchema body) then (KeyInvalid, db)
  else
    match
      updateApiKey now id
        {| ApiKeyPatch.id := None; ApiKeyPatch.channelId := None;
           ApiKeyPatch.key := None; ApiKeyPatch.createdAt := None;
           ApiKeyPatch.updatedAt := None;
           ApiKeyPatch.alias := option_map Some (UpdateKeyBody.alias body);
           ApiKeyPatch.status := UpdateKeyBody.status body;
           ApiKeyPatch.priority := UpdateKeyBody.priority body;
           ApiKeyPatch.weight := UpdateKeyBody.weight body;
           ApiKeyPatch.balance := None; ApiKeyPatch.lastChecked := None;
           ApiKeyPatch.lastUsed := None; ApiKeyPatch.errorCount := None;
           ApiKeyPatch.totalRequests := None |}
        db
    with
    | (None, db') => (KeyError 404 "Key not found", db')
    | (Some key, db') => (KeyData 200 (masked key), db')
    end.

(** Every stored key has its priority and its weight in 1..100. *)
Definition keys_in_range (db : Database) : Prop :=
  forall k, In k (apiKeys db) ->
    1 <= ApiKey.priority k <= 100 /\ 1 <= ApiKey.weight k <= 100.

(** ** packages/server/src/routes/stats.ts *)

Module ChannelStats.
Record t := mk {
  channelId : string;
  channelName : string;
  channelType : ChannelType;
  totalKeys : Z;
  activeKeys : Z;
  totalRequests : Z;
  successRate : Q
}.
End ChannelStats.

Module DashboardStats.
Record t := mk {
  totalKeys : Z;
  activeKeys : Z;
  invalidKeys : Z;
  quotaExceededKeys : Z;
  disabledKeys : Z;
  totalChannels : Z;
  activeChannels : Z;
  totalRequests24h : Z;
  successRate24h : Q;
  channelStats : list ChannelStats.t
}.
End DashboardStats.

(** [l.filter(p).length]. *)
Definition countOf {A} (p : A -> bool) (l : list A) : Z :=
  Z.of_nat (length (List.filter p l)).

(** [l.status >= 200 && l.status < 400]. *)
Definition isSuccess (l : RequestLog.t) : bool :=
  (200 <=? RequestLog.status l) && (RequestLog.status l <? 400).

(** [total > 0 ? success / total : 0], the quotient as an exact rational
    (the code computes the double nearest to it). *)
Definition rate (success total : Z) : Q :=
  if 0 <? total then success # Z.to_pos total else 0.

Definition hasStatus (s : ApiKeyStatus) (k : ApiKey.t) : bool :=
  ApiKeyStatus_eqb (ApiKey.status k) s.

(** The function given to [channels.map] in [GET /api/stats]. *)
Definition channelStatsOf (keys : list ApiKey.t) (recentLogs : list RequestLog.t)
  (c : Channel.t) : ChannelStats.t :=
  let channelKeys :=
    List.filter (fun k => String.eqb (ApiKey.channelId k) (Channel.id c)) keys in
  let channelLogs :=
    List.filter (fun l => String.eqb (RequestLog.channelId l) (Channel.id c)) recentLogs in
  let channelSuccess := countOf isSuccess channelLogs in
  {| ChannelStats.channelId := Channel.id c;
     ChannelStats.channelName := Channel.name c;
     ChannelStats.channelType := Channel.type c;
     ChannelStats.totalKeys := Z.of_nat (length channelKeys);
     ChannelStats.activeKeys := countOf (hasStatus Active) channelKeys;
     ChannelStats.totalRequests := Z.of_nat (length channelLogs);
     ChannelStats.successRate := rate channelSuccess (Z.of_nat (length channelLogs)) |}.

(** [GET /api/stats]; [now] is the value of [Date.now()]. *)
Definition getStats (now : Z) (db : Database) : DashboardStats.t :=
  let channels := getChannels db in
  let keys := getApiKeys None db in
  let last24h := now - 86400000 in
  let recentLogs := getLogsForStats last24h db in
  let totalRequests24h := Z.of_nat (length recentLogs) in
  let successRequests24h := countOf isSuccess recentLogs in
  {| DashboardStats.totalKeys := Z.of_nat (length keys);
     DashboardStats.activeKeys := countOf (hasStatus Active) keys;
     DashboardStats.invalidKeys := countOf (hasStatus Invalid) keys;
     DashboardStats.quotaExceededKeys := countOf (hasStatus QuotaExceeded) keys;
     DashboardStats.disabledKeys := countOf (hasStatus Disabled) keys;
     DashboardStats.totalChannels := Z.of_nat (length channels);
     DashboardStats.activeChannels := countOf Channel.enabled channels;
     DashboardStats.totalRequests24h := totalRequests24h;
     DashboardStats.successRate24h := rate successRequests24h totalRequests24h;
     DashboardStats.channelStats := map (channelStatsOf keys recentLogs) channels |}.

Definition sumZ (l : list Z) : Z := fold_right Z.add 0 l.

(** * Properties *)

(** ** Arrays *)

Section ArrayFacts.
Context {A : Type} (p : A -> bool).

Lemma findIndex_ge (l : list A) : -1 <= findIndex p l.
Proof.
  induction l as [|x l IH]; simpl; [lia|].
  destruct (p x); [lia|].
  destruct (Z.eqb_spec (findIndex p l) (-1)); lia.
Qed.

(** [findIndex] misses exactly when no element satisfies [p]. *)
Lemma findIndex_none (l : list A) :
  findIndex p l = -1 <-> Forall (fun x => p x = false) l.
Proof.
  induction l as [|x l IH]; simpl.
  - split; [constructor | reflexivity].
  - destruct (p x) eqn:Hx.
    + split; [lia | intros H; inversion H; congruence].
    + pose proof (findIndex_ge l).
      destruct (Z.eqb_spec (findIndex p l) (-1)) as [E|E].
      * split; [intros _; constructor; tauto | reflexivity].
      * split; [lia | intros H'; inversion H'; tauto].
Qed.

(** A hit splits the array at the first element that satisfies [p]. *)
Lemma findIndex_split (l : list A) :
  findIndex p l <> -1 ->
  exists pre x post,
    l = pre ++ x :: post /\ p x = true /\
    Forall (fun y => p y = false) pre /\
    findIndex p l = Z.of_nat (length pre).
Proof.
  induction l as [|x l IH]; simpl; [congruence|].
  destruct (p x) eqn:Hx.
  - intros _. exists [], x, l. repeat split; auto.
  - destruct (Z.eqb_spec (findIndex p l) (-1)) as [E|E]; [congruence|].
    intros _. destruct (IH E) as (pre & y & post & -> & Hy & Hpre & Hi).
    exists (x :: pre), y, post. repeat split; auto.
    rewrite Hi. simpl length. lia.
Qed.

Lemma removeAt_middle (pre : list A) x post :
  removeAt (length pre) (pre ++ x :: post) = pre ++ post.
Proof. induction pre as [|y pre IH]; simpl; [reflexivity | now rewrite IH]. Qed.

Lemma find_none (l : list A) :
  Forall (fun x => p x = false) l -> find p l = None.
Proof. induction 1 as [|x l Hx _ IH]; simpl; [reflexivity | now rewrite Hx]. Qed.

Lemma find_middle (pre : list A) x post :
  Forall (fun y => p y = false) pre -> p x = true ->
  find p (pre ++ x :: post) = Some x.
Proof.
  induction 1 as [|y pre Hy _ IH]; simpl; intros Hx.
  - now rewrite Hx.
  - rewrite Hy. auto.
Qed.

Lemma find_some (l : list A) x :
  find p l = Some x ->
  exists pre post,
    l = pre ++ x :: post /\ p x = true /\ Forall (fun y => p y = false) pre.
Proof.
  induction l as [|y l IH]; simpl; [discriminate|].
  destruct (p y) eqn:Hy.
  - intros [= ->]. exists [], l. auto.
  - intros H. destruct (IH H) as (pre & post & -> & Hx & Hpre).
    exists (y :: pre), post. auto.
Qed.

Lemma findIndex_middle (pre : list A) x post :
  Forall (fun y => p y = false) pre -> p x = true ->
  findIndex p (pre ++ x :: post) = Z.of_nat (length pre).
Proof.
  induction 1 as [|y pre Hy _ IH]; simpl; intros Hx.
  - now rewrite Hx.
  - rewrite Hy, (IH Hx).
    destruct (Z.eqb_spec (Z.of_nat (length pre)) (-1)); lia.
Qed.
End ArrayFacts.

Lemma find_none_iff {A} (p : A -> bool) (l : list A) :
  find p l = None <-> Forall (fun x => p x = false) l.
Proof.
  split; [|apply find_none].
  induction l as [|x l IH]; simpl; [constructor|].
  destruct (p x) eqn:Hx; [discriminate|]. intros H. constructor; auto.
Qed.

Lemma at_index_middle {A} (pre : list A) x post :
  at_index (pre ++ x :: post) (Z.of_nat (length pre)) = Some x.
Proof.
  unfold at_index.
  destruct (Z.ltb_spec (Z.of_nat (length pre)) 0); [lia|].
  rewrite Nat2Z.id. apply list_lookup_middle. reflexivity.
Qed.

Lemma insert_middle {A} (pre : list A) x y post :
  <[length pre := y]> (pre ++ x :: post) = pre ++ y :: post.
Proof.
  induction pre as [|z pre IH]; simpl; [reflexivity|]. now rewrite IH.
Qed.

(** ** The store: cascading delete *)

Lemma filter_filter_other (id other : string) (l : list ApiKey.t) :
  other <> id ->
  List.filter (fun k => String.eqb (ApiKey.channelId k) other)
    (List.filter (fun k => negb (String.eqb (ApiKey.channelId k) id)) l)
  = List.filter (fun k => String.eqb (ApiKey.channelId k) other) l.
Proof.
  intros Hne. induction l as [|k l IH]; simpl; [reflexivity|].
  destruct (String.eqb_spec (ApiKey.channelId k) id) as [E|E]; simpl.
  - destruct (String.eqb_spec (ApiKey.channelId k) other); [congruence | exact IH].
  - now rewrite IH.
Qed.

(** C1: for a channel id present in the store, [deleteChannel] succeeds and
    returns one new document in which the first channel with that id is
    gone (no channel with the id remains when ids are unique), in which no
    key references the id, and in which the keys of every other channel are
    the same as before, in the same order. *)
Theorem deleteChannel_cascades (db : Database) (id : string) :
  (exists c, In c (channels db) /\ Channel.id c = id) ->
  exists db',
    deleteChannel id db = (true, db') /\
    (exists pre c post,
        channels db = pre ++ c :: post /\ Channel.id c = id /\
        Forall (fun c' => Channel.id c' <> id) pre /\
        channels db' = pre ++ post) /\
    (NoDup (map Channel.id (channels db)) -> getChannelById id db' = None) /\
    (forall k, In k (apiKeys db') -> ApiKey.channelId k <> id) /\
    (forall k, In k (apiKeys db) -> ApiKey.channelId k <> id -> In k (apiKeys db')) /\
    (forall other, other <> id ->
        List.filter (fun k => String.eqb (ApiKey.channelId k) other) (apiKeys db')
        = List.filter (fun k => String.eqb (ApiKey.channelId k) other) (apiKeys db)) /\
    logs db' = logs db /\ settings db' = settings db.
Proof.
  intros (c0 & Hin & Hid).
  set (p := fun c => String.eqb (Channel.id c) id).
  assert (Hhit : findIndex p (channels db) <> -1).
  { intros E. apply findIndex_none in E. rewrite Forall_forall in E.
    specialize (E c0 Hin). unfold p in E. rewrite Hid, String.eqb_refl in E.
    discriminate. }
  destruct (findIndex_split p _ Hhit) as (pre & c & post & Hsplit & Hc & Hpre & Hi).
  unfold deleteChannel. fold p.
  destruct (Z.eqb_spec (findIndex p (channels db)) (-1)) as [E|_]; [contradiction|].
  eexists. split; [reflexivity|]. simpl.
  rewrite Hi, Nat2Z.id, Hsplit, removeAt_middle.
  assert (Hc' : Channel.id c = id) by (now apply String.eqb_eq).
  assert (Hpre' : Forall (fun c' => Channel.id c' <> id) pre).
  { eapply Forall_impl; [|exact Hpre]. intros a Ha. now apply String.eqb_neq. }
  split; [exists pre, c, post; auto|].
  split.
  { intros Hnd. unfold getChannelById. simpl. apply find_none.
    rewrite map_app in Hnd. simpl in Hnd.
    apply NoDup_remove_2 in Hnd.
    apply Forall_forall. intros a Ha.
    apply String.eqb_neq. intros Ea. apply Hnd.
    rewrite <- map_app, Hc', <- Ea. now apply in_map. }
  split.
  { intros k Hk. apply filter_In in Hk. destruct Hk as [_ Hk].
    apply negb_true_iff in Hk. now apply String.eqb_neq. }
  split.
  { intros k Hk Hne. apply filter_In. split; [exact Hk|].
    apply negb_true_iff. now apply String.eqb_neq. }
  split; [intros other Hne; now apply filter_filter_other|].
  split; reflexivity.
Qed.

Lemma deleteChannel_cascades_witness :
  let db :=
    {| channels := [sampleChannel "c1" OpenAI TestChat; sampleChannel "c2" Gemini TestChat];
       apiKeys := [sampleKey "k1" "c1" Active 50 0; sampleKey "k2" "c2" Active 50 0];
       logs := []; settings := settings defaultData |} in
  exists db', deleteChannel "c1" db = (true, db') /\
    apiKeys db' = [sampleKey "k2" "c2" Active 50 0].
Proof.
  intros db.
  destruct (deleteChannel_cascades db "c1") as (db' & Hdel & _).
  - exists (sampleChannel "c1" OpenAI TestChat). split; [simpl; auto | reflexivity].
  - exists db'. split; [exact Hdel|].
    vm_compute in Hdel. injection Hdel as <-. reflexivity.
Defined.

(** ** The store: logs *)

Lemma filter_sublist {A} (p : A -> bool) (l : list A) : sublist (List.filter p l) l.
Proof.
  induction l as [|x l IH]; simpl; [constructor|].
  destruct (p x); now constructor.
Qed.

(** C7, as the specification states it, fails: after two appends in time
    order, [getLogsForStats] returns the two logs oldest first.  And with
    the setting [maxLogsRetention] at 0 the retention in force is
    604800000, so a log that is 1 ms old is retained. *)
Lemma getLogsForStats_not_descending :
  let db := addLog 2000 (sampleLog "l2" 2000) (addLog 1000 (sampleLog "l1" 1000) defaultData) in
  let db0 :=
    {| channels := []; apiKeys := []; logs := [];
       settings := {| checkInterval := 3600000; maxLogsRetention := 0 |} |} in
  (getLogsForStats 0 db = [sampleLog "l1" 1000; sampleLog "l2" 2000] /\
   ~ Sorted (fun a b => RequestLog.timestamp b <= RequestLog.timestamp a)
       (getLogsForStats 0 db)) /\
  (logs (addLog 1000 (sampleLog "l0" 999) db0) = [sampleLog "l0" 999] /\
   ~ 1000 - RequestLog.timestamp (sampleLog "l0" 999) <= maxLogsRetention (settings db0)).
Proof.
  intros db db0. split; split; try reflexivity.
  - change (getLogsForStats 0 db) with [sampleLog "l1" 1000; sampleLog "l2" 2000].
    intros H. inversion H as [|? ? _ Hd]; subst.
    inversion Hd as [|? ? Hle]; subst. simpl in Hle. lia.
  - simpl. lia.
Qed.

(** C7, amended: [getLogsForStats t] returns exactly the stored logs with
    [timestamp >= t], in the order in which the store holds them; [addLog]
    returns one document that holds the appended log and the earlier ones
    except those with [timestamp <= now - retention], so every retained log
    is younger than the retention, where the retention is the setting
    [maxLogsRetention], or 604800000 when the setting is 0. *)
Theorem logs_since_and_retention (db : Database) (t now : Z) (log : RequestLog.t) :
  let retention :=
    if maxLogsRetention (settings db) =? 0 then 604800000
    else maxLogsRetention (settings db) in
  (forall l, In l (getLogsForStats t db) <->
             In l (logs db) /\ t <= RequestLog.timestamp l) /\
  sublist (getLogsForStats t db) (logs db) /\
  (forall l, In l (logs (addLog now log db)) <->
             (In l (logs db) \/ l = log) /\ now - retention < RequestLog.timestamp l) /\
  (forall l, In l (logs (addLog now log db)) ->
             now - RequestLog.timestamp l <= retention) /\
  sublist (logs (addLog now log db)) (logs db ++ [log]) /\
  channels (addLog now log db) = channels db /\
  apiKeys (addLog now log db) = apiKeys db.
Proof.
  intros retention.
  assert (Hadd : forall l, In l (logs (addLog now log db)) <->
             (In l (logs db) \/ l = log) /\ now - retention < RequestLog.timestamp l).
  { intros l. unfold addLog. simpl. fold retention.
    rewrite filter_In, in_app_iff, Z.ltb_lt. simpl. intuition. }
  split.
  { intros l. unfold getLogsForStats. rewrite filter_In, Z.leb_le. tauto. }
  split; [apply filter_sublist|].
  split; [exact Hadd|].
  split; [intros l Hl; apply Hadd in Hl; lia|].
  split; [apply filter_sublist|].
  split; reflexivity.
Qed.

(** ** The rate limiter *)

(** C10: the token validator accepts [rateLimit = 0], and for a token with
    that limit the middleware calls [next()] and leaves its table as it was,
    for one request and for any sequence of requests, exactly as for the
    same token without a limit. *)
Theorem rateLimit_zero_is_unlimited (token : Token.t) (rc : RequestCounts) :
  Token.rateLimit token = Some 0 ->
  let unlimited :=
    {| Token.id := Token.id token; Token.name := Token.name token;
       Token.token := Token.token token;
       Token.allowedChannels := Token.allowedChannels token;
       Token.rateLimit := None; Token.enabled := Token.enabled token;
       Token.createdAt := Token.createdAt token;
       Token.lastUsed := Token.lastUsed token |} in
  createTokenSchema_rateLimit (Token.rateLimit token) = true /\
  (forall now, rateLimitMiddleware now (Some token) rc = (Next, rc)) /\
  (forall now, rateLimitMiddleware now (Some token) rc
               = rateLimitMiddleware now (Some unlimited) rc) /\
  (forall times,
      serveAll (Some token) times rc = (map (fun _ => Next) times, rc)) /\
  (forall times, serveAll (Some token) times rc = serveAll (Some unlimited) times rc).
Proof.
  intros H unlimited.
  assert (H1 : forall now rc', rateLimitMiddleware now (Some token) rc' = (Next, rc')).
  { intros now rc'. unfold rateLimitMiddleware. now rewrite H. }
  assert (H2 : forall now rc', rateLimitMiddleware now (Some unlimited) rc' = (Next, rc')).
  { reflexivity. }
  assert (H3 : forall tk, (forall now rc', rateLimitMiddleware now (Some tk) rc' = (Next, rc')) ->
             forall times, serveAll (Some tk) times rc = (map (fun _ => Next) times, rc)).
  { intros tk Htk times. induction times as [|now times IH]; [reflexivity|].
    cbn [serveAll map]. now rewrite Htk, IH. }
  split; [now rewrite H|].
  split; [intros; apply H1|].
  split; [intros; now rewrite H1, H2|].
  split; [now apply H3|].
  intros times. now rewrite (H3 token H1), (H3 unlimited H2).
Qed.

Lemma rateLimit_zero_is_unlimited_witness :
  serveAll (Some (sampleToken "t1" (Some 0))) [0; 1; 2] ∅ = ([Next; Next; Next], ∅).
Proof.
  exact (proj1 (proj2 (proj2 (proj2
    (rateLimit_zero_is_unlimited (sampleToken "t1" (Some 0)) ∅ eq_refl)))) [0; 1; 2]).
Defined.

(** Inside an open window the record counts every request and the request
    passes while the count stays within the limit. *)
Lemma rateLimit_in_window (token : Token.t) (limit now : Z) (rc : RequestCounts)
    (r : RateRecord) :
  Token.rateLimit token = Some limit -> limit <> 0 ->
  rc !! Token.id token = Some r -> now < resetAt r ->
  rateLimitMiddleware now (Some token) rc
  = (if limit <? count r + 1 then rateLimited else Next,
     <[Token.id token := {| count := count r + 1; resetAt := resetAt r |}]> rc).
Proof.
  intros Hl Hz Hr Hnow. unfold rateLimitMiddleware. rewrite Hl, Hr.
  destruct (Z.eqb_spec limit 0); [contradiction|].
  destruct (Z.leb_spec (resetAt r) now); [lia|].
  simpl. destruct (limit <? count r + 1); reflexivity.
Qed.

(** A request that finds no record, or a record whose window is over,
    starts a window of its own. *)
Lemma rateLimit_fresh_window (token : Token.t) (limit now : Z) (rc : RequestCounts) :
  Token.rateLimit token = Some limit -> limit <> 0 ->
  match rc !! Token.id token with None => True | Some r => resetAt r <= now end ->
  rateLimitMiddleware now (Some token) rc
  = (if limit <? 1 then rateLimited else Next,
     <[Token.id token := {| count := 1; resetAt := now + 60000 |}]> rc).
Proof.
  intros Hl Hz Hr. unfold rateLimitMiddleware. rewrite Hl.
  destruct (Z.eqb_spec limit 0); [contradiction|].
  destruct (rc !! Token.id token) as [r|].
  - destruct (Z.leb_spec (resetAt r) now); [|lia].
    cbn [count resetAt]. rewrite Z.add_0_l. destruct (limit <? 1); reflexivity.
  - cbn [count resetAt]. rewrite Z.add_0_l. destruct (limit <? 1); reflexivity.
Qed.

(** The requests of one token leave the records of the other tokens alone. *)
Lemma rateLimit_other_token (now : Z) (tokenInfo : option Token.t) (rc : RequestCounts)
    (id : string) :
  match tokenInfo with Some t => Token.id t <> id | None => True end ->
  snd (rateLimitMiddleware now tokenInfo rc) !! id = rc !! id.
Proof.
  intros Hid. unfold rateLimitMiddleware.
  destruct tokenInfo as [t|]; [|reflexivity].
  destruct (Token.rateLimit t) as [limit|]; [|reflexivity].
  destruct (limit =? 0); [reflexivity|].
  match goal with |- context [if ?c then _ else _] => destruct c end;
    cbn [snd]; now rewrite lookup_insert_ne.
Qed.

Lemma serveAll_in_window (token : Token.t) (limit : Z) (times : list Z) :
  Token.rateLimit token = Some limit -> limit <> 0 ->
  forall (rc : RequestCounts) (r : RateRecord),
    rc !! Token.id token = Some r ->
    Forall (fun t => t < resetAt r) times ->
    exists rc',
      serveAll (Some token) times rc
      = (imap (fun i _ => if limit <? count r + 1 + Z.of_nat i then rateLimited else Next)
           times, rc') /\
      rc' !! Token.id token
      = Some {| count := count r + Z.of_nat (length times); resetAt := resetAt r |}.
Proof.
  intros Hl Hz. induction times as [|now times IH]; intros rc r Hr Hall.
  - exists rc. simpl. split; [reflexivity|].
    rewrite Hr. destruct r. simpl. do 2 f_equal. lia.
  - inversion Hall as [|? ? Hnow Hall']; subst.
    cbn [serveAll]. rewrite (rateLimit_in_window token limit now rc r Hl Hz Hr Hnow).
    set (r1 := {| count := count r + 1; resetAt := resetAt r |}).
    destruct (IH (<[Token.id token := r1]> rc) r1) as (rc' & Hrun & Hrc').
    { apply lookup_insert_eq. }
    { exact Hall'. }
    rewrite Hrun. exists rc'. split.
    + simpl. rewrite Z.add_0_r. f_equal. f_equal.
      apply imap_ext. intros i x _. simpl.
      replace (count r + 1 + Z.of_nat (S i)) with (count r + 1 + 1 + Z.of_nat i) by lia.
      reflexivity.
    + rewrite Hrc'. simpl. do 2 f_equal. lia.
Qed.

(** C4: for a token with a positive [rateLimit], take a request at [t0] that
    finds no record or a finished window, followed by any requests before
    [t0 + 60000].  The request at [t0] opens the window; of the requests of
    the window, numbered from 1, the first [rateLimit] pass and every later
    one is answered 429 with the rate-limit body; and the next request at or
    after [t0 + 60000] passes and opens a window of its own. *)
Theorem rateLimit_window (token : Token.t) (limit t0 : Z) (times : list Z)
    (rc : RequestCounts) :
  Token.rateLimit token = Some limit -> 0 < limit ->
  match rc !! Token.id token with None => True | Some r => resetAt r <= t0 end ->
  Forall (fun t => t < t0 + 60000) times ->
  exists results rc',
    serveAll (Some token) (t0 :: times) rc = (results, rc') /\
    length results = S (length times) /\
    (forall (i : nat) res, results !! i = Some res ->
        (Z.of_nat i < limit -> res = Next) /\
        (limit <= Z.of_nat i -> res = rateLimited)) /\
    rc' !! Token.id token
    = Some {| count := 1 + Z.of_nat (length times); resetAt := t0 + 60000 |} /\
    (forall now, t0 + 60000 <= now ->
        rateLimitMiddleware now (Some token) rc'
        = (Next, <[Token.id token := {| count := 1; resetAt := now + 60000 |}]> rc')).
Proof.
  intros Hl Hpos Hopen Hall.
  assert (Hz : limit <> 0) by lia.
  cbn [serveAll].
  rewrite (rateLimit_fresh_window token limit t0 rc Hl Hz Hopen).
  set (r1 := {| count := 1; resetAt := t0 + 60000 |}).
  destruct (serveAll_in_window token limit times Hl Hz
              (<[Token.id token := r1]> rc) r1) as (rc' & Hrun & Hrc').
  { apply lookup_insert_eq. }
  { exact Hall. }
  rewrite Hrun. eexists _, rc'. split; [reflexivity|].
  split; [simpl; now rewrite length_imap|].
  split.
  { intros [|i] res.
    - simpl. intros [= <-]. destruct (Z.ltb_spec limit 1); [lia|]. split; [reflexivity | lia].
    - simpl. rewrite list_lookup_imap. destruct (times !! i); simpl; [|discriminate].
      intros [= <-]. cbn [count r1].
      destruct (Z.ltb_spec limit (1 + 1 + Z.of_nat i)); split; intros; try reflexivity; lia. }
  split; [exact Hrc'|].
  intros now Hnow.
  rewrite (rateLimit_fresh_window token limit now rc' Hl Hz).
  - destruct (Z.ltb_spec limit 1); [lia | reflexivity].
  - rewrite Hrc'. simpl. lia.
Qed.

Lemma rateLimit_window_witness :
  exists rc',
    serveAll (Some (sampleToken "t1" (Some 2))) [0; 1000; 2000] ∅
    = ([Next; Next; rateLimited], rc') /\
    rc' !! "t1" = Some {| count := 3; resetAt := 60000 |}.
Proof.
  destruct (rateLimit_window (sampleToken "t1" (Some 2)) 2 0 [1000; 2000] ∅)
    as (results & rc' & Hrun & _ & _ & Hrc' & _).
  - reflexivity.
  - lia.
  - rewrite lookup_empty. exact I.
  - repeat constructor.
  - exists rc'. split; [|exact Hrc'].
    rewrite Hrun. f_equal.
    assert (E : fst (serveAll (Some (sampleToken "t1" (Some 2))) [0; 1000; 2000] ∅)
                = [Next; Next; rateLimited]) by (vm_compute; reflexivity).
    rewrite Hrun in E. exact E.
Defined.

(** ** The load balancer *)

Lemma at_index_in_range {A} (l : list A) (i : Z) :
  0 <= i < Z.of_nat (length l) -> exists x, at_index l i = Some x /\ In x l.
Proof.
  intros Hi. unfold at_index. destruct (Z.ltb_spec i 0); [lia|].
  destruct (lookup_lt_is_Some_2 l (Z.to_nat i)) as [x Hx]; [lia|].
  exists x. split; [exact Hx|].
  apply list_elem_of_In. eapply list_elem_of_lookup_2. exact Hx.
Qed.

Section Reduce.
Context {A : Type} (m : A -> Z).

(** [l.reduce((best, k) => m(k) < m(best) ? k : best, init)] keeps [init]
    unless an element of [l] is strictly smaller, and otherwise returns
    the first element of [l] that attains the minimum. *)
Lemma reduce_min (l : list A) : forall init,
  let r := reduce (fun best k => if m k <? m best then k else best) init l in
  (r = init /\ Forall (fun k => m init <= m k) l) \/
  (exists pre post,
      l = pre ++ r :: post /\ m r < m init /\
      Forall (fun k => m r < m k) pre /\ Forall (fun k => m r <= m k) post).
Proof.
  unfold reduce. induction l as [|x l IH]; intros init; simpl.
  - left. split; [reflexivity | constructor].
  - destruct (Z.ltb_spec (m x) (m init)) as [Hlt|Hge].
    + right. destruct (IH x) as [[Hr Hall] | (pre & post & Hl & Hm & Hpre & Hpost)].
      * exists [], l. rewrite Hr. simpl. repeat split; auto.
      * exists (x :: pre), post. rewrite Hl at 1. simpl.
        repeat split; auto; try lia.
    + destruct (IH init) as [[Hr Hall] | (pre & post & Hl & Hm & Hpre & Hpost)].
      * left. split; [exact Hr | constructor; [lia | exact Hall]].
      * right. exists (x :: pre), post. rewrite Hl at 1. simpl.
        repeat split; auto. constructor; [lia | exact Hpre].
Qed.

(** Started from the head of the array, as both callers do, the reduction
    returns the first element with the least measure. *)
Lemma reduce_min_head (k0 : A) (rest : list A) :
  let r := reduce (fun best k => if m k <? m best then k else best) k0 (k0 :: rest) in
  exists pre post,
    k0 :: rest = pre ++ r :: post /\
    Forall (fun k => m r < m k) pre /\ Forall (fun k => m r <= m k) post.
Proof.
  unfold reduce. simpl. rewrite Z.ltb_irrefl.
  destruct (reduce_min rest k0) as [[Hr Hall] | (pre & post & Hl & Hm & Hpre & Hpost)];
    unfold reduce in *.
  - exists [], rest. rewrite Hr. simpl. repeat split; auto.
  - exists (k0 :: pre), post. rewrite Hl at 1. simpl. repeat split; auto.
Qed.
End Reduce.

Lemma filter_split {A} (p : A -> bool) (l : list A) : forall pre' x post',
  List.filter p l = pre' ++ x :: post' ->
  exists pre post,
    l = pre ++ x :: post /\ List.filter p pre = pre' /\ List.filter p post = post'.
Proof.
  induction l as [|y l IH]; intros pre' x post' H; simpl in H.
  - destruct pre'; discriminate.
  - destruct (p y) eqn:Hy.
    + destruct pre' as [|z pre']; simpl in H.
      * injection H as <- Hl. exists [], l. auto.
      * injection H as <- Hl. destruct (IH _ _ _ Hl) as (pre & post & -> & Hp & Hq).
        exists (y :: pre), post. simpl. rewrite Hy, Hp. auto.
    + destruct (IH _ _ _ H) as (pre & post & -> & Hp & Hq).
      exists (y :: pre), post. simpl. rewrite Hy. auto.
Qed.

Section PrioritySort.
Let cmp := fun a b : ApiKey.t => ApiKey.priority b - ApiKey.priority a.

Lemma sort_insert_In (x y : ApiKey.t) (l : list ApiKey.t) :
  In y (sort_insert cmp x l) <-> y = x \/ In y l.
Proof.
  induction l as [|z l IH]; simpl.
  - intuition.
  - destruct (0 <? cmp x z); simpl; rewrite ?IH; intuition.
Qed.

Lemma sort_In (y : ApiKey.t) (l : list ApiKey.t) : In y (sort cmp l) <-> In y l.
Proof.
  induction l as [|x l IH]; simpl; [tauto|].
  rewrite sort_insert_In, IH. intuition.
Qed.

(** Stability: the keys of one priority keep their order. *)
Lemma sort_insert_filter (v : Z) (x : ApiKey.t) (l : list ApiKey.t) :
  List.filter (fun k => ApiKey.priority k =? v) (sort_insert cmp x l)
  = if ApiKey.priority x =? v then x :: List.filter (fun k => ApiKey.priority k =? v) l
    else List.filter (fun k => ApiKey.priority k =? v) l.
Proof.
  induction l as [|y l IH]; simpl; [reflexivity|].
  destruct (Z.ltb_spec 0 (cmp x y)) as [Hgt|Hle]; simpl.
  - rewrite IH. unfold cmp in Hgt.
    destruct (Z.eqb_spec (ApiKey.priority x) v), (Z.eqb_spec (ApiKey.priority y) v);
      try reflexivity; lia.
  - reflexivity.
Qed.

Lemma sort_filter (v : Z) (l : list ApiKey.t) :
  List.filter (fun k => ApiKey.priority k =? v) (sort cmp l)
  = List.filter (fun k => ApiKey.priority k =? v) l.
Proof.
  induction l as [|x l IH]; simpl; [reflexivity|].
  now rewrite sort_insert_filter, IH.
Qed.

(** The head of the sorted array has the highest priority. *)
Lemma sort_head_max (l : list ApiKey.t) :
  match sort cmp l with
  | [] => l = []
  | s0 :: _ => forall k, In k l -> ApiKey.priority k <= ApiKey.priority s0
  end.
Proof.
  induction l as [|x l IH]; simpl; [reflexivity|].
  destruct (sort cmp l) as [|y s] eqn:Hs; simpl.
  - subst l. intros k [<-|[]]. lia.
  - destruct (Z.ltb_spec 0 (cmp x y)) as [Hgt|Hle]; unfold cmp in *;
      intros k [<-|Hk]; try lia; specialize (IH k Hk); lia.
Qed.
End PrioritySort.

(** [prioritySelect] on a non-empty array returns a key of the array with
    the highest priority, with the least error count among the keys of that
    priority, and no earlier key of the array has both. *)
Lemma prioritySelect_first_best (keys : list ApiKey.t) :
  keys <> [] ->
  exists pre k post,
    prioritySelect keys = SelKey k /\
    keys = pre ++ k :: post /\
    (forall k', In k' keys -> ApiKey.priority k' <= ApiKey.priority k) /\
    (forall k', In k' keys -> ApiKey.priority k' = ApiKey.priority k ->
                ApiKey.errorCount k <= ApiKey.errorCount k') /\
    (forall k', In k' pre ->
                ~ (ApiKey.priority k' = ApiKey.priority k /\
                   ApiKey.errorCount k' = ApiKey.errorCount k)).
Proof.
  intros Hne. unfold prioritySelect.
  pose proof (sort_head_max keys) as Hmax.
  destruct (sort _ keys) as [|s0 s] eqn:Hs; [contradiction|].
  assert (Hs0 : In s0 keys) by (apply sort_In; rewrite Hs; now left).
  rewrite <- Hs, sort_filter.
  set (top := List.filter (fun k => ApiKey.priority k =? ApiKey.priority s0) keys).
  assert (Htop : In s0 top) by (apply filter_In; split; [exact Hs0 | apply Z.eqb_refl]).
  destruct top as [|t0 rest] eqn:Etop; [destruct Htop|].
  destruct (reduce_min_head ApiKey.errorCount t0 rest) as (pre' & post' & Hsplit & Hpre & Hpost).
  set (r := reduce _ t0 (t0 :: rest)) in *.
  assert (Hr : In r top).
  { rewrite Etop, Hsplit. apply in_elt. }
  apply filter_In in Hr. destruct Hr as [Hrk Hrp]. apply Z.eqb_eq in Hrp.
  rewrite Hsplit in Etop.
  destruct (filter_split _ _ _ _ _ Etop) as (pre & post & Hkeys & Hfpre & Hfpost).
  exists pre, r, post. split; [reflexivity|]. split; [exact Hkeys|].
  assert (Hbest : forall k', In k' keys -> ApiKey.priority k' = ApiKey.priority r ->
                             ApiKey.errorCount r <= ApiKey.errorCount k').
  { intros k' Hk' Hp.
    assert (Hin : In k' (pre' ++ r :: post')).
    { rewrite <- Etop. apply filter_In. split; [exact Hk'|]. apply Z.eqb_eq. lia. }
    apply in_app_or in Hin. rewrite Forall_forall in Hpre, Hpost.
    destruct Hin as [Hin|[<-|Hin]]; [specialize (Hpre _ Hin) | | specialize (Hpost _ Hin)]; lia. }
  split; [intros k' Hk'; rewrite Hrp; now apply Hmax|].
  split; [exact Hbest|].
  intros k' Hk' [Hp He].
  assert (Hin : In k' pre').
  { rewrite <- Hfpre. apply filter_In. split; [exact Hk'|]. apply Z.eqb_eq. lia. }
  rewrite Forall_forall in Hpre. specialize (Hpre _ Hin). lia.
Qed.

Lemma filter_all {A} (p : A -> bool) (l : list A) :
  Forall (fun x => p x = true) l -> List.filter p l = l.
Proof. induction 1 as [|x l Hx _ IH]; simpl; [reflexivity | now rewrite Hx, IH]. Qed.

Lemma active_eqb (k : ApiKey.t) :
  ApiKeyStatus_eqb (ApiKey.status k) Active = true <-> ApiKey.status k = Active.
Proof. destruct (ApiKey.status k); simpl; split; congruence. Qed.

(** C5: under the priority strategy, for a non-empty array of active keys,
    [selectKey] returns a key of the array whose priority is the highest,
    whose error count is the least among the keys of that priority, and
    which comes before every other key with that priority and that error
    count; the cursors are left alone. *)
Theorem selectKey_priority (draw : Q) (keys : list ApiKey.t) (channelId : string)
    (rr : Cursors) :
  keys <> [] ->
  Forall (fun k => ApiKey.status k = Active) keys ->
  exists pre k post,
    selectKey draw keys Priority channelId rr = (SelKey k, rr) /\
    keys = pre ++ k :: post /\
    (forall k', In k' keys -> ApiKey.priority k' <= ApiKey.priority k) /\
    (forall k', In k' keys -> ApiKey.priority k' = ApiKey.priority k ->
                ApiKey.errorCount k <= ApiKey.errorCount k') /\
    (forall k', In k' pre ->
                ~ (ApiKey.priority k' = ApiKey.priority k /\
                   ApiKey.errorCount k' = ApiKey.errorCount k)).
Proof.
  intros Hne Hact. unfold selectKey.
  rewrite filter_all by (eapply Forall_impl; [|exact Hact]; intros k; apply active_eqb).
  destruct keys as [|k0 keys']; [contradiction|].
  cbn [length Nat.eqb].
  destruct (prioritySelect_first_best (k0 :: keys') Hne) as (pre & k & post & Hsel & H).
  exists pre, k, post. rewrite Hsel. split; [reflexivity | exact H].
Qed.

(** The scenario of the specification: k1 (priority 80, 3 errors),
    k2 (priority 80, no error), k3 (priority 60, no error) gives k2. *)
Lemma selectKey_priority_witness :
  let k1 := sampleKey "k1" "X" Active 80 3 in
  let k2 := sampleKey "k2" "X" Active 80 0 in
  let k3 := sampleKey "k3" "X" Active 60 0 in
  selectKey 0 [k1; k2; k3] Priority "X" ∅ = (SelKey k2, ∅) /\
  exists pre k post,
    selectKey 0 [k1; k2; k3] Priority "X" ∅ = (SelKey k, ∅) /\
    [k1; k2; k3] = pre ++ k :: post.
Proof.
  intros k1 k2 k3. split; [vm_compute; reflexivity|].
  destruct (selectKey_priority 0 [k1; k2; k3] "X" ∅) as (pre & k & post & Hsel & Hkeys & _).
  - discriminate.
  - repeat constructor.
  - exists pre, k, post. split; assumption.
Defined.

Lemma cursors_ok_empty : cursors_ok ∅.
Proof. intros c i H. rewrite lookup_empty in H. discriminate. Qed.

Lemma cursors_ok_insert (rr : Cursors) (c : string) (i : Z) :
  cursors_ok rr -> 0 <= i -> cursors_ok (<[c := i]> rr).
Proof.
  intros Hrr Hi c' j. rewrite lookup_insert. case_decide.
  - intros [= <-]. exact Hi.
  - apply Hrr.
Qed.

Lemma roundRobinSelect_in (keys : list ApiKey.t) (channelId : string) (rr : Cursors) :
  keys <> [] -> cursors_ok rr ->
  exists k rr',
    roundRobinSelect keys channelId rr = (SelKey k, rr') /\ In k keys /\ cursors_ok rr'.
Proof.
  intros Hne Hrr. unfold roundRobinSelect.
  set (cur := match rr !! channelId with
              | Some i => if i =? 0 then 0 else i
              | None => 0
              end).
  assert (Hcur : 0 <= cur).
  { unfold cur. destruct (rr !! channelId) as [i|] eqn:Hi; [|lia].
    specialize (Hrr _ _ Hi). destruct (i =? 0); lia. }
  assert (Hn : 0 < Z.of_nat (length keys)).
  { destruct keys; [contradiction | simpl length; lia]. }
  destruct (Z.eqb_spec (Z.of_nat (length keys)) 0); [lia|].
  unfold js_rem.
  destruct (at_index_in_range keys (Z.rem cur (Z.of_nat (length keys)))) as (k & Hk & Hin).
  { apply Z.rem_bound_pos; lia. }
  exists k. eexists. rewrite Hk. split; [reflexivity|]. split; [exact Hin|].
  apply cursors_ok_insert; [exact Hrr|]. apply Z.rem_bound_pos; lia.
Qed.

Lemma weightedScan_In (keys : list ApiKey.t) : forall random k,
  weightedScan random keys = Some k -> In k keys.
Proof.
  induction keys as [|x keys IH]; intros random k; simpl; [discriminate|].
  destruct (Qle_bool _ 0).
  - intros [= <-]. now left.
  - intros H. right. eapply IH. exact H.
Qed.

(** [Math.floor(Math.random() * n)] is an index of an array of length [n]. *)
Lemma random_index_in_range (draw : Q) (n : Z) :
  (0 <= draw)%Q -> (draw < 1)%Q -> 0 < n -> 0 <= Qfloor (draw * inject_Z n)%Q < n.
Proof.
  intros H0 H1 Hn.
  assert (Hn' : (0 < inject_Z n)%Q) by (unfold Qlt; simpl; lia).
  split.
  - change 0 with (Qfloor (inject_Z 0)) at 1. apply Qfloor_resp_le.
    apply Qmult_le_0_compat; [exact H0 | now apply Qlt_le_weak].
  - rewrite Zlt_Qlt. eapply Qle_lt_trans; [apply Qfloor_le|].
    eapply Qlt_le_trans; [apply Qmult_lt_compat_r; [exact Hn' | exact H1]|].
    rewrite Qmult_1_l. apply Qle_refl.
Qed.

Lemma weightedSelect_in (draw : Q) (keys : list ApiKey.t) :
  keys <> [] -> (0 <= draw)%Q -> (draw < 1)%Q ->
  exists k, weightedSelect draw keys = SelKey k /\ In k keys.
Proof.
  intros Hne H0 H1. unfold weightedSelect.
  assert (Hn : 0 < Z.of_nat (length keys)).
  { destruct keys; [contradiction | simpl length; lia]. }
  destruct (_ =? 0).
  - destruct (at_index_in_range keys (Qfloor (draw * inject_Z (Z.of_nat (length keys)))%Q))
      as (k & Hk & Hin).
    { now apply random_index_in_range. }
    exists k. now rewrite Hk.
  - destruct (weightedScan _ keys) as [k|] eqn:Hscan.
    + exists k. split; [reflexivity|]. eapply weightedScan_In. exact Hscan.
    + destruct (at_index_in_range keys (Z.of_nat (length keys) - 1)) as (k & Hk & Hin);
        [lia|].
      exists k. now rewrite Hk.
Qed.

Lemma leastUsedSelect_in (keys : list ApiKey.t) :
  keys <> [] -> exists k, leastUsedSelect keys = SelKey k /\ In k keys.
Proof.
  intros Hne. destruct keys as [|k0 rest]; [contradiction|]. unfold leastUsedSelect.
  destruct (reduce_min_head ApiKey.totalRequests k0 rest) as (pre & post & Hsplit & _).
  eexists. split; [reflexivity|]. rewrite Hsplit at 2. apply in_elt.
Qed.

(** C9: for every array of keys, every strategy and every channel id,
    with a draw in [0, 1) and cursors as the module keeps them, [selectKey]
    returns [null] or an active key of the array, never [undefined]; it
    returns [null] exactly when the array has no active key; and it leaves
    the cursors as the module keeps them. *)
Theorem selectKey_safe (draw : Q) (keys : list ApiKey.t) (strategy : LoadBalanceStrategy)
    (channelId : string) (rr : Cursors) :
  (0 <= draw)%Q -> (draw < 1)%Q -> cursors_ok rr ->
  exists sel rr',
    selectKey draw keys strategy channelId rr = (sel, rr') /\
    cursors_ok rr' /\
    (sel = SelNull <-> forall k, In k keys -> ApiKey.status k <> Active) /\
    (sel = SelNull \/
     exists k, sel = SelKey k /\ In k keys /\ ApiKey.status k = Active).
Proof.
  intros H0 H1 Hrr. unfold selectKey.
  set (activeKeys := List.filter (fun k => ApiKeyStatus_eqb (ApiKey.status k) Active) keys).
  assert (Hact : forall k, In k activeKeys <-> In k keys /\ ApiKey.status k = Active).
  { intros k. unfold activeKeys. rewrite filter_In, active_eqb. tauto. }
  destruct activeKeys as [|a0 rest] eqn:Eact.
  - exists SelNull, rr. simpl. split; [reflexivity|]. split; [exact Hrr|].
    split; [|now left]. split; [|reflexivity].
    intros _ k Hk Hs. apply (proj2 (Hact k)); auto.
  - cbn [length Nat.eqb].
    assert (Hne : a0 :: rest <> []) by discriminate.
    assert (Hsome : exists k rr',
               match strategy with
               | RoundRobin => roundRobinSelect (a0 :: rest) channelId rr
               | Weighted => (weightedSelect draw (a0 :: rest), rr)
               | Priority => (prioritySelect (a0 :: rest), rr)
               | LeastUsed => (leastUsedSelect (a0 :: rest), rr)
               end = (SelKey k, rr') /\ In k (a0 :: rest) /\ cursors_ok rr').
    { destruct strategy.
      - apply roundRobinSelect_in; assumption.
      - destruct (weightedSelect_in draw (a0 :: rest) Hne H0 H1) as (k & -> & Hin).
        exists k, rr. auto.
      - destruct (prioritySelect_first_best (a0 :: rest) Hne)
          as (pre & k & post & -> & Hsplit & _).
        exists k, rr. split; [reflexivity|]. split; [|exact Hrr].
        rewrite Hsplit. apply in_elt.
      - destruct (leastUsedSelect_in (a0 :: rest) Hne) as (k & -> & Hin).
        exists k, rr. auto. }
    destruct Hsome as (k & rr' & -> & Hin & Hrr').
    apply Hact in Hin. destruct Hin as [Hin Hs].
    exists (SelKey k), rr'. split; [reflexivity|]. split; [exact Hrr'|].
    split.
    + split; [discriminate|]. intros Hnone. exfalso. exact (Hnone k Hin Hs).
    + right. exists k. auto.
Qed.

(** The weighted strategy when every weight is 0: the draw picks an index. *)
Example weighted_all_zero :
  let k1 := withWeight 0 (sampleKey "k1" "X" Active 50 0) in
  let k2 := withWeight 0 (sampleKey "k2" "X" Active 50 0) in
  selectKey (1 # 2) [k1; k2] Weighted "X" ∅ = (SelKey k2, ∅) /\
  selectKey (1 # 3) [k1; k2] Weighted "X" ∅ = (SelKey k1, ∅).
Proof. split; vm_compute; reflexivity. Qed.

(** The weighted strategy when the scan ends without returning (weights
    below 0): the last key is returned. *)
Example weighted_scan_falls_through :
  let k1 := withWeight (-1) (sampleKey "k1" "X" Active 50 0) in
  let k2 := withWeight (-1) (sampleKey "k2" "X" Active 50 0) in
  weightedScan (0 * inject_Z (-2))%Q [k1; k2] = None /\
  selectKey 0 [k1; k2] Weighted "X" ∅ = (SelKey k2, ∅).
Proof. split; vm_compute; reflexivity. Qed.

(** A round-robin cursor left beyond the end of a shortened array, with an
    inactive key in front. *)
Lemma selectKey_safe_witness :
  let k1 := sampleKey "k1" "X" Active 50 0 in
  let k2 := sampleKey "k2" "X" Invalid 50 0 in
  let rr : Cursors := <["X" := 5]> ∅ in
  exists sel rr',
    selectKey (1 # 2) [k2; k1] RoundRobin "X" rr = (sel, rr') /\
    sel = SelKey k1 /\ cursors_ok rr'.
Proof.
  intros k1 k2 rr.
  destruct (selectKey_safe (1 # 2) [k2; k1] RoundRobin "X" rr)
    as (sel & rr' & Hsel & Hrr' & _ & _).
  - discriminate.
  - reflexivity.
  - apply cursors_ok_insert; [apply cursors_ok_empty | lia].
  - exists sel, rr'. split; [exact Hsel|]. split; [|exact Hrr'].
    assert (E : fst (selectKey (1 # 2) [k2; k1] RoundRobin "X" rr) = SelKey k1)
      by (vm_compute; reflexivity).
    rewrite Hsel in E. exact E.
Defined.

(** ** The key checker *)

(** C2, as the specification states it, fails twice.  A balance probe that
    is answered 200 with a body that is not JSON is reported invalid, not
    active; and a 500 whose body cannot be read is reported with the error
    "HTTP 500", without a colon and a body part. *)
Lemma checkKey_claimed_classes_fail :
  let channel := sampleChannel "c1" OpenAI TestBalance in
  let key := sampleKey "k1" "c1" Unknown 50 0 in
  let html :=
    {| res_status := 200; res_text := inr "<html></html>";
       res_json := inl (ErrorObject "Unexpected token < in JSON at position 0") |} in
  let broken :=
    {| res_status := 500; res_text := inl (ErrorObject "terminated");
       res_json := inl (ErrorObject "terminated") |} in
  (res_ok (res_status html) = true /\
   KeyCheckResult.status (checkKey 0 channel key (inr html)) = Invalid /\
   KeyCheckResult.status (checkKey 0 channel key (inr html)) <> Active) /\
  (KeyCheckResult.error (checkKey 0 channel key (inr broken)) = Some "HTTP 500" /\
   forall body,
     KeyCheckResult.error (checkKey 0 channel key (inr broken))
     <> Some ("HTTP 500: " +:+ String.substring 0 200 body)).
Proof.
  intros channel key html broken. repeat split; try discriminate.
Qed.

Lemma handleErrorResponse_spec (now : Z) (keyId : string) (res : HttpResponse) :
  let result := handleErrorResponse now keyId res in
  KeyCheckResult.keyId result = keyId /\
  KeyCheckResult.checkedAt result = now /\
  KeyCheckResult.balance result = None /\
  KeyCheckResult.status result
  = (if res_status res =? 429 then QuotaExceeded else Invalid) /\
  KeyCheckResult.error result
  = Some match res_text res with
         | inr body =>
             "HTTP " +:+ pretty (res_status res) +:+ ": " +:+ String.substring 0 200 body
         | inl _ => "HTTP " +:+ pretty (res_status res)
         end.
Proof.
  unfold handleErrorResponse. cbn [KeyCheckResult.keyId KeyCheckResult.checkedAt
    KeyCheckResult.balance KeyCheckResult.status KeyCheckResult.error].
  repeat split.
  destruct (Z.eqb_spec (res_status res) 401), (Z.eqb_spec (res_status res) 403),
    (Z.eqb_spec (res_status res) 429); simpl; try reflexivity; lia.
Qed.

Lemma res_ok_iff (status : Z) : res_ok status = true <-> 200 <= status <= 299.
Proof. unfold res_ok. rewrite andb_true_iff, !Z.leb_le. tauto. Qed.

(** C2, amended: [checkKey] reports one of active, invalid and
    quota_exceeded.  A request that throws gives invalid with the message of
    the exception.  A response with status 401 or 403 gives invalid, 429
    gives quota_exceeded, every other status outside 200..299 gives invalid;
    for all of these the error is "HTTP {code}: {first 200 characters of the
    body}", or "HTTP {code}" alone when the body cannot be read.  A status in
    200..299 gives active, except for the balance probe of an OpenAI or
    OpenAI-compatible channel whose body cannot be parsed as JSON, or is
    the JSON value [null] (reading [total_available] of it throws), which
    gives invalid with the message of the exception. *)
Theorem checkKey_classification (now : Z) (channel : Channel.t) (key : ApiKey.t)
    (up : Upstream) :
  let result := checkKey now channel key up in
  let balanceProbe :=
    match Channel.type channel, Channel.testMethod channel with
    | (OpenAI | OpenAICompatible), TestBalance => true
    | _, _ => false
    end in
  (KeyCheckResult.status result = Active \/
   KeyCheckResult.status result = Invalid \/
   KeyCheckResult.status result = QuotaExceeded) /\
  (forall e, up = inl e ->
     KeyCheckResult.status result = Invalid /\
     KeyCheckResult.error result = Some (caughtMessage e)) /\
  (forall res, up = inr res ->
     (res_status res = 401 \/ res_status res = 403 ->
      KeyCheckResult.status result = Invalid) /\
     (res_status res = 429 -> KeyCheckResult.status result = QuotaExceeded) /\
     (200 <= res_status res <= 299 ->
      match (if balanceProbe then res_json res else inr (JsonValue None)) with
      | inr (JsonValue b) =>
          KeyCheckResult.status result = Active /\
          KeyCheckResult.balance result = b /\
          KeyCheckResult.error result = None
      | inr JsonNull =>
          KeyCheckResult.status result = Invalid /\
          KeyCheckResult.balance result = None /\
          KeyCheckResult.error result
          = Some "Cannot read properties of null (reading 'total_available')"
      | inl e =>
          KeyCheckResult.status result = Invalid /\
          KeyCheckResult.balance result = None /\
          KeyCheckResult.error result = Some (caughtMessage e)
      end) /\
     (~ 200 <= res_status res <= 299 -> res_status res <> 429 ->
      KeyCheckResult.status result = Invalid) /\
     (~ 200 <= res_status res <= 299 ->
      KeyCheckResult.error result
      = Some match res_text res with
             | inr body =>
                 "HTTP " +:+ pretty (res_status res) +:+ ": "
                 +:+ String.substring 0 200 body
             | inl _ => "HTTP " +:+ pretty (res_status res)
             end)).
Proof.
  intros result balanceProbe.
  assert (Hshape :
    match up with
    | inl e => result = caught now (ApiKey.id key) e
    | inr res =>
        if res_ok (res_status res) then
          match (if balanceProbe then res_json res else inr (JsonValue None)) with
          | inr (JsonValue b) => result = activeResult now (ApiKey.id key) b
          | inr JsonNull => result = caught now (ApiKey.id key) nullPropertyError
          | inl e => result = caught now (ApiKey.id key) e
          end
        else result = handleErrorResponse now (ApiKey.id key) res
    end).
  { unfold result, balanceProbe, checkKey, checkOpenAI, checkAnthropic, checkGemini.
    destruct up as [e|res]; [destruct (Channel.type channel); reflexivity|].
    destruct (Channel.type channel), (Channel.testMethod channel);
      destruct (res_ok (res_status res)); try reflexivity;
      destruct (res_json res) as [?|[|?]]; reflexivity. }
  clearbody result.
  destruct up as [e|res].
  - subst result. split; [right; left; reflexivity|].
    split; [intros e' [= <-]; split; reflexivity|].
    intros res [=].
  - destruct (res_ok (res_status res)) eqn:Hok.
    + apply res_ok_iff in Hok.
      assert (Hcase :
        match (if balanceProbe then res_json res else inr (JsonValue None)) with
        | inr (JsonValue b) =>
            KeyCheckResult.status result = Active /\
            KeyCheckResult.balance result = b /\
            KeyCheckResult.error result = None
        | inr JsonNull =>
            KeyCheckResult.status result = Invalid /\
            KeyCheckResult.balance result = None /\
            KeyCheckResult.error result
            = Some "Cannot read properties of null (reading 'total_available')"
        | inl e =>
            KeyCheckResult.status result = Invalid /\
            KeyCheckResult.balance result = None /\
            KeyCheckResult.error result = Some (caughtMessage e)
        end).
      { destruct (if balanceProbe then res_json res else inr (JsonValue None))
          as [?|[|?]]; subst result; repeat split. }
      split.
      { destruct (if balanceProbe then res_json res else inr (JsonValue None))
          as [?|[|?]]; tauto. }
      split; [intros e [=]|].
      intros res' [= <-].
      split; [lia|]. split; [lia|]. split; [intros _; exact Hcase|].
      split; intros Hn; contradiction.
    + assert (Hnok : ~ 200 <= res_status res <= 299).
      { intros H. apply res_ok_iff in H. congruence. }
      destruct (handleErrorResponse_spec now (ApiKey.id key) res)
        as (_ & _ & _ & Hst & Herr).
      rewrite <- Hshape in Hst, Herr.
      split.
      { rewrite Hst. destruct (res_status res =? 429); tauto. }
      split; [intros e [=]|].
      intros res' [= <-].
      split.
      { intros H. rewrite Hst. destruct (Z.eqb_spec (res_status res) 429); [lia | reflexivity]. }
      split.
      { intros H. rewrite Hst, H. reflexivity. }
      split; [intros H; contradiction|].
      split; [|intros _; exact Herr].
      intros _ H. rewrite Hst. destruct (Z.eqb_spec (res_status res) 429); [lia | reflexivity].
Qed.

(** A 401, a 429 and a timeout, probed with the models method, and a
    balance probe answered 200 with the body [null]. *)
Lemma checkKey_classification_witness :
  let channel := sampleChannel "c2" Anthropic TestModels in
  let key := sampleKey "k1" "c2" Unknown 50 0 in
  let reply status :=
    inr {| res_status := status; res_text := inr "denied";
           res_json := inr (JsonValue None) |} in
  let null :=
    inr {| res_status := 200; res_text := inr "null"; res_json := inr JsonNull |} in
  KeyCheckResult.status (checkKey 0 channel key (reply 401)) = Invalid /\
  KeyCheckResult.error (checkKey 0 channel key (reply 401)) = Some "HTTP 401: denied" /\
  KeyCheckResult.status (checkKey 0 channel key (reply 429)) = QuotaExceeded /\
  KeyCheckResult.status (checkKey 0 channel key (inl (ErrorObject "timeout"))) = Invalid /\
  KeyCheckResult.status (checkKey 0 (sampleChannel "c1" OpenAI TestBalance) key null)
  = Invalid.
Proof.
  intros channel key reply null.
  pose proof (checkKey_classification 0 channel key (reply 401)) as (_ & _ & H401).
  pose proof (checkKey_classification 0 channel key (reply 429)) as (_ & _ & H429).
  pose proof (checkKey_classification 0 channel key (inl (ErrorObject "timeout")))
    as (_ & Hthrow & _).
  pose proof (checkKey_classification 0 (sampleChannel "c1" OpenAI TestBalance) key null)
    as (_ & _ & Hnull).
  destruct (H401 _ eq_refl) as (Ha & _ & _ & _ & Hb).
  destruct (H429 _ eq_refl) as (_ & Hc & _).
  destruct (Hthrow _ eq_refl) as (Hd & _).
  destruct (Hnull _ eq_refl) as (_ & _ & He & _).
  split; [apply Ha; left; reflexivity|].
  split; [apply Hb; simpl; lia|].
  split; [apply Hc; reflexivity|].
  split; [exact Hd|].
  apply He. simpl. lia.
Defined.

(** ** Updating one key *)

Lemma find_replace {A} (p : A -> bool) (pre : list A) (x y : A) (post : list A) :
  p x = false -> p y = false -> find p (pre ++ x :: post) = find p (pre ++ y :: post).
Proof.
  intros Hx Hy. induction pre as [|z pre IH]; simpl; [now rewrite Hx, Hy | now rewrite IH].
Qed.

(** [updateApiKey] on the id of a stored key replaces that key by the
    patched one and leaves everything else in the store alone. *)
Lemma applyPatch_id (old : ApiKey.t) (updates : ApiKeyPatch.t) (now : Z) :
  ApiKeyPatch.id updates = None ->
  ApiKey.id (applyPatch old updates now) = ApiKey.id old.
Proof. intros H. cbn [applyPatch ApiKey.id]. now rewrite H. Qed.

Lemma updateApiKey_stored (now : Z) (id : string) (updates : ApiKeyPatch.t)
    (db : Database) (old : ApiKey.t) :
  ApiKeyPatch.id updates = None ->
  getApiKeyById id db = Some old ->
  exists db',
    updateApiKey now id updates db = (Some (applyPatch old updates now), db') /\
    getApiKeyById id db' = Some (applyPatch old updates now) /\
    (forall other, other <> id -> getApiKeyById other db' = getApiKeyById other db) /\
    length (apiKeys db') = length (apiKeys db) /\
    channels db' = channels db /\ logs db' = logs db /\ settings db' = settings db.
Proof.
  unfold getApiKeyById, updateApiKey. intros Hid Hfind.
  destruct (find_some _ _ _ Hfind) as (pre & post & Hkeys & Hold & Hpre).
  rewrite Hkeys, (findIndex_middle _ pre old post Hpre Hold), at_index_middle.
  destruct (Z.eqb_spec (Z.of_nat (length pre)) (-1)); [lia|].
  eexists. split; [reflexivity|]. cbn [apiKeys channels logs settings].
  rewrite Nat2Z.id, insert_middle.
  split; [apply find_middle; [exact Hpre | now rewrite applyPatch_id]|].
  split.
  { intros other Hne. apply String.eqb_eq in Hold.
    apply find_replace; rewrite ?applyPatch_id by exact Hid; rewrite Hold;
      apply String.eqb_neq; congruence. }
  split; [rewrite !length_app; reflexivity|].
  repeat split.
Qed.

(** ** The scheduler *)



Lemma probe_patch_applied (stored key : ApiKey.t) (result : KeyCheckResult.t) (now : Z) :
  applyPatch stored
    {| ApiKeyPatch.id := None; ApiKeyPatch.channelId := None;
       ApiKeyPatch.key := None; ApiKeyPatch.createdAt := None;
       ApiKeyPatch.updatedAt := None;
       ApiKeyPatch.alias := None;
       ApiKeyPatch.status := Some (KeyCheckResult.status result);
       ApiKeyPatch.priority := None;
       ApiKeyPatch.weight := None;
       ApiKeyPatch.balance := Some (KeyCheckResult.balance result);
       ApiKeyPatch.lastChecked := Some (Some (KeyCheckResult.checkedAt result));
       ApiKeyPatch.lastUsed := None;
       ApiKeyPatch.errorCount :=
         Some (if ApiKeyStatus_eqb (KeyCheckResult.status result) Active then 0
               else ApiKey.errorCount key + 1);
       ApiKeyPatch.totalRequests := None |} now
  = storedAfterProbe stored key result now.
Proof.
  unfold applyPatch, storedAfterProbe. simpl.
  destruct (KeyCheckResult.status result); reflexivity.
Qed.




(** ** The relay bookkeeping *)


Section Relay.
Variables (env : RelayEnv) (tokenInfo : Token.t) (model : string) (isStreaming : bool)
  (channel : Channel.t) (key : ApiKey.t).






End Relay.



(** ** Model resolution *)

Lemma prefix_comparable (m : string) : forall a b,
  String.prefix a m = true -> String.prefix b m = true -> comparable a b = true.
Proof.
  unfold comparable.
  induction m as [|c m IH]; intros [|x a] [|y b]; simpl; try reflexivity.
  - intros H; discriminate H.
  - destruct (ascii_dec x c) as [->|]; [|intros H; discriminate H].
    destruct (ascii_dec y c) as [->|]; [|intros _ H; discriminate H].
    destruct (ascii_dec c c); [|contradiction]. apply IH.
Qed.

Lemma prefix_trans (a : string) : forall b c,
  String.prefix a b = true -> String.prefix b c = true -> String.prefix a c = true.
Proof.
  induction a as [|x a IH]; intros [|y b] [|z c]; simpl; try reflexivity;
    try (intros H; discriminate H); try (intros _ H; discriminate H).
  destruct (ascii_dec x y) as [->|]; [|intros H; discriminate H].
  destruct (ascii_dec y z) as [->|]; [|intros _ H; discriminate H].
  apply IH.
Qed.

Lemma types_eqb_eq (a : list ChannelType) : forall b, types_eqb a b = true -> a = b.
Proof.
  induction a as [|x a IH]; intros [|y b]; simpl; try reflexivity; try discriminate.
  intros H. apply andb_true_iff in H. destruct H as [Hxy Hab].
  rewrite (IH _ Hab). destruct x, y; try discriminate; reflexivity.
Qed.

(** The scan returns the types of the first entry that matches, and the
    empty array when no entry matches. *)
Lemma firstMatch_spec (table : list (string * list ChannelType)) (model : string) :
  (firstMatch table model = [] /\
   Forall (fun e => String.prefix (fst e) model = false) table) \/
  (exists e, In e table /\ String.prefix (fst e) model = true /\
             firstMatch table model = snd e).
Proof.
  induction table as [|[prefix types] table IH]; simpl.
  - left. split; [reflexivity | constructor].
  - destruct (String.prefix prefix model) eqn:Hp.
    + right. exists (prefix, types). auto.
    + destruct IH as [[Hnil Hall] | (e & Hin & He & Hfm)].
      * left. split; [exact Hnil | constructor; [exact Hp | exact Hall]].
      * right. exists e. auto.
Qed.

(** The fold of the specification keeps, among the entries that match, one
    of the greatest length, and keeps its start value when none matches. *)
Lemma spec_longest_fold (model : string) (table : list (string * list ChannelType)) :
  forall best,
    match fold_left
            (fun best e =>
               if String.prefix (fst e) model then
                 match best with
                 | None => Some e
                 | Some b =>
                     if (String.length (fst b) <? String.length (fst e))%nat then Some e
                     else best
                 end
               else best)
            table best with
    | None => best = None /\ Forall (fun e => String.prefix (fst e) model = false) table
    | Some r =>
        (best = Some r \/ (In r table /\ String.prefix (fst r) model = true)) /\
        (forall b, best = Some b -> (String.length (fst b) <= String.length (fst r))%nat) /\
        (forall e, In e table -> String.prefix (fst e) model = true ->
                   (String.length (fst e) <= String.length (fst r))%nat)
    end.
Proof.
  induction table as [|e table IH]; intros best; simpl.
  - destruct best as [b|].
    + split; [now left|]. split; [intros ? [= <-]; lia | intros ? []].
    + split; [reflexivity | constructor].
  - destruct (String.prefix (fst e) model) eqn:He.
    + destruct best as [b|].
      * destruct (Nat.ltb_spec (String.length (fst b)) (String.length (fst e))) as [Hlt|Hge].
        -- specialize (IH (Some e)). destruct (fold_left _ table (Some e)) as [r|].
           ++ destruct IH as (Hr & Hb & Hall). split.
              ** right. destruct Hr as [[= <-]|[Hin Hp]]; [split; [now left | exact He] | tauto].
              ** split.
                 --- intros b' [= <-]. specialize (Hb e eq_refl). lia.
                 --- intros e' [<-|Hin] Hp; [now apply Hb | now apply Hall].
           ++ destruct IH as [[=] _].
        -- specialize (IH (Some b)). destruct (fold_left _ table (Some b)) as [r|].
           ++ destruct IH as (Hr & Hb & Hall). split.
              ** destruct Hr as [Hr|[Hin Hp]]; [now left | right; tauto].
              ** split; [exact Hb|].
                 intros e' [<-|Hin] Hp; [specialize (Hb b eq_refl); lia | now apply Hall].
           ++ destruct IH as [[=] _].
      * specialize (IH (Some e)). destruct (fold_left _ table (Some e)) as [r|].
        -- destruct IH as (Hr & Hb & Hall). split.
           ++ right. destruct Hr as [[= <-]|[Hin Hp]]; [split; [now left | exact He] | tauto].
           ++ split; [intros b [=]|].
              intros e' [<-|Hin] Hp; [now apply Hb | now apply Hall].
        -- destruct IH as [[=] _].
    + specialize (IH best). destruct (fold_left _ table best) as [r|].
      * destruct IH as (Hr & Hb & Hall). split.
        -- destruct Hr as [Hr|[Hin Hp]]; [now left | right; tauto].
        -- split; [exact Hb|].
           intros e' [<-|Hin] Hp; [congruence | now apply Hall].
      * destruct IH as [Hbest Hall]. split; [exact Hbest | constructor; assumption].
Qed.

(** In the table, names of which one is a prefix of the other have the same
    types, and no entry has an empty array of types. *)
Lemma table_compatible (e1 e2 : string * list ChannelType) :
  In e1 MODEL_CHANNEL_MAP -> In e2 MODEL_CHANNEL_MAP ->
  comparable (fst e1) (fst e2) = true -> snd e1 = snd e2.
Proof.
  intros H1 H2 Hc.
  assert (Hall : forallb (fun a => family_has_types MODEL_CHANNEL_MAP (fst a) (snd a))
                   MODEL_CHANNEL_MAP = true) by (vm_compute; reflexivity).
  rewrite forallb_forall in Hall. specialize (Hall e2 H2).
  unfold family_has_types in Hall. rewrite forallb_forall in Hall.
  specialize (Hall e1 H1). rewrite Hc in Hall. now apply types_eqb_eq.
Qed.

Lemma table_types_nonempty (e : string * list ChannelType) :
  In e MODEL_CHANNEL_MAP -> (length (snd e) =? 0)%nat = false.
Proof.
  intros H.
  assert (Hall : forallb (fun a => negb (length (snd a) =? 0)%nat) MODEL_CHANNEL_MAP = true)
    by (vm_compute; reflexivity).
  rewrite forallb_forall in Hall. specialize (Hall e H). now apply negb_true_iff.
Qed.

(** A model that some entry of the table matches is routed to the types of
    that entry, whichever entry the scan stops at. *)
Lemma matchingTypes_of_match (model : string) (e : string * list ChannelType) :
  In e MODEL_CHANNEL_MAP -> String.prefix (fst e) model = true ->
  matchingTypes model = snd e.
Proof.
  intros Hin He. unfold matchingTypes.
  destruct (firstMatch_spec MODEL_CHANNEL_MAP model) as [[_ Hall] | (e1 & Hin1 & He1 & ->)].
  - rewrite Forall_forall in Hall. specialize (Hall e Hin). congruence.
  - rewrite (table_types_nonempty e1 Hin1).
    apply table_compatible; [assumption | assumption |].
    eapply prefix_comparable; eassumption.
Qed.

Lemma matchingTypes_no_match (model : string) :
  Forall (fun e => String.prefix (fst e) model = false) MODEL_CHANNEL_MAP ->
  matchingTypes model = [OpenAI; OpenAICompatible].
Proof.
  intros Hall. unfold matchingTypes.
  destruct (firstMatch_spec MODEL_CHANNEL_MAP model) as [[-> _] | (e1 & Hin1 & He1 & _)].
  - reflexivity.
  - rewrite Forall_forall in Hall. specialize (Hall e1 Hin1). congruence.
Qed.

(** Every model with the prefix [s] is routed to [T] when the entries
    comparable with [s] all have the types [T] and either [T] is the
    default or an entry is a prefix of [s]. *)
Lemma matchingTypes_family (s : string) (T : list ChannelType) (model : string) :
  family_has_types MODEL_CHANNEL_MAP s T = true ->
  T = [OpenAI; OpenAICompatible] \/
  existsb (fun e => String.prefix (fst e) s) MODEL_CHANNEL_MAP = true ->
  String.prefix s model = true ->
  matchingTypes model = T.
Proof.
  intros Hfam Hcase Hs.
  unfold family_has_types in Hfam. rewrite forallb_forall in Hfam.
  destruct (firstMatch_spec MODEL_CHANNEL_MAP model) as [[Hnil Hall] | (e1 & Hin1 & He1 & _)].
  - destruct Hcase as [-> | Hex]; [now apply matchingTypes_no_match|].
    apply existsb_exists in Hex. destruct Hex as (e & Hin & He).
    rewrite Forall_forall in Hall. specialize (Hall e Hin).
    rewrite (prefix_trans _ _ _ He Hs) in Hall. discriminate.
  - rewrite (matchingTypes_of_match model e1 Hin1 He1).
    specialize (Hfam e1 Hin1).
    rewrite (prefix_comparable model _ _ He1 Hs) in Hfam. now apply types_eqb_eq.
Qed.

(** C8, as the specification states it, fails: names with the prefix
    "claude-" or "gemini-" that extend no entry of the table are routed to
    the OpenAI types, by the scan and by the longest-prefix match alike. *)
Lemma claude_prefix_routed_to_openai :
  String.prefix "claude-" "claude-2" = true /\
  matchingTypes "claude-2" = [OpenAI; OpenAICompatible] /\
  matchingTypes "claude-2" <> [Anthropic] /\
  spec_longestPrefixTypes "claude-2" = [OpenAI; OpenAICompatible] /\
  String.prefix "gemini-" "gemini-2.0-flash" = true /\
  matchingTypes "gemini-2.0-flash" = [OpenAI; OpenAICompatible] /\
  matchingTypes "gemini-2.0-flash" <> [Gemini].
Proof. vm_compute. repeat split; discriminate. Qed.

(** C8, amended: for every model string the types found by the scan of the
    table in insertion order are those of the longest-prefix match; a model
    that an entry of the table is a prefix of is routed to the types of that
    entry (the claude entries to anthropic, the gemini entries to gemini);
    a model with the prefix "gpt-" or "o1" is routed to openai and
    openai-compatible; and so is a model that no entry is a prefix of, which
    includes the "claude-" and "gemini-" names outside the table. *)
Theorem matchingTypes_longest_prefix (model : string) :
  matchingTypes model = spec_longestPrefixTypes model /\
  (forall e, In e MODEL_CHANNEL_MAP -> String.prefix (fst e) model = true ->
             matchingTypes model = snd e) /\
  (forall name,
     In name ["claude-3-opus"; "claude-3-sonnet"; "claude-3-haiku"; "claude-3.5-sonnet";
              "claude-3-5-sonnet"] ->
     String.prefix name model = true -> matchingTypes model = [Anthropic]) /\
  (forall name,
     In name ["gemini-pro"; "gemini-1.5-pro"; "gemini-1.5-flash"] ->
     String.prefix name model = true -> matchingTypes model = [Gemini]) /\
  (String.prefix "gpt-" model = true \/ String.prefix "o1" model = true ->
   matchingTypes model = [OpenAI; OpenAICompatible]) /\
  ((forall e, In e MODEL_CHANNEL_MAP -> String.prefix (fst e) model = false) ->
   matchingTypes model = [OpenAI; OpenAICompatible]).
Proof.
  split.
  { unfold spec_longestPrefixTypes, spec_longestPrefixEntry.
    pose proof (spec_longest_fold model MODEL_CHANNEL_MAP None) as Hspec.
    destruct (fold_left _ MODEL_CHANNEL_MAP None) as [[name types]|].
    - destruct Hspec as ([[=] | [Hin Hp]] & _).
      apply (matchingTypes_of_match model (name, types) Hin Hp).
    - destruct Hspec as [_ Hall]. now apply matchingTypes_no_match. }
  split; [intros e; apply matchingTypes_of_match|].
  split.
  { intros name Hin Hp. apply (matchingTypes_family name); [|right|exact Hp];
      simpl in Hin; decompose [or] Hin; subst; try contradiction; vm_compute; reflexivity. }
  split.
  { intros name Hin Hp. apply (matchingTypes_family name); [|right|exact Hp];
      simpl in Hin; decompose [or] Hin; subst; try contradiction; vm_compute; reflexivity. }
  split.
  { intros [Hp|Hp].
    - apply (matchingTypes_family "gpt-"); [vm_compute; reflexivity | now left | exact Hp].
    - apply (matchingTypes_family "o1"); [vm_compute; reflexivity | now left | exact Hp]. }
  intros Hall. apply matchingTypes_no_match. now apply Forall_forall.
Qed.

(** "gpt-4o-mini" stops the scan at "gpt-4" and has the longest match
    "gpt-4o-mini"; both give the OpenAI types. *)
Lemma matchingTypes_longest_prefix_witness :
  matchingTypes "gpt-4o-mini-2024" = [OpenAI; OpenAICompatible] /\
  matchingTypes "claude-3-5-sonnet-20241022" = [Anthropic] /\
  matchingTypes "gemini-1.5-flash-8b" = [Gemini] /\
  matchingTypes "mistral-large" = [OpenAI; OpenAICompatible] /\
  option_map fst (spec_longestPrefixEntry MODEL_CHANNEL_MAP "gpt-4o-mini-2024")
  = Some "gpt-4o-mini".
Proof.
  split.
  { apply (proj1 (proj2 (proj2 (proj2 (proj2
      (matchingTypes_longest_prefix "gpt-4o-mini-2024")))))). left. reflexivity. }
  split.
  { apply (proj1 (proj2 (proj2 (matchingTypes_longest_prefix "claude-3-5-sonnet-20241022")))
             "claude-3-5-sonnet"); [simpl; tauto | reflexivity]. }
  split.
  { apply (proj1 (proj2 (proj2 (proj2 (matchingTypes_longest_prefix "gemini-1.5-flash-8b"))))
             "gemini-1.5-flash"); [simpl; tauto | reflexivity]. }
  split.
  { apply (proj2 (proj2 (proj2 (proj2 (proj2 (matchingTypes_longest_prefix "mistral-large")))))).
    intros e He. simpl in He. decompose [or] He; subst; try contradiction; reflexivity. }
  reflexivity.
Defined.

(** * Further properties *)

(** ** The store: one element found by id *)

Lemma findIndex_cases {A} (p : A -> bool) (l : list A) :
  (findIndex p l = -1 /\ Forall (fun x => p x = false) l) \/
  (exists pre x post,
      l = pre ++ x :: post /\ p x = true /\ Forall (fun y => p y = false) pre /\
      findIndex p l = Z.of_nat (length pre)).
Proof.
  destruct (Z.eq_dec (findIndex p l) (-1)) as [E|E].
  - left. split; [exact E | now apply findIndex_none].
  - right. now apply findIndex_split.
Qed.

Lemma eqb_false_Forall {A} (f : A -> string) (id : string) (l : list A) :
  Forall (fun x => String.eqb (f x) id = false) l <-> (forall x, In x l -> f x <> id).
Proof.
  rewrite Forall_forall. split; intros H x Hx; specialize (H x Hx);
    now apply String.eqb_neq.
Qed.

Lemma database_eta (db : Database) :
  {| channels := channels db; apiKeys := apiKeys db; logs := logs db;
     settings := settings db |} = db.
Proof. destruct db. reflexivity. Qed.

(** What [deleteChannel] does, by cases on the presence of the id. *)
Lemma deleteChannel_cases (id : string) (db : Database) :
  ((forall c, In c (channels db) -> Channel.id c <> id) /\
   deleteChannel id db = (false, db)) \/
  (exists pre c post,
      channels db = pre ++ c :: post /\ Channel.id c = id /\
      (forall c', In c' pre -> Channel.id c' <> id) /\
      deleteChannel id db
      = (true,
         {| channels := pre ++ post;
            apiKeys :=
              List.filter (fun k => negb (String.eqb (ApiKey.channelId k) id)) (apiKeys db);
            logs := logs db; settings := settings db |})).
Proof.
  unfold deleteChannel.
  destruct (findIndex_cases (fun c => String.eqb (Channel.id c) id) (channels db))
    as [[E Hall] | (pre & c & post & Hl & Hc & Hpre & E)]; rewrite E.
  - left. split; [now apply eqb_false_Forall | reflexivity].
  - right. exists pre, c, post.
    destruct (Z.eqb_spec (Z.of_nat (length pre)) (-1)); [lia|].
    rewrite Nat2Z.id, Hl, removeAt_middle.
    split; [reflexivity|]. split; [now apply String.eqb_eq|].
    split; [now apply eqb_false_Forall | reflexivity].
Qed.

(** X1: [deleteChannel] answers [true] exactly when a channel with the id is
    stored, and when it answers [false] the store is the one it was given:
    no key is removed for an id that names no channel. *)
Theorem deleteChannel_unknown_id (id : string) (db : Database) :
  (fst (deleteChannel id db) = true <->
   exists c, In c (channels db) /\ Channel.id c = id) /\
  (fst (deleteChannel id db) = false -> snd (deleteChannel id db) = db).
Proof.
  destruct (deleteChannel_cases id db)
    as [[Hnone ->] | (pre & c & post & Hl & Hc & _ & ->)]; simpl.
  - split; [|reflexivity].
    split; [discriminate|]. intros (c & Hin & Hc). exfalso. exact (Hnone c Hin Hc).
  - split; [|discriminate].
    split; [|reflexivity]. intros _. exists c. split; [|exact Hc].
    rewrite Hl. apply in_elt.
Qed.

Lemma deleteChannel_unknown_id_witness :
  let db := sampleDb [sampleKey "k1" "ghost" Active 50 0] in
  deleteChannel "ghost" db = (false, db).
Proof.
  intros db.
  pose proof (deleteChannel_unknown_id "ghost" db) as [_ H].
  specialize (H eq_refl).
  rewrite (surjective_pairing (deleteChannel "ghost" db)), H. reflexivity.
Defined.

Lemma find_skip {A} (p : A -> bool) (pre : list A) (x : A) (post : list A) :
  p x = false -> find p (pre ++ x :: post) = find p (pre ++ post).
Proof.
  intros Hx. induction pre as [|y pre IH]; simpl; [now rewrite Hx | now rewrite IH].
Qed.

Lemma find_app_fresh {A} (p : A -> bool) (l : list A) (x : A) :
  find p (l ++ [x]) =
  match find p l with
  | Some y => Some y
  | None => if p x then Some x else None
  end.
Proof.
  induction l as [|y l IH]; simpl; [reflexivity|].
  destruct (p y); [reflexivity | exact IH].
Qed.

(** What [updateApiKey] does, by cases on the presence of the id. *)
Lemma updateApiKey_cases (now : Z) (id : string) (updates : ApiKeyPatch.t) (db : Database) :
  ((forall k, In k (apiKeys db) -> ApiKey.id k <> id) /\
   updateApiKey now id updates db = (None, db)) \/
  (exists pre old post,
      apiKeys db = pre ++ old :: post /\ ApiKey.id old = id /\
      (forall k, In k pre -> ApiKey.id k <> id) /\
      updateApiKey now id updates db
      = (Some (applyPatch old updates now),
         {| channels := channels db;
            apiKeys := pre ++ applyPatch old updates now :: post;
            logs := logs db; settings := settings db |})).
Proof.
  unfold updateApiKey.
  destruct (findIndex_cases (fun k => String.eqb (ApiKey.id k) id) (apiKeys db))
    as [[E Hall] | (pre & old & post & Hl & Hold & Hpre & E)]; rewrite E.
  - left. split; [now apply eqb_false_Forall | reflexivity].
  - right. exists pre, old, post.
    destruct (Z.eqb_spec (Z.of_nat (length pre)) (-1)); [lia|].
    rewrite Hl, at_index_middle, Nat2Z.id, insert_middle.
    split; [reflexivity|]. split; [now apply String.eqb_eq|].
    split; [now apply eqb_false_Forall | reflexivity].
Qed.

Lemma updateChannel_cases (now : Z) (id : string) (updates : ChannelPatch.t)
    (db : Database) :
  ((forall c, In c (channels db) -> Channel.id c <> id) /\
   updateChannel now id updates db = (None, db)) \/
  (exists pre old post,
      channels db = pre ++ old :: post /\ Channel.id old = id /\
      (forall c, In c pre -> Channel.id c <> id) /\
      updateChannel now id updates db
      = (Some (applyChannelPatch old updates now),
         {| channels := pre ++ applyChannelPatch old updates now :: post;
            apiKeys := apiKeys db; logs := logs db; settings := settings db |})).
Proof.
  unfold updateChannel.
  destruct (findIndex_cases (fun c => String.eqb (Channel.id c) id) (channels db))
    as [[E Hall] | (pre & old & post & Hl & Hold & Hpre & E)]; rewrite E.
  - left. split; [now apply eqb_false_Forall | reflexivity].
  - right. exists pre, old, post.
    destruct (Z.eqb_spec (Z.of_nat (length pre)) (-1)); [lia|].
    rewrite Hl, at_index_middle, Nat2Z.id, insert_middle.
    split; [reflexivity|]. split; [now apply String.eqb_eq|].
    split; [now apply eqb_false_Forall | reflexivity].
Qed.

Lemma deleteApiKey_cases (id : string) (db : Database) :
  ((forall k, In k (apiKeys db) -> ApiKey.id k <> id) /\
   deleteApiKey id db = (false, db)) \/
  (exists pre k post,
      apiKeys db = pre ++ k :: post /\ ApiKey.id k = id /\
      (forall k', In k' pre -> ApiKey.id k' <> id) /\
      deleteApiKey id db
      = (true,
         {| channels := channels db; apiKeys := pre ++ post;
            logs := logs db; settings := settings db |})).
Proof.
  unfold deleteApiKey.
  destruct (findIndex_cases (fun k => String.eqb (ApiKey.id k) id) (apiKeys db))
    as [[E Hall] | (pre & k & post & Hl & Hk & Hpre & E)]; rewrite E.
  - left. split; [now apply eqb_false_Forall | reflexivity].
  - right. exists pre, k, post.
    destruct (Z.eqb_spec (Z.of_nat (length pre)) (-1)); [lia|].
    rewrite Nat2Z.id, Hl, removeAt_middle.
    split; [reflexivity|]. split; [now apply String.eqb_eq|].
    split; [now apply eqb_false_Forall | reflexivity].
Qed.

(** ** The store: references from keys to channels *)

Lemma applyChannelPatch_id (old : Channel.t) (updates : ChannelPatch.t) (now : Z) :
  ChannelPatch.id updates = None ->
  Channel.id (applyChannelPatch old updates now) = Channel.id old.
Proof. intros H. cbn [applyChannelPatch Channel.id]. now rewrite H. Qed.

(** X2: when every key references a stored channel, this still holds after
    [deleteChannel] (thanks to the cascade), [createChannel], [deleteApiKey]
    and [addLog], whatever their arguments; after [createApiKey] of a key
    whose channel is stored; after [updateChannel] with a patch that has no
    [id]; and after [updateApiKey] with a patch that has no [channelId] or
    has the id of a stored channel.  The two conditions on the patches are
    needed: [updateApiKey] with the [channelId] of no stored channel, on the
    id of a stored key, breaks the property, and so does [updateChannel]
    with another [id] on a channel that a key references, when channel ids
    are unique. *)
Theorem references_preserved (db : Database) :
  keys_reference_channels db ->
  (forall id, keys_reference_channels (snd (deleteChannel id db))) /\
  (forall c, keys_reference_channels (createChannel c db)) /\
  (forall now id updates,
     ChannelPatch.id updates = None ->
     keys_reference_channels (snd (updateChannel now id updates db))) /\
  (forall now id updates,
     match ApiKeyPatch.channelId updates with
     | None => True
     | Some cid => exists c, In c (channels db) /\ Channel.id c = cid
     end ->
     keys_reference_channels (snd (updateApiKey now id updates db))) /\
  (forall id, keys_reference_channels (snd (deleteApiKey id db))) /\
  (forall now log, keys_reference_channels (addLog now log db)) /\
  (forall k, (exists c, In c (channels db) /\ Channel.id c = ApiKey.channelId k) ->
             keys_reference_channels (createApiKey k db)) /\
  (forall now id updates cid,
     ApiKeyPatch.channelId updates = Some cid ->
     (exists k, In k (apiKeys db) /\ ApiKey.id k = id) ->
     (forall c, In c (channels db) -> Channel.id c <> cid) ->
     ~ keys_reference_channels (snd (updateApiKey now id updates db))) /\
  (forall now id updates newId,
     ChannelPatch.id updates = Some newId -> newId <> id ->
     List.NoDup (map Channel.id (channels db)) ->
     (exists c, In c (channels db) /\ Channel.id c = id) ->
     (exists k, In k (apiKeys db) /\ ApiKey.channelId k = id) ->
     ~ keys_reference_channels (snd (updateChannel now id updates db))).
Proof.
  intros Hdb. unfold keys_reference_channels in *.
  split.
  { intros id. destruct (deleteChannel_cases id db)
      as [[_ ->] | (pre & c & post & Hl & Hc & _ & ->)]; simpl; [exact Hdb|].
    intros k Hk. apply filter_In in Hk. destruct Hk as [Hk Hne].
    apply negb_true_iff, String.eqb_neq in Hne.
    destruct (Hdb k Hk) as (c' & Hin & Hc').
    exists c'. split; [|exact Hc'].
    rewrite Hl in Hin. apply in_app_or in Hin. apply in_or_app.
    destruct Hin as [Hin|[<-|Hin]]; [now left | congruence | now right]. }
  split.
  { intros c k Hk. simpl in *. destruct (Hdb k Hk) as (c' & Hin & Hc').
    exists c'. split; [apply in_or_app; now left | exact Hc']. }
  split.
  { intros now id updates Hid. destruct (updateChannel_cases now id updates db)
      as [[_ ->] | (pre & old & post & Hl & Hold & _ & ->)]; simpl; [exact Hdb|].
    intros k Hk. destruct (Hdb k Hk) as (c' & Hin & Hc').
    rewrite Hl in Hin. apply in_app_or in Hin.
    destruct Hin as [Hin|[<-|Hin]].
    - exists c'. split; [apply in_or_app; now left | exact Hc'].
    - exists (applyChannelPatch old updates now).
      split; [apply in_elt | now rewrite applyChannelPatch_id].
    - exists c'. split; [apply in_or_app; right; now right | exact Hc']. }
  split.
  { intros now id updates Hcid. destruct (updateApiKey_cases now id updates db)
      as [[_ ->] | (pre & old & post & Hl & Hold & _ & ->)]; simpl; [exact Hdb|].
    intros k Hk. apply in_app_or in Hk.
    destruct Hk as [Hk|[<-|Hk]].
    - apply Hdb. rewrite Hl. apply in_or_app. now left.
    - cbn [applyPatch ApiKey.channelId].
      destruct (ApiKeyPatch.channelId updates) as [cid|]; [exact Hcid|].
      apply (Hdb old). rewrite Hl. apply in_elt.
    - apply Hdb. rewrite Hl. apply in_or_app. right. now right. }
  split.
  { intros id. destruct (deleteApiKey_cases id db)
      as [[_ ->] | (pre & k0 & post & Hl & _ & _ & ->)]; simpl; [exact Hdb|].
    intros k Hk. apply Hdb. rewrite Hl. apply in_app_or in Hk. apply in_or_app.
    destruct Hk; [now left | right; now right]. }
  split.
  { intros now log k Hk. apply Hdb. exact Hk. }
  split.
  { intros k Hc k' Hk'. simpl in *. apply in_app_or in Hk'.
    destruct Hk' as [Hk'|[<-|[]]]; [now apply Hdb | exact Hc]. }
  split.
  { intros now id updates cid Hcid (k & Hk & Hkid) Hfresh Href.
    destruct (updateApiKey_cases now id updates db)
      as [[Hnone _] | (pre & old & post & Hl & Hold & _ & Hupd)];
      [exact (Hnone k Hk Hkid)|].
    rewrite Hupd in Href. cbn [snd apiKeys channels] in Href.
    destruct (Href (applyPatch old updates now)) as (c & Hc & Hcc); [apply in_elt|].
    cbn [applyPatch ApiKey.channelId] in Hcc. rewrite Hcid in Hcc.
    exact (Hfresh c Hc Hcc). }
  intros now id updates newId Hnew Hne Hnd (c0 & Hc0 & Hc0id) (k & Hk & Hkc) Href.
  destruct (updateChannel_cases now id updates db)
    as [[Hnone _] | (pre & old & post & Hl & Hold & _ & Hupd)];
    [exact (Hnone c0 Hc0 Hc0id)|].
  rewrite Hupd in Href. cbn [snd apiKeys channels] in Href.
  destruct (Href k Hk) as (c & Hc & Hcc).
  rewrite Hl, map_app in Hnd. cbn [map] in Hnd.
  apply NoDup_remove_2 in Hnd. apply Hnd.
  rewrite Hold, <- Hkc, <- Hcc.
  apply in_app_or in Hc. apply in_or_app.
  destruct Hc as [Hc|[<-|Hc]].
  - left. now apply in_map.
  - exfalso. cbn [applyChannelPatch Channel.id] in Hcc. rewrite Hnew in Hcc. congruence.
  - right. now apply in_map.
Qed.

Lemma references_preserved_witness :
  let db := sampleDb [sampleKey "k1" "c1" Active 50 0; sampleKey "k2" "c2" Active 50 0] in
  let rename := ChannelPatch.mk (Some "c9") None None None None None None None None None None in
  keys_reference_channels (snd (deleteChannel "c1" db)) /\
  ~ keys_reference_channels (snd (updateChannel 5 "c1" rename db)).
Proof.
  intros db rename.
  assert (H : keys_reference_channels db).
  { intros k [<-|[<-|[]]]; simpl.
    - exists (sampleChannel "c1" OpenAI TestBalance). split; [now left | reflexivity].
    - exists (sampleChannel "c2" Gemini TestChat). split; [right; now left | reflexivity]. }
  pose proof (references_preserved db H) as (Hdel & _ & _ & _ & _ & _ & _ & _ & Hren).
  split; [exact (Hdel "c1")|].
  apply (Hren 5 "c1" rename "c9"); [reflexivity | discriminate | | |].
  - repeat constructor; simpl; intuition discriminate.
  - eexists. split; [left; reflexivity | reflexivity].
  - eexists. split; [left; reflexivity | reflexivity].
Defined.

(** ** The store: updating, creating and deleting a key *)

(** X3: [updateApiKey] never adds or removes a key and leaves every key
    with another id where and as it was; it leaves channels, logs and
    settings alone; and it answers [null], with the store untouched,
    exactly when no key has the id.  The function itself does not protect
    the identity of a key: an [id] that the patch has is written.  For a
    patch without [id], [channelId], [key] or [createdAt], as every patch
    built in this repository is, the ids of the keys and their order, the
    channels, the secrets and the creation times are as before. *)
Theorem updateApiKey_keeps_identity (now : Z) (id : string) (updates : ApiKeyPatch.t)
    (db : Database) :
  let r := fst (updateApiKey now id updates db) in
  let db' := snd (updateApiKey now id updates db) in
  length (apiKeys db') = length (apiKeys db) /\
  (forall i k, apiKeys db !! i = Some k -> ApiKey.id k <> id ->
     apiKeys db' !! i = Some k) /\
  (ApiKeyPatch.id updates = None ->
   map ApiKey.id (apiKeys db') = map ApiKey.id (apiKeys db)) /\
  (ApiKeyPatch.channelId updates = None ->
   map ApiKey.channelId (apiKeys db') = map ApiKey.channelId (apiKeys db)) /\
  (ApiKeyPatch.key updates = None ->
   map ApiKey.key (apiKeys db') = map ApiKey.key (apiKeys db)) /\
  (ApiKeyPatch.createdAt updates = None ->
   map ApiKey.createdAt (apiKeys db') = map ApiKey.createdAt (apiKeys db)) /\
  (forall newId k, ApiKeyPatch.id updates = Some newId -> r = Some k ->
     ApiKey.id k = newId /\ In k (apiKeys db')) /\
  channels db' = channels db /\ logs db' = logs db /\ settings db' = settings db /\
  (r = None <-> forall k, In k (apiKeys db) -> ApiKey.id k <> id) /\
  (r = None -> db' = db).
Proof.
  cbv zeta.
  destruct (updateApiKey_cases now id updates db)
    as [[Hnone ->] | (pre & old & post & Hl & Hold & Hpre & ->)]; cbn [fst snd].
  - split; [reflexivity|]. split; [auto|]. repeat split; auto; discriminate.
  - cbn [apiKeys channels logs settings]. rewrite Hl, !map_app, !length_app.
    cbn [map applyPatch ApiKey.id ApiKey.channelId ApiKey.key ApiKey.createdAt length].
    split; [reflexivity|].
    split.
    { intros i k Hi Hk.
      destruct (Nat.lt_total i (length pre)) as [Hlt|[->|Hgt]].
      - rewrite lookup_app_l in * by exact Hlt. exact Hi.
      - rewrite list_lookup_middle in Hi by reflexivity. congruence.
      - rewrite lookup_app_r in * by lia.
        destruct (i - length pre)%nat as [|j] eqn:E; [lia|]. exact Hi. }
    split; [intros ->; reflexivity|].
    split; [intros ->; reflexivity|].
    split; [intros ->; reflexivity|].
    split; [intros ->; reflexivity|].
    split.
    { intros newId k Hnew [= <-]. split; [|apply in_elt].
      cbn [applyPatch ApiKey.id]. now rewrite Hnew. }
    repeat split; try discriminate.
    intros Hnone. exfalso. apply (Hnone old); [apply in_elt | exact Hold].
Qed.

Lemma updateApiKey_keeps_identity_witness :
  let k1 := sampleKey "k1" "c1" Active 50 3 in
  let k2 := sampleKey "k2" "c1" Active 50 0 in
  let db := sampleDb [k1; k2] in
  let patch :=
    {| ApiKeyPatch.id := None; ApiKeyPatch.channelId := None;
       ApiKeyPatch.key := None; ApiKeyPatch.createdAt := None;
       ApiKeyPatch.updatedAt := None;
       ApiKeyPatch.alias := None; ApiKeyPatch.status := Some Disabled;
       ApiKeyPatch.priority := None; ApiKeyPatch.weight := None;
       ApiKeyPatch.balance := None; ApiKeyPatch.lastChecked := None;
       ApiKeyPatch.lastUsed := None; ApiKeyPatch.errorCount := None;
       ApiKeyPatch.totalRequests := None |} in
  map ApiKey.id (apiKeys (snd (updateApiKey 9 "k1" patch db))) = ["k1"; "k2"] /\
  apiKeys (snd (updateApiKey 9 "k1" patch db)) !! 1%nat = Some k2.
Proof.
  intros k1 k2 db patch.
  pose proof (updateApiKey_keeps_identity 9 "k1" patch db) as (_ & Hframe & Hids & _).
  split; [exact (Hids eq_refl)|].
  apply Hframe; [reflexivity | discriminate].
Defined.

(** X4: an update with the empty patch changes nothing of the stored key
    but [updatedAt]. *)
Theorem updateApiKey_empty_patch (now : Z) (db : Database) (old : ApiKey.t) :
  getApiKeyById (ApiKey.id old) db = Some old ->
  fst (updateApiKey now (ApiKey.id old) ApiKeyPatch.empty db) = Some (touched old now) /\
  getApiKeyById (ApiKey.id old) (snd (updateApiKey now (ApiKey.id old) ApiKeyPatch.empty db))
  = Some (touched old now) /\
  forall other, other <> ApiKey.id old ->
    getApiKeyById other (snd (updateApiKey now (ApiKey.id old) ApiKeyPatch.empty db))
    = getApiKeyById other db.
Proof.
  intros Hold.
  destruct (updateApiKey_stored now (ApiKey.id old) ApiKeyPatch.empty db old eq_refl Hold)
    as (db' & -> & Hget & Hother & _).
  cbn [fst snd]. split; [reflexivity|]. split; [exact Hget | exact Hother].
Qed.

Lemma updateApiKey_empty_patch_witness :
  let k := sampleKey "k1" "c1" Active 50 3 in
  getApiKeyById "k1" (snd (updateApiKey 77 "k1" ApiKeyPatch.empty (sampleDb [k])))
  = Some (touched k 77).
Proof.
  intros k.
  exact (proj1 (proj2 (updateApiKey_empty_patch 77 (sampleDb [k]) k eq_refl))).
Defined.

(** X5: after [createApiKey key], a lookup by id finds what it found before
    and, only when it found nothing, the new key under its own id: a key
    created with an id that is already stored is shadowed by the older key.
    [createApiKeys] is the same as creating the keys one by one. *)
Theorem createApiKey_lookup (key : ApiKey.t) (db : Database) :
  (forall id,
     getApiKeyById id (createApiKey key db)
     = match getApiKeyById id db with
       | Some k => Some k
       | None => if String.eqb (ApiKey.id key) id then Some key else None
       end) /\
  ((forall k, In k (apiKeys db) -> ApiKey.id k <> ApiKey.id key) ->
   getApiKeyById (ApiKey.id key) (createApiKey key db) = Some key) /\
  getApiKeys None (createApiKey key db) = getApiKeys None db ++ [key] /\
  (forall keys, createApiKeys keys db = fold_left (fun d k => createApiKey k d) keys db).
Proof.
  split.
  { intros id.
    exact (find_app_fresh (fun k => String.eqb (ApiKey.id k) id) (apiKeys db) key). }
  split.
  { intros Hfresh. unfold getApiKeyById, createApiKey. cbn [apiKeys].
    rewrite find_app_fresh, String.eqb_refl.
    replace (find _ (apiKeys db)) with (@None ApiKey.t); [reflexivity|].
    symmetry. apply find_none. now apply eqb_false_Forall. }
  split; [reflexivity|].
  intros keys. revert db. induction keys as [|k keys IH]; intros db; simpl.
  - unfold createApiKeys. rewrite app_nil_r. apply database_eta.
  - rewrite <- IH. unfold createApiKeys, createApiKey. cbn [apiKeys channels logs settings].
    now rewrite <- app_assoc.
Qed.

Lemma createApiKey_lookup_witness :
  let old := sampleKey "k1" "c1" Active 50 0 in
  let dup := sampleKey "k1" "c2" Unknown 50 0 in
  let new := sampleKey "k2" "c1" Unknown 50 0 in
  getApiKeyById "k2" (createApiKey new (sampleDb [old])) = Some new /\
  getApiKeyById "k1" (createApiKey dup (sampleDb [old])) = Some old.
Proof.
  intros old dup new. split.
  - apply (proj1 (proj2 (createApiKey_lookup new (sampleDb [old])))).
    intros k [<-|[]]. discriminate.
  - rewrite (proj1 (createApiKey_lookup dup (sampleDb [old])) "k1"). reflexivity.
Defined.

(** X6: [deleteApiKey] answers [true] exactly when a key with the id is
    stored and otherwise leaves the store as it was; it removes one key, the
    first with the id, so a lookup of any other id is unchanged and, when
    the ids are unique, the id is gone; and deleting a key just created
    under a fresh id gives back the store from before the creation. *)
Theorem deleteApiKey_spec (id : string) (db : Database) :
  (fst (deleteApiKey id db) = true <-> exists k, In k (apiKeys db) /\ ApiKey.id k = id) /\
  (fst (deleteApiKey id db) = false -> snd (deleteApiKey id db) = db) /\
  (fst (deleteApiKey id db) = true ->
   S (length (apiKeys (snd (deleteApiKey id db)))) = length (apiKeys db)) /\
  (forall other, other <> id ->
     getApiKeyById other (snd (deleteApiKey id db)) = getApiKeyById other db) /\
  (NoDup (map ApiKey.id (apiKeys db)) ->
   getApiKeyById id (snd (deleteApiKey id db)) = None) /\
  channels (snd (deleteApiKey id db)) = channels db /\
  (forall key, ApiKey.id key = id ->
     (forall k, In k (apiKeys db) -> ApiKey.id k <> id) ->
     deleteApiKey id (createApiKey key db) = (true, db)).
Proof.
  assert (Hround : forall key, ApiKey.id key = id ->
     (forall k, In k (apiKeys db) -> ApiKey.id k <> id) ->
     deleteApiKey id (createApiKey key db) = (true, db)).
  { intros key Hkey Hfresh. unfold deleteApiKey, createApiKey. cbn [apiKeys channels logs settings].
    rewrite (findIndex_middle _ (apiKeys db) key []).
    - destruct (Z.eqb_spec (Z.of_nat (length (apiKeys db))) (-1)); [lia|].
      rewrite Nat2Z.id, removeAt_middle, app_nil_r, database_eta. reflexivity.
    - now apply eqb_false_Forall.
    - now apply String.eqb_eq. }
  destruct (deleteApiKey_cases id db)
    as [[Hnone ->] | (pre & k & post & Hl & Hk & Hpre & ->)]; cbn [fst snd].
  - split.
    { split; [discriminate|]. intros (k & Hin & Hk). exfalso. exact (Hnone k Hin Hk). }
    split; [reflexivity|]. split; [discriminate|]. split; [reflexivity|].
    split.
    { intros _. apply find_none. now apply eqb_false_Forall. }
    split; [reflexivity | exact Hround].
  - split.
    { split; [|reflexivity]. intros _. exists k. split; [rewrite Hl; apply in_elt | exact Hk]. }
    split; [discriminate|].
    split.
    { intros _. cbn [apiKeys]. rewrite Hl, !length_app. simpl. lia. }
    split.
    { intros other Hne. unfold getApiKeyById. cbn [apiKeys]. rewrite Hl.
      symmetry. apply find_skip. apply String.eqb_neq. congruence. }
    split.
    { intros Hnd. unfold getApiKeyById. cbn [apiKeys]. apply find_none.
      rewrite Hl, map_app in Hnd. simpl in Hnd. apply NoDup_remove_2 in Hnd.
      apply eqb_false_Forall. intros k' Hk' E. apply Hnd.
      rewrite <- map_app, Hk, <- E. now apply in_map. }
    split; [reflexivity | exact Hround].
Qed.

Lemma deleteApiKey_spec_witness :
  let db := sampleDb [sampleKey "k1" "c1" Active 50 0] in
  deleteApiKey "k2" (createApiKey (sampleKey "k2" "c1" Unknown 50 0) db) = (true, db).
Proof.
  intros db.
  apply (proj2 (proj2 (proj2 (proj2 (proj2 (proj2 (deleteApiKey_spec "k2" db))))))).
  - reflexivity.
  - intros k [<-|[]]. discriminate.
Defined.

(** ** Proxies *)

Lemma clearProxy_spec (id : string) (c : Channel.t) :
  clearProxy id c
  = withProxy match Channel.proxyId c with
              | Some p => if String.eqb p id then None else Some p
              | None => None
              end c.
Proof.
  unfold clearProxy, withProxy. destruct c as [? ? ? ? ? ? [p|] ? ? ? ?]; simpl;
    [destruct (String.eqb p id)|]; reflexivity.
Qed.

(** X7: [deleteProxy] answers [true] exactly when a proxy with the id is
    stored.  Then no channel references the id any more, and the channels
    are the same ones in the same order with every other field, [updatedAt]
    included, as before; one proxy is removed; keys, logs and tokens are
    left alone.  When it answers [false] nothing changes, so channels that
    reference an id without a proxy keep that reference. *)
Theorem deleteProxy_clears_references (id : string) (st : Store) :
  let st' := snd (deleteProxy id st) in
  (fst (deleteProxy id st) = true <-> exists p, In p (proxies st) /\ Proxy.id p = id) /\
  (fst (deleteProxy id st) = false -> st' = st) /\
  (fst (deleteProxy id st) = true ->
   (forall c, In c (channels (core st')) -> Channel.proxyId c <> Some id) /\
   (forall (i : nat) c, channels (core st) !! i = Some c ->
      channels (core st') !! i
      = Some (withProxy match Channel.proxyId c with
                        | Some p => if String.eqb p id then None else Some p
                        | None => None
                        end c)) /\
   length (channels (core st')) = length (channels (core st)) /\
   S (length (proxies st')) = length (proxies st) /\
   (forall other, other <> id -> getProxyById other st' = getProxyById other st) /\
   apiKeys (core st') = apiKeys (core st) /\ logs (core st') = logs (core st) /\
   tokens st' = tokens st).
Proof.
  cbv zeta. unfold deleteProxy.
  destruct (findIndex_cases (fun p => String.eqb (Proxy.id p) id) (proxies st))
    as [[E Hall] | (pre & p & post & Hl & Hp & Hpre & E)]; rewrite E.
  - cbn [Z.eqb fst snd]. split; [|split; [reflexivity | discriminate]].
    split; [discriminate|]. intros (p & Hin & Hp). exfalso.
    exact (proj1 (eqb_false_Forall Proxy.id id (proxies st)) Hall p Hin Hp).
  - destruct (Z.eqb_spec (Z.of_nat (length pre)) (-1)); [lia|]. cbn [fst snd].
    split.
    { split; [|reflexivity]. intros _. exists p.
      split; [rewrite Hl; apply in_elt | now apply String.eqb_eq]. }
    split; [discriminate|]. intros _. cbn [core channels apiKeys logs proxies tokens].
    split.
    { intros c Hc. apply in_map_iff in Hc. destruct Hc as (c0 & <- & _).
      rewrite clearProxy_spec. unfold withProxy. cbn [Channel.proxyId].
      destruct (Channel.proxyId c0) as [q|]; [|discriminate].
      destruct (String.eqb_spec q id); [discriminate | congruence]. }
    split.
    { intros i c Hc. rewrite list_lookup_fmap, Hc. simpl. now rewrite clearProxy_spec. }
    split; [apply length_map|].
    split.
    { rewrite Nat2Z.id, Hl, removeAt_middle, !length_app. simpl. lia. }
    split.
    { intros other Hne. unfold getProxyById. cbn [proxies].
      rewrite Nat2Z.id, Hl, removeAt_middle. symmetry. apply find_skip.
      apply String.eqb_eq in Hp. apply String.eqb_neq. congruence. }
    repeat split.
Qed.

Lemma deleteProxy_clears_references_witness :
  let c1 := withProxy (Some "p1") (sampleChannel "c1" OpenAI TestChat) in
  let c2 := withProxy (Some "p2") (sampleChannel "c2" Gemini TestChat) in
  let st := sampleStore [c1; c2] [sampleProxy "p1"] [] in
  channels (core (snd (deleteProxy "p1" st))) = [withProxy None c1; c2] /\
  snd (deleteProxy "p2" st) = st.
Proof.
  intros c1 c2 st.
  pose proof (deleteProxy_clears_references "p2" st) as (_ & Hmiss & _).
  split; [reflexivity | apply Hmiss; reflexivity].
Defined.

(** ** Tokens and authentication *)

Lemma updateToken_cases (id : string) (updates : TokenPatch.t) (st : Store) :
  ((forall t, In t (tokens st) -> Token.id t <> id) /\
   updateToken id updates st = (None, st)) \/
  (exists pre old post,
      tokens st = pre ++ old :: post /\ Token.id old = id /\
      (forall t, In t pre -> Token.id t <> id) /\
      updateToken id updates st
      = (Some (applyTokenPatch old updates),
         {| core := core st; proxies := proxies st;
            tokens := pre ++ applyTokenPatch old updates :: post |})).
Proof.
  unfold updateToken.
  destruct (findIndex_cases (fun t => String.eqb (Token.id t) id) (tokens st))
    as [[E Hall] | (pre & old & post & Hl & Hold & Hpre & E)]; rewrite E.
  - left. split; [now apply eqb_false_Forall | reflexivity].
  - right. exists pre, old, post.
    destruct (Z.eqb_spec (Z.of_nat (length pre)) (-1)); [lia|].
    rewrite Hl, at_index_middle, Nat2Z.id, insert_middle.
    split; [reflexivity|]. split; [now apply String.eqb_eq|].
    split; [now apply eqb_false_Forall | reflexivity].
Qed.

Lemma prefix_drop (a : string) : forall h,
  String.prefix a h = true -> h = a +:+ string_drop (String.length a) h.
Proof.
  induction a as [|x a IH]; intros [|y h]; simpl; try reflexivity;
    try (intros H; discriminate H).
  destruct (ascii_dec x y) as [->|]; [|intros H; discriminate H].
  intros H. change (String y h = String y (a +:+ string_drop (String.length a) h)).
  f_equal. now apply IH.
Qed.

Lemma prefix_app (a v : string) : String.prefix a (a +:+ v) = true.
Proof.
  induction a as [|x a IH]; simpl; [now destruct v|].
  destruct (ascii_dec x x); [exact IH | contradiction].
Qed.

Lemma drop_app (a v : string) : string_drop (String.length a) (a +:+ v) = v.
Proof. induction a as [|x a IH]; simpl; [now destruct v | exact IH]. Qed.

Lemma touch_lastUsed (t : Token.t) (now : Z) :
  applyTokenPatch t
    {| TokenPatch.id := None; TokenPatch.token := None;
       TokenPatch.createdAt := None;
       TokenPatch.name := None; TokenPatch.allowedChannels := None;
       TokenPatch.rateLimit := None; TokenPatch.enabled := None;
       TokenPatch.lastUsed := Some (Some now) |}
  = withLastUsed (Some now) t.
Proof. reflexivity. Qed.

(** X8: [authMiddleware] calls [next()] only for a header that is "Bearer "
    followed by the value of a stored token which is enabled, and it
    attaches the first stored token with that value.  Every other request
    is answered 401 or 403 and leaves the store as it was.  A request that
    passes changes at most the [lastUsed] of stored tokens, to the time of
    the request, and nothing else in the store. *)
Theorem authMiddleware_sound (now : Z) (authorization : option string) (st : Store) :
  match authMiddleware now authorization st with
  | (AuthNext token, st') =>
      (exists value,
          authorization = Some ("Bearer " +:+ value) /\
          getTokenByValue value st = Some token /\
          Token.token token = value) /\
      Token.enabled token = true /\
      Forall2 (fun t t' => t' = t \/ t' = withLastUsed (Some now) t)
        (tokens st) (tokens st') /\
      core st' = core st /\ proxies st' = proxies st
  | (AuthReply status _, st') => st' = st /\ (status = 401 \/ status = 403)
  end.
Proof.
  unfold authMiddleware.
  destruct (truthy_string authorization) as [authHeader|] eqn:Hh; [|split; auto].
  assert (Hauth : authorization = Some authHeader).
  { unfold truthy_string in Hh. destruct authorization as [s|]; [|discriminate].
    destruct (String.eqb s EmptyString); [discriminate | exact Hh]. }
  destruct (String.prefix "Bearer " authHeader) eqn:Hp; cbn [negb]; [|split; auto].
  destruct (getTokenByValue (string_drop 7 authHeader) st) as [token|] eqn:Hget;
    [|split; auto].
  destruct (Token.enabled token) eqn:Hen; cbn [negb]; [|split; auto].
  split.
  { exists (string_drop 7 authHeader). split.
    - rewrite Hauth. f_equal. exact (prefix_drop "Bearer " authHeader Hp).
    - split; [exact Hget|]. unfold getTokenByValue in Hget.
      apply find_some in Hget. destruct Hget as (_ & _ & _ & Hv & _).
      now apply String.eqb_eq. }
  split; [exact Hen|].
  destruct (updateToken_cases (Token.id token)
              {| TokenPatch.id := None; TokenPatch.token := None;
                 TokenPatch.createdAt := None;
                 TokenPatch.name := None; TokenPatch.allowedChannels := None;
                 TokenPatch.rateLimit := None; TokenPatch.enabled := None;
                 TokenPatch.lastUsed := Some (Some now) |} st)
    as [[_ ->] | (pre & old & post & Hl & _ & _ & ->)]; cbn [snd core proxies tokens].
  - split; [|split; reflexivity]. apply Forall2_same_length_lookup_2; [reflexivity|].
    intros i x y Hx Hy. left. congruence.
  - split; [|split; reflexivity]. rewrite Hl, touch_lastUsed.
    apply Forall2_app; [|constructor; [now right|]];
      (apply Forall2_same_length_lookup_2; [reflexivity|];
       intros i x y Hx Hy; left; congruence).
Qed.

(** X9: a request with the header "Bearer " followed by the value of a
    stored, enabled token passes [authMiddleware] with the first stored
    token of that value attached; in particular a token just created by
    [createToken] with a value that no stored token has authenticates. *)
Theorem authMiddleware_complete (now : Z) (value : string) (token : Token.t) (st : Store) :
  getTokenByValue value st = Some token ->
  Token.enabled token = true ->
  fst (authMiddleware now (Some ("Bearer " +:+ value)) st) = AuthNext token /\
  forall fresh,
    (forall t, In t (tokens st) -> Token.token t <> Token.token fresh) ->
    Token.enabled fresh = true ->
    fst (authMiddleware now (Some ("Bearer " +:+ Token.token fresh)) (createToken fresh st))
    = AuthNext fresh.
Proof.
  assert (Hpass : forall st0 v t,
            getTokenByValue v st0 = Some t -> Token.enabled t = true ->
            fst (authMiddleware now (Some ("Bearer " +:+ v)) st0) = AuthNext t).
  { intros st0 v t Hget Hen. unfold authMiddleware.
    assert (Ht : truthy_string (Some ("Bearer " +:+ v)) = Some ("Bearer " +:+ v))
      by reflexivity.
    rewrite Ht, (prefix_app "Bearer " v).
    pose proof (drop_app "Bearer " v) as Hd. cbn [String.length] in Hd.
    cbn [negb]. rewrite Hd, Hget, Hen. reflexivity. }
  intros Hget Hen. split; [now apply Hpass|].
  intros fresh Hfresh Hen'. apply Hpass; [|exact Hen'].
  unfold getTokenByValue, createToken. cbn [tokens].
  rewrite find_app_fresh, String.eqb_refl.
  replace (find _ (tokens st)) with (@None Token.t); [reflexivity|].
  symmetry. apply find_none. now apply eqb_false_Forall.
Qed.

Lemma authMiddleware_complete_witness :
  let t1 := sampleToken "t1" None in
  fst (authMiddleware 5 (Some "Bearer kh-sample") (sampleStore [] [] [t1])) = AuthNext t1 /\
  fst (authMiddleware 5 (Some "Bearer kh-sample")
         (sampleStore [] [] [withEnabled false t1]))
  = AuthReply 403 "Token is disabled" /\
  fst (authMiddleware 5 (Some "kh-sample") (sampleStore [] [] [t1]))
  = AuthReply 401 "Missing or invalid Authorization header".
Proof.
  intros t1. split; [|split; reflexivity].
  exact (proj1 (authMiddleware_complete 5 "kh-sample" t1 (sampleStore [] [] [t1])
                  eq_refl eq_refl)).
Defined.

(** ** The load balancer: the four strategies *)

Lemma length_pos_nonempty {A} (l : list A) : l <> [] -> 0 < Z.of_nat (length l).
Proof. destruct l; [contradiction | simpl length; lia]. Qed.

(** One round-robin selection on a non-empty array of active keys. *)
Lemma selectKey_roundRobin_step (draw : Q) (keys : list ApiKey.t) (channelId : string)
    (rr : Cursors) :
  keys <> [] -> Forall (fun k => ApiKey.status k = Active) keys ->
  selectKey draw keys RoundRobin channelId rr
  = (selection_of (at_index keys (Z.rem (cursorOf rr channelId) (Z.of_nat (length keys)))),
     <[channelId := Z.rem (cursorOf rr channelId + 1) (Z.of_nat (length keys))]> rr).
Proof.
  intros Hne Hact. unfold selectKey.
  rewrite filter_all by (eapply Forall_impl; [|exact Hact]; intros k; apply active_eqb).
  destruct keys as [|k0 keys']; [contradiction|]. cbn [length Nat.eqb].
  unfold roundRobinSelect, js_rem, cursorOf.
  destruct (Z.eqb_spec (Z.of_nat (length (k0 :: keys'))) 0) as [E|_];
    [simpl length in E; lia|].
  destruct (rr !! channelId) as [i|]; [|reflexivity].
  destruct (Z.eqb_spec i 0) as [->|]; reflexivity.
Qed.

(** X10: round-robin rotates.  On a non-empty array of [n] active keys and
    with the cursor of the channel at [c >= 0], successive selections return
    the keys at the indices [c mod n], [(c + 1) mod n], [(c + 2) mod n], ...;
    for a channel without a cursor these are 0, 1, ..., n - 1, 0, 1, ....
    The cursors of the other channels are not touched. *)
Theorem roundRobin_rotates (draw : Q) (keys : list ApiKey.t) (channelId : string)
    (count : nat) (rr : Cursors) :
  keys <> [] ->
  Forall (fun k => ApiKey.status k = Active) keys ->
  0 <= cursorOf rr channelId ->
  let n := Z.of_nat (length keys) in
  let c := cursorOf rr channelId in
  fst (selectMany draw keys RoundRobin channelId count rr)
  = map (fun i => selection_of (at_index keys ((c + Z.of_nat i) mod n))) (seq 0 count) /\
  (forall (i : nat), (i < count)%nat ->
     exists k, keys !! Z.to_nat ((c + Z.of_nat i) mod n) = Some k /\
               fst (selectMany draw keys RoundRobin channelId count rr) !! i
               = Some (SelKey k)) /\
  (forall other, other <> channelId ->
     snd (selectMany draw keys RoundRobin channelId count rr) !! other = rr !! other).
Proof.
  intros Hne Hact Hc n c0.
  pose proof (length_pos_nonempty keys Hne) as Hn. fold n in Hn.
  assert (Hrun : forall count rr, 0 <= cursorOf rr channelId ->
            fst (selectMany draw keys RoundRobin channelId count rr)
            = map (fun i => selection_of
                              (at_index keys ((cursorOf rr channelId + Z.of_nat i) mod n)))
                (seq 0 count) /\
            (forall other, other <> channelId ->
               snd (selectMany draw keys RoundRobin channelId count rr) !! other
               = rr !! other)).
  { clear count rr Hc c0. intros m. induction m as [|m IH]; intros rr Hc.
    - split; [reflexivity | intros; reflexivity].
    - cbn [selectMany]. rewrite (selectKey_roundRobin_step draw keys channelId rr Hne Hact).
      fold n. set (rr1 := <[channelId := _]> rr).
      assert (Hc1 : cursorOf rr1 channelId = (cursorOf rr channelId + 1) mod n).
      { unfold cursorOf at 1, rr1. rewrite lookup_insert_eq. apply Z.rem_mod_nonneg; lia. }
      destruct (IH rr1) as [Hfst Hsnd].
      { rewrite Hc1. apply Z.mod_pos_bound. lia. }
      destruct (selectMany draw keys RoundRobin channelId m rr1) as [sels rr2].
      cbn [fst snd] in *. split.
      + cbn [seq map]. f_equal.
        * rewrite Z.add_0_r, Z.rem_mod_nonneg by lia. reflexivity.
        * rewrite Hfst, <- seq_shift, map_map. apply map_ext. intros i.
          rewrite Hc1, Z.add_mod_idemp_l by lia. do 3 f_equal. lia.
      + intros other Hne'. rewrite (Hsnd other Hne'). unfold rr1.
        now rewrite lookup_insert_ne. }
  destruct (Hrun count rr Hc) as [Hfst Hsnd]. split; [exact Hfst|].
  split; [|exact Hsnd].
  intros i Hi. rewrite Hfst.
  destruct (at_index_in_range keys ((c0 + Z.of_nat i) mod n)) as (k & Hk & _).
  { apply Z.mod_pos_bound. lia. }
  exists k. split.
  - unfold at_index in Hk. destruct (_ <? 0); [discriminate | exact Hk].
  - rewrite list_lookup_fmap, lookup_seq_lt by exact Hi.
    change (0 + i)%nat with i. cbn [fmap option_fmap option_map].
    fold c0. rewrite Hk. reflexivity.
Qed.

(** Three keys, a channel without a cursor, seven calls: 0, 1, 2, 0, 1, 2, 0. *)
Lemma roundRobin_rotates_witness :
  let k0 := sampleKey "k0" "X" Active 50 0 in
  let k1 := sampleKey "k1" "X" Active 50 0 in
  let k2 := sampleKey "k2" "X" Active 50 0 in
  fst (selectMany 0 [k0; k1; k2] RoundRobin "X" 7 ∅)
  = map SelKey [k0; k1; k2; k0; k1; k2; k0].
Proof.
  intros k0 k1 k2.
  rewrite (proj1 (roundRobin_rotates 0 [k0; k1; k2] "X" 7 ∅
                    ltac:(discriminate) ltac:(repeat constructor) ltac:(vm_compute; discriminate))).
  reflexivity.
Defined.

(** X11: under the least-used strategy [selectKey] returns, whenever some
    key is active, the first of the active keys with the fewest
    [totalRequests]; the cursors are left alone. *)
Theorem selectKey_leastUsed (draw : Q) (keys : list ApiKey.t) (channelId : string)
    (rr : Cursors) :
  List.filter isActive keys <> [] ->
  exists pre k post,
    selectKey draw keys LeastUsed channelId rr = (SelKey k, rr) /\
    List.filter isActive keys = pre ++ k :: post /\
    In k keys /\ ApiKey.status k = Active /\
    (forall k', In k' keys -> ApiKey.status k' = Active ->
                ApiKey.totalRequests k <= ApiKey.totalRequests k') /\
    (forall k', In k' pre -> ApiKey.totalRequests k < ApiKey.totalRequests k').
Proof.
  intros Hne. unfold selectKey. fold isActive.
  fold (List.filter isActive keys).
  assert (Hact : forall k, In k (List.filter isActive keys) <->
                           In k keys /\ ApiKey.status k = Active).
  { intros k. rewrite filter_In. unfold isActive. rewrite active_eqb. tauto. }
  destruct (List.filter isActive keys) as [|k0 rest] eqn:E; [contradiction|].
  cbn [length Nat.eqb]. unfold leastUsedSelect.
  destruct (reduce_min_head ApiKey.totalRequests k0 rest)
    as (pre & post & Hsplit & Hpre & Hpost).
  set (r := reduce _ k0 (k0 :: rest)) in *.
  exists pre, r, post. split; [reflexivity|]. split; [exact Hsplit|].
  assert (Hr : In r (k0 :: rest)) by (rewrite Hsplit; apply in_elt).
  apply Hact in Hr. destruct Hr as [Hr1 Hr2].
  split; [exact Hr1|]. split; [exact Hr2|].
  rewrite Forall_forall in Hpre, Hpost. split.
  - intros k' Hk' Hs. assert (Hin : In k' (k0 :: rest)) by (apply Hact; auto).
    rewrite Hsplit in Hin. apply in_app_or in Hin.
    destruct Hin as [Hin|[<-|Hin]]; [specialize (Hpre _ Hin) | | specialize (Hpost _ Hin)]; lia.
  - exact Hpre.
Qed.

Lemma selectKey_leastUsed_witness :
  let busy := sampleKey "k1" "X" Active 50 0 in
  let idle := sampleKey "k2" "X" Invalid 50 0 in
  exists pre k post,
    selectKey 0 [idle; busy] LeastUsed "X" ∅ = (SelKey k, ∅) /\
    List.filter isActive [idle; busy] = pre ++ k :: post /\ k = busy.
Proof.
  intros busy idle.
  destruct (selectKey_leastUsed 0 [idle; busy] "X" ∅)
    as (pre & k & post & Hsel & Hsplit & _ & _).
  - discriminate.
  - exists pre, k, post. split; [exact Hsel|]. split; [exact Hsplit|].
    assert (E : fst (selectKey 0 [idle; busy] LeastUsed "X" ∅) = SelKey busy)
      by (vm_compute; reflexivity).
    rewrite Hsel in E. cbn [fst] in E. congruence.
Defined.

Lemma reduce_sumWeights (keys : list ApiKey.t) : forall a,
  reduce (fun sum k => sum + ApiKey.weight k) a keys = a + sumWeights keys.
Proof.
  unfold reduce. induction keys as [|k keys IH]; intros a; simpl; [lia|].
  rewrite IH. lia.
Qed.

Lemma sumWeights_app (l1 l2 : list ApiKey.t) :
  sumWeights (l1 ++ l2) = sumWeights l1 + sumWeights l2.
Proof. induction l1 as [|k l1 IH]; simpl; [reflexivity | rewrite IH; lia]. Qed.

(** *** Rounding to a double *)

Lemma units_pos : 0 < units.
Proof. unfold units. apply Z.pow_pos_nonneg; lia. Qed.

Lemma representable_pos (n : Z) : representable n -> 0 < n.
Proof.
  intros (m & k & -> & Hm & Hk). apply Z.mul_pos_pos; [lia|].
  apply Z.pow_pos_nonneg; lia.
Qed.

(** A weight below 2^53, counted in units, is a double. *)
Lemma representable_integer (w : Z) : 0 < w < 2 ^ 53 -> representable (w * units).
Proof. intros H. exists w, 1074. unfold units. split; [reflexivity|]. lia. Qed.

(** A double is not changed by the rounding. *)
Lemma roundToDouble_representable (n : Z) : representable n -> roundToDouble n = n.
Proof.
  intros Hrep. pose proof (representable_pos n Hrep) as Hpos.
  destruct Hrep as (m & k & Hn & Hm & Hk).
  unfold roundToDouble. cbv zeta. rewrite Z.abs_eq by lia.
  destruct (Z.leb_spec (Z.log2 n - 52) 0) as [|Hs]; [reflexivity|].
  set (s := Z.log2 n - 52) in *.
  assert (Hsk : s <= k).
  { assert (Hlt : n < 2 ^ (53 + k)).
    { rewrite Z.pow_add_r by lia. rewrite Hn.
      apply Z.mul_lt_mono_pos_r; [apply Z.pow_pos_nonneg; lia | lia]. }
    apply Z.log2_lt_pow2 in Hlt; [|exact Hpos]. unfold s. lia. }
  assert (Hsplit : n = m * 2 ^ (k - s) * 2 ^ s).
  { rewrite <- Z.mul_assoc, <- Z.pow_add_r by lia.
    replace (k - s + s) with k by lia. exact Hn. }
  assert (H2s : 0 < 2 ^ s) by (apply Z.pow_pos_nonneg; lia).
  assert (Hq : n / 2 ^ s = m * 2 ^ (k - s)).
  { rewrite Hsplit at 1. apply Z.div_mul. lia. }
  assert (Hr : n mod 2 ^ s = 0).
  { rewrite Hsplit at 1. apply Z.mod_mul. lia. }
  rewrite Hq, Hr.
  assert (Hhalf : 0 < 2 ^ (s - 1)) by (apply Z.pow_pos_nonneg; lia).
  destruct (Z.ltb_spec 0 (2 ^ (s - 1))); [|lia].
  rewrite <- Hsplit, Z.sgn_pos by exact Hpos. lia.
Qed.

(** The significand that the rounding keeps is not negative. *)
Lemma roundToDouble_sign (n : Z) :
  (0 <= n -> 0 <= roundToDouble n) /\ (n <= 0 -> roundToDouble n <= 0).
Proof.
  unfold roundToDouble. cbv zeta.
  destruct (Z.leb_spec (Z.log2 (Z.abs n) - 52) 0) as [|Hs]; [auto|].
  set (s := Z.log2 (Z.abs n) - 52) in *.
  assert (H2s : 0 < 2 ^ s) by (apply Z.pow_pos_nonneg; lia).
  assert (Hq : 0 <= Z.abs n / 2 ^ s) by (apply Z.div_pos; lia).
  match goal with
  | |- context [Z.sgn n * (?m * 2 ^ s)] =>
      assert (Hm : 0 <= m * 2 ^ s);
      [apply Z.mul_nonneg_nonneg; [|lia];
       destruct (Z.abs n mod 2 ^ s <? 2 ^ (s - 1)); [lia|];
       destruct (2 ^ (s - 1) <? Z.abs n mod 2 ^ s); [lia|];
       destruct (Z.even (Z.abs n / 2 ^ s)); lia
      | generalize dependent (m * 2 ^ s); intros p Hp ]
  end.
  split; intros Hn.
  - apply Z.mul_nonneg_nonneg; [apply Z.sgn_nonneg; exact Hn | exact Hp].
  - apply Z.mul_nonpos_nonneg; [apply Z.sgn_nonpos; exact Hn | exact Hp].
Qed.

(** The bounds of the kept significand: for [n] of more than 53 bits the
    quotient by the weight of the last kept bit has exactly 53 bits. *)
Lemma roundToDouble_quotient (n : Z) :
  0 < n -> 0 < Z.log2 n - 52 ->
  let s := Z.log2 n - 52 in
  2 ^ 52 <= n / 2 ^ s < 2 ^ 53 /\ (n / 2 ^ s) * 2 ^ s <= n < (n / 2 ^ s + 1) * 2 ^ s.
Proof.
  intros Hpos Hs s. fold s in Hs.
  assert (H2s : 0 < 2 ^ s) by (apply Z.pow_pos_nonneg; lia).
  destruct (Z.log2_spec n Hpos) as [Hlo Hhi].
  replace (Z.log2 n) with (52 + s) in Hlo by (unfold s; lia).
  replace (Z.succ (Z.log2 n)) with (53 + s) in Hhi by (unfold s; lia).
  rewrite Z.pow_add_r in Hlo, Hhi by lia.
  split.
  - split.
    + apply Z.div_le_lower_bound; lia.
    + apply Z.div_lt_upper_bound; lia.
  - pose proof (Z.div_mod n (2 ^ s) ltac:(lia)) as Hdm.
    pose proof (Z.mod_pos_bound n (2 ^ s) H2s) as Hmod. lia.
Qed.

(** What the rounding gives for [n > 0] of more than 53 bits: the quotient
    or the next integer, times the weight of the last kept bit. *)
Lemma roundToDouble_cases (n : Z) :
  0 < n -> 0 < Z.log2 n - 52 ->
  let s := Z.log2 n - 52 in
  roundToDouble n = (n / 2 ^ s) * 2 ^ s \/ roundToDouble n = (n / 2 ^ s + 1) * 2 ^ s.
Proof.
  intros Hpos Hs s. unfold roundToDouble. cbv zeta.
  rewrite Z.abs_eq by lia. fold s.
  destruct (Z.leb_spec s 0); [unfold s in *; lia|].
  rewrite Z.sgn_pos by exact Hpos.
  destruct (n mod 2 ^ s <? 2 ^ (s - 1)); [left; lia|].
  destruct (2 ^ (s - 1) <? n mod 2 ^ s); [right; lia|].
  destruct (Z.even (n / 2 ^ s)); [left | right]; lia.
Qed.

(** The rounding of a positive value is a double. *)
Lemma roundToDouble_is_representable (n : Z) : 0 < n -> representable (roundToDouble n).
Proof.
  intros Hpos.
  destruct (Z.le_gt_cases (Z.log2 n - 52) 0) as [Hs|Hs].
  - assert (E : roundToDouble n = n).
    { unfold roundToDouble. cbv zeta. rewrite Z.abs_eq by lia.
      destruct (Z.leb_spec (Z.log2 n - 52) 0); [reflexivity | lia]. }
    rewrite E. exists n, 0. rewrite Z.pow_0_r, Z.mul_1_r. split; [reflexivity|].
    split; [|lia]. split; [exact Hpos|].
    apply Z.log2_lt_pow2; [exact Hpos | lia].
  - destruct (roundToDouble_quotient n Hpos Hs) as [[Hq1 Hq2] _].
    set (s := Z.log2 n - 52) in *.
    destruct (roundToDouble_cases n Hpos Hs) as [E|E]; fold s in E; rewrite E.
    + exists (n / 2 ^ s), s. split; [reflexivity|]. lia.
    + destruct (Z.eq_dec (n / 2 ^ s + 1) (2 ^ 53)) as [Etop|Hne].
      * exists (2 ^ 52), (s + 1). rewrite Etop. split; [|lia].
        rewrite (Z.pow_add_r 2 s 1) by lia.
        change (2 ^ 53) with (2 ^ 52 * 2). change (2 ^ 1) with 2. ring.
      * exists (n / 2 ^ s + 1), s. split; [reflexivity|]. lia.
Qed.

(** The rounding does not pass a double: a value that is at most the
    double [t] is rounded to at most [t]. *)
Lemma roundToDouble_le (n t : Z) :
  0 <= n <= t -> representable t -> roundToDouble n <= t.
Proof.
  intros [H0 Hle] Hrep.
  destruct (Z.eq_dec n t) as [->|Hne];
    [rewrite roundToDouble_representable by exact Hrep; lia|].
  destruct (Z.eq_dec n 0) as [->|Hn0]; [change (roundToDouble 0) with 0; lia|].
  assert (Hpos : 0 < n) by lia.
  destruct (Z.le_gt_cases (Z.log2 n - 52) 0) as [Hs|Hs].
  - assert (E : roundToDouble n = n).
    { unfold roundToDouble. cbv zeta. rewrite Z.abs_eq by lia.
      destruct (Z.leb_spec (Z.log2 n - 52) 0); [reflexivity | lia]. }
    lia.
  - destruct (roundToDouble_quotient n Hpos Hs) as [_ [Hlo Hhi]].
    set (s := Z.log2 n - 52) in *.
    assert (H2s : 0 < 2 ^ s) by (apply Z.pow_pos_nonneg; lia).
    destruct Hrep as (m & k & Ht & Hm & Hk).
    assert (Hsk : s <= k).
    { assert (Hlt : n < 2 ^ (53 + k)).
      { rewrite Z.pow_add_r by lia.
        assert (m * 2 ^ k < 2 ^ 53 * 2 ^ k)
          by (apply Z.mul_lt_mono_pos_r; [apply Z.pow_pos_nonneg; lia | lia]).
        lia. }
      apply Z.log2_lt_pow2 in Hlt; [|exact Hpos]. unfold s. lia. }
    assert (Hsplit : t = m * 2 ^ (k - s) * 2 ^ s).
    { rewrite <- Z.mul_assoc, <- Z.pow_add_r by lia.
      replace (k - s + s) with k by lia. exact Ht. }
    assert (Hq : n / 2 ^ s + 1 <= m * 2 ^ (k - s)) by nia.
    destruct (roundToDouble_cases n Hpos Hs) as [E|E]; fold s in E; rewrite E; nia.
Qed.

(** Subtracting an integer weight from a double below 2^53 leaves, when the
    difference is positive, a double: [random -= key.weight] does not round
    as long as the loop goes on. *)
Lemma representable_minus_weight (random w : Z) :
  representable random -> random < 2 ^ 53 * units -> 0 <= w ->
  0 < random - w * units -> representable (random - w * units).
Proof.
  intros (m & k & Hr & Hm & Hk) Hbound Hw Hpos. unfold units in *.
  destruct (Z.le_gt_cases k 1074) as [Hle|Hgt].
  - exists (m - w * 2 ^ (1074 - k)), k.
    assert (E : 2 ^ 1074 = 2 ^ (1074 - k) * 2 ^ k).
    { rewrite <- Z.pow_add_r by lia. f_equal. lia. }
    assert (H2k : 0 < 2 ^ k) by (apply Z.pow_pos_nonneg; lia).
    assert (H2d : 0 < 2 ^ (1074 - k)) by (apply Z.pow_pos_nonneg; lia).
    rewrite E in *.
    remember (2 ^ (1074 - k)) as D eqn:ED. remember (2 ^ k) as K eqn:EK.
    remember (2 ^ 53) as B eqn:EB. clear ED EK EB E.
    split; [rewrite Hr; ring|]. split; [|lia]. nia.
  - exists (m * 2 ^ (k - 1074) - w), 1074.
    assert (E : 2 ^ k = 2 ^ (k - 1074) * 2 ^ 1074).
    { rewrite <- Z.pow_add_r by lia. f_equal. lia. }
    assert (H2d : 0 < 2 ^ (k - 1074)) by (apply Z.pow_pos_nonneg; lia).
    assert (HU : 0 < 2 ^ 1074) by (apply Z.pow_pos_nonneg; lia).
    rewrite E in Hr.
    remember (2 ^ (k - 1074)) as D eqn:ED. remember (2 ^ 1074) as U eqn:EU.
    remember (2 ^ 53) as B eqn:EB. clear ED EU EB E.
    split; [rewrite Hr; ring|]. split; [|lia]. nia.
Qed.

(** The loop on doubles returns the first key at which the running sum of
    the weights reaches [random]; it ends without a key only when the whole
    sum stays below [random]. *)
Lemma weightedScanD_spec (keys : list ApiKey.t) :
  Forall (fun k => 0 <= ApiKey.weight k) keys ->
  forall random,
    random = 0 \/ representable random -> random < 2 ^ 53 * units ->
    match weightedScanD random keys with
    | Some k =>
        exists pre post,
          keys = pre ++ k :: post /\
          random <= (sumWeights pre + ApiKey.weight k) * units /\
          (pre = [] \/ sumWeights pre * units < random)
    | None => keys = [] \/ sumWeights keys * units < random
    end.
Proof.
  induction 1 as [|x keys Hx _ IH]; intros random Hrep Hbound; [now left|].
  cbn [weightedScanD]. cbv zeta.
  pose proof units_pos as HU.
  destruct (Z.le_gt_cases (random - ApiKey.weight x * units) 0) as [Hle|Hgt].
  - pose proof (proj2 (roundToDouble_sign _) Hle) as Hround.
    destruct (Z.leb_spec (roundToDouble (random - ApiKey.weight x * units)) 0); [|lia].
    exists [], keys. split; [reflexivity|]. split; [|now left].
    cbn [sumWeights]. lia.
  - assert (Hr : representable random).
    { destruct Hrep as [->|Hr]; [|exact Hr]. nia. }
    pose proof (representable_minus_weight random (ApiKey.weight x) Hr Hbound Hx Hgt)
      as Hnext.
    rewrite (roundToDouble_representable _ Hnext).
    destruct (Z.leb_spec (random - ApiKey.weight x * units) 0); [lia|].
    specialize (IH (random - ApiKey.weight x * units) (or_intror Hnext) ltac:(nia)).
    destruct (weightedScanD _ keys) as [k|].
    + destruct IH as (pre & post & -> & Hk & Hpre).
      exists (x :: pre), post. split; [reflexivity|]. cbn [sumWeights].
      split; [nia|]. right.
      destruct Hpre as [-> | Hpre]; [cbn [sumWeights]; nia | nia].
    + right. cbn [sumWeights].
      destruct IH as [-> | IH]; [cbn [sumWeights]; nia | nia].
Qed.

(** X12: under the weighted strategy, in the arithmetic of the code.  When
    the weights of the active keys are not negative and sum to a positive
    total below 2^53, a draw in [0, 1) selects the first active key at
    which the running sum of the weights reaches [random], the double that
    the code computes for [Math.random() * totalWeight]: with [s] the sum
    of the weights before the selected key [k], [s < random <= s + weight k]
    (or [k] is the first key).  That double is between 0 and the total, so
    the last-key fallback is not used; and for a draw above 0 the selected
    key has a positive weight.  The subtractions of the loop are exact as
    long as the loop goes on, so only the product is rounded. *)
Theorem selectKey_weighted (draw : Z) (keys : list ApiKey.t) :
  0 <= draw < units ->
  Forall (fun k => 0 <= ApiKey.weight k) (List.filter isActive keys) ->
  0 < sumWeights (List.filter isActive keys) < 2 ^ 53 ->
  let total := sumWeights (List.filter isActive keys) in
  let random := roundToDouble (draw * total) in
  0 <= random <= total * units /\
  exists pre k post,
    selectKeyWeightedD draw keys = SelKey k /\
    List.filter isActive keys = pre ++ k :: post /\
    random <= (sumWeights pre + ApiKey.weight k) * units /\
    (pre = [] \/ sumWeights pre * units < random) /\
    (0 < draw -> 0 < ApiKey.weight k).
Proof.
  intros Hdraw Hweights Htotal total random.
  pose proof units_pos as HU.
  assert (Hprod : 0 <= draw * total <= total * units) by (unfold total; nia).
  assert (Hrange : 0 <= random <= total * units).
  { split; [apply roundToDouble_sign; lia|].
    apply roundToDouble_le; [exact Hprod|]. apply representable_integer. exact Htotal. }
  split; [exact Hrange|].
  assert (Hrep : random = 0 \/ representable random).
  { destruct (Z.eq_dec (draw * total) 0) as [E|Hne].
    - left. unfold random. rewrite E. reflexivity.
    - right. apply roundToDouble_is_representable. lia. }
  unfold selectKeyWeightedD. fold isActive. fold (List.filter isActive keys).
  fold total in Htotal.
  destruct (List.filter isActive keys) as [|k0 rest] eqn:E.
  { unfold total in Htotal. cbn [sumWeights] in Htotal. lia. }
  cbn [length Nat.eqb]. unfold weightedSelectD.
  rewrite reduce_sumWeights, Z.add_0_l. fold total.
  destruct (Z.eqb_spec total 0); [lia|]. fold random.
  pose proof (weightedScanD_spec (k0 :: rest) Hweights random Hrep ltac:(nia)) as Hscan.
  destruct (weightedScanD random (k0 :: rest)) as [k|].
  - destruct Hscan as (pre & post & Hsplit & Hk & Hpre).
    exists pre, k, post. split; [reflexivity|]. split; [exact Hsplit|].
    split; [exact Hk|]. split; [exact Hpre|].
    intros Hd.
    assert (Hr : 0 < random).
    { destruct Hrep as [E0|Hr]; [|now apply representable_pos].
      exfalso. assert (Hp : 0 < draw * total) by nia.
      pose proof (representable_pos _ (roundToDouble_is_representable _ Hp)).
      fold random in H. lia. }
    destruct Hpre as [-> | Hpre]; [cbn [sumWeights] in Hk|]; nia.
  - exfalso. destruct Hscan as [Hnil | Hlt]; [discriminate|].
    fold total in Hlt. lia.
Qed.

(** Weights 8 and 3 and the draw 0.7272727272727273, the double nearest to
    8/11 and above it: the product, a little above 8, is rounded to 8, so
    the first key is selected, where the exact product selects the second.
    And the draws 1/8, 3/8 and 5/8 on the weights 1, 1, 2. *)
Lemma selectKey_weighted_witness :
  let a1 := withWeight 8 (sampleKey "k1" "X" Active 50 0) in
  let a2 := withWeight 3 (sampleKey "k2" "X" Active 50 0) in
  let k1 := withWeight 1 (sampleKey "k1" "X" Active 50 0) in
  let k2 := withWeight 1 (sampleKey "k2" "X" Active 50 0) in
  let k3 := withWeight 2 (sampleKey "k3" "X" Active 50 0) in
  (exists pre post,
     selectKeyWeightedD draw_8_11 [a1; a2] = SelKey a1 /\
     [a1; a2] = pre ++ a1 :: post /\
     roundToDouble (draw_8_11 * 11) <= (sumWeights pre + 8) * units) /\
  8 * units < draw_8_11 * 11 /\
  roundToDouble (draw_8_11 * 11) = 8 * units /\
  weightedSelect (inject_Z draw_8_11 / inject_Z units) [a1; a2] = SelKey a2 /\
  selectKeyWeightedD (units / 8) [k1; k2; k3] = SelKey k1 /\
  selectKeyWeightedD (3 * units / 8) [k1; k2; k3] = SelKey k2 /\
  selectKeyWeightedD (5 * units / 8) [k1; k2; k3] = SelKey k3.
Proof.
  intros a1 a2 k1 k2 k3.
  split; [|repeat split; vm_compute; reflexivity].
  destruct (selectKey_weighted draw_8_11 [a1; a2])
    as (_ & pre & k & post & Hsel & Hsplit & Hk & _).
  - vm_compute. split; [discriminate | reflexivity].
  - repeat constructor; vm_compute; discriminate.
  - vm_compute. split; reflexivity.
  - assert (Ek : k = a1).
    { assert (E : selectKeyWeightedD draw_8_11 [a1; a2] = SelKey a1)
        by (vm_compute; reflexivity).
      rewrite Hsel in E. congruence. }
    subst k. exists pre, post. split; [exact Hsel|]. split; [exact Hsplit|].
    exact Hk.
Defined.

(** ** The router: choosing a channel and a key *)

Lemma selectKey_outcome (draw : Q) (keys : list ApiKey.t) (strategy : LoadBalanceStrategy)
    (channelId : string) (rr : Cursors) :
  (0 <= draw)%Q -> (draw < 1)%Q -> cursors_ok rr ->
  (List.filter isActive keys = [] /\
   selectKey draw keys strategy channelId rr = (SelNull, rr)) \/
  (exists k rr',
      selectKey draw keys strategy channelId rr = (SelKey k, rr') /\
      In k keys /\ ApiKey.status k = Active /\ cursors_ok rr').
Proof.
  intros H0 H1 Hrr. unfold selectKey. fold isActive. fold (List.filter isActive keys).
  assert (Hact : forall k, In k (List.filter isActive keys) ->
                           In k keys /\ ApiKey.status k = Active).
  { intros k Hk. apply filter_In in Hk. unfold isActive in Hk.
    rewrite active_eqb in Hk. exact Hk. }
  destruct (List.filter isActive keys) as [|a0 rest] eqn:E; [left; auto|].
  right. cbn [length Nat.eqb].
  assert (Hne : a0 :: rest <> []) by discriminate.
  destruct strategy.
  - destruct (roundRobinSelect_in (a0 :: rest) channelId rr Hne Hrr)
      as (k & rr' & -> & Hin & Hrr').
    exists k, rr'. destruct (Hact k Hin). auto.
  - destruct (weightedSelect_in draw (a0 :: rest) Hne H0 H1) as (k & -> & Hin).
    exists k, rr. destruct (Hact k Hin). auto.
  - destruct (prioritySelect_first_best (a0 :: rest) Hne)
      as (pre & k & post & -> & Hsplit & _).
    exists k, rr. destruct (Hact k) as [? ?]; [rewrite Hsplit; apply in_elt | auto].
  - destruct (leastUsedSelect_in (a0 :: rest) Hne) as (k & -> & Hin).
    exists k, rr. destruct (Hact k Hin). auto.
Qed.

Lemma activeKeys_none (db : Database) (c : Channel.t) :
  List.filter isActive (getActiveKeysByChannel (Channel.id c) db) = [] ->
  no_active_key db c.
Proof.
  intros Hnil k Hk Hc Hs.
  assert (Hin : In k (List.filter isActive (getActiveKeysByChannel (Channel.id c) db))).
  { apply filter_In. split.
    - unfold getActiveKeysByChannel. apply filter_In. split; [exact Hk|].
      rewrite Hc, String.eqb_refl, Hs. reflexivity.
    - unfold isActive. rewrite Hs. reflexivity. }
  rewrite Hnil in Hin. destruct Hin.
Qed.

Lemma activeKeys_In (db : Database) (id : string) (k : ApiKey.t) :
  In k (getActiveKeysByChannel id db) ->
  In k (apiKeys db) /\ ApiKey.channelId k = id /\ ApiKey.status k = Active.
Proof.
  unfold getActiveKeysByChannel. rewrite filter_In, andb_true_iff, active_eqb.
  intros (Hk & Hc & Hs). apply String.eqb_eq in Hc. auto.
Qed.

(** The loop over the eligible channels stops at the first channel that has
    an active key. *)
Lemma tryChannels_spec (draw : Q) (db : Database) (eligibleChannels : list Channel.t) :
  (0 <= draw)%Q -> (draw < 1)%Q ->
  forall rr, cursors_ok rr ->
  match tryChannels draw eligibleChannels db rr with
  | (Some (channel, key), rr') =>
      (exists pre post,
          eligibleChannels = pre ++ channel :: post /\
          forall c, In c pre -> no_active_key db c) /\
      In key (apiKeys db) /\ ApiKey.channelId key = Channel.id channel /\
      ApiKey.status key = Active /\ cursors_ok rr'
  | (None, rr') => rr' = rr /\ forall c, In c eligibleChannels -> no_active_key db c
  end.
Proof.
  intros H0 H1. induction eligibleChannels as [|channel rest IH]; intros rr Hrr.
  - simpl. split; [reflexivity | intros c []].
  - cbn [tryChannels].
    destruct (selectKey_outcome draw (getActiveKeysByChannel (Channel.id channel) db)
                (Channel.loadBalanceStrategy channel) (Channel.id channel) rr H0 H1 Hrr)
      as [[Hnil ->] | (k & rr' & -> & Hin & Hs & Hrr')].
    + specialize (IH rr Hrr).
      destruct (tryChannels draw rest db rr) as [[[ch key]|] rr'].
      * destruct IH as ((pre & post & -> & Hpre) & Hrest).
        split; [|exact Hrest]. exists (channel :: pre), post. split; [reflexivity|].
        intros c [<-|Hc]; [now apply activeKeys_none | now apply Hpre].
      * destruct IH as [-> Hall]. split; [reflexivity|].
        intros c [<-|Hc]; [now apply activeKeys_none | now apply Hall].
    + apply activeKeys_In in Hin. destruct Hin as (Hk & Hc & _).
      split; [exists [], rest; split; [reflexivity | intros c []]|]. auto.
Qed.

Lemma filter_filter_and {A} (p q : A -> bool) (l : list A) :
  List.filter q (List.filter p l) = List.filter (fun x => p x && q x) l.
Proof.
  induction l as [|x l IH]; simpl; [reflexivity|].
  destruct (p x); simpl; [destruct (q x); now rewrite IH | exact IH].
Qed.

Lemma types_in (t : ChannelType) (types : list ChannelType) :
  existsb (ChannelType_eqb t) types = true <-> In t types.
Proof.
  rewrite existsb_exists. split.
  - intros (x & Hx & E). destruct t, x; try discriminate; exact Hx.
  - intros H. exists t. split; [exact H | destruct t; reflexivity].
Qed.

Lemma ids_in (id : string) (ids : list string) :
  existsb (String.eqb id) ids = true <-> In id ids.
Proof.
  rewrite existsb_exists. split.
  - intros (x & Hx & E). apply String.eqb_eq in E. now subst.
  - intros H. exists id. split; [exact H | apply String.eqb_refl].
Qed.

(** The channels that [findChannelForModel] tries are the eligible channels
    of the store, in store order. *)
Lemma eligibleChannels_spec (model : string) (allowedChannels : list string)
    (db : Database) :
  exists p : Channel.t -> bool,
    (forall c, p c = true <-> eligible model allowedChannels c) /\
    forall draw rr,
      findChannelForModel draw model allowedChannels db rr
      = tryChannels draw (List.filter p (channels db)) db rr.
Proof.
  destruct allowedChannels as [|a allowed].
  - exists (fun c => Channel.enabled c
                     && existsb (ChannelType_eqb (Channel.type c)) (matchingTypes model)).
    split.
    + intros c. unfold eligible. rewrite andb_true_iff, types_in. intuition.
    + intros draw rr. unfold findChannelForModel, getChannels. cbn [length Nat.ltb Nat.leb].
      now rewrite filter_filter_and.
  - exists (fun c => Channel.enabled c
                     && (existsb (ChannelType_eqb (Channel.type c)) (matchingTypes model)
                         && existsb (String.eqb (Channel.id c)) (a :: allowed))).
    split.
    + intros c. unfold eligible. rewrite !andb_true_iff, types_in, ids_in.
      intuition discriminate.
    + intros draw rr. unfold findChannelForModel, getChannels. cbn [length Nat.ltb Nat.leb].
      now rewrite !filter_filter_and.
Qed.

(** X13: with a draw in [0, 1) and cursors as the module keeps them,
    [findChannelForModel] returns an enabled channel of the store whose type
    is one of the types of the model and which the token allows (always,
    when the token's list is empty), together with an active key of the
    store that belongs to that channel; the channel is the first eligible
    one, in store order, that has an active key.  It returns [null], with
    the cursors untouched, exactly when no eligible channel has an active
    key. *)
Theorem findChannelForModel_sound (draw : Q) (model : string)
    (allowedChannels : list string) (db : Database) (rr : Cursors) :
  (0 <= draw)%Q -> (draw < 1)%Q -> cursors_ok rr ->
  match findChannelForModel draw model allowedChannels db rr with
  | (Some (channel, key), rr') =>
      In channel (channels db) /\ eligible model allowedChannels channel /\
      In key (apiKeys db) /\ ApiKey.channelId key = Channel.id channel /\
      ApiKey.status key = Active /\ cursors_ok rr' /\
      exists pre post,
        channels db = pre ++ channel :: post /\
        forall c, In c pre -> eligible model allowedChannels c -> no_active_key db c
  | (None, rr') =>
      rr' = rr /\
      forall c, In c (channels db) -> eligible model allowedChannels c ->
                no_active_key db c
  end.
Proof.
  intros H0 H1 Hrr.
  destruct (eligibleChannels_spec model allowedChannels db) as (p & Hp & ->).
  pose proof (tryChannels_spec draw db (List.filter p (channels db)) H0 H1 rr Hrr) as Hspec.
  destruct (tryChannels draw (List.filter p (channels db)) db rr) as [[[channel key]|] rr'].
  - destruct Hspec as ((pre' & post' & Hsplit & Hpre) & Hk & Hc & Hs & Hrr').
    assert (Hin : In channel (List.filter p (channels db)))
      by (rewrite Hsplit; apply in_elt).
    apply filter_In in Hin. destruct Hin as [Hin Hpc].
    split; [exact Hin|]. split; [now apply Hp|].
    split; [exact Hk|]. split; [exact Hc|]. split; [exact Hs|]. split; [exact Hrr'|].
    destruct (filter_split _ _ _ _ _ Hsplit) as (pre & post & Hl & Hfpre & _).
    exists pre, post. split; [exact Hl|].
    intros c Hc' He. apply Hpre. rewrite <- Hfpre. apply filter_In.
    split; [exact Hc' | now apply Hp].
  - destruct Hspec as [-> Hall]. split; [reflexivity|].
    intros c Hc He. apply Hall. apply filter_In. split; [exact Hc | now apply Hp].
Qed.

(** Two channels of the OpenAI types; only the second has an active key. *)
Lemma findChannelForModel_sound_witness :
  let c1 := sampleChannel "c1" OpenAI TestChat in
  let c2 := sampleChannel "c2" OpenAICompatible TestChat in
  let k1 := sampleKey "k1" "c1" Invalid 50 0 in
  let k2 := sampleKey "k2" "c2" Active 50 0 in
  let db := {| channels := [c1; c2]; apiKeys := [k1; k2]; logs := [];
               settings := settings defaultData |} in
  findChannelForModel 0 "gpt-4o" [] db ∅ = (Some (c2, k2), ∅) /\
  eligible "gpt-4o" [] c2 /\ no_active_key db c1 /\
  fst (findChannelForModel 0 "claude-3-opus" [] db ∅) = None.
Proof.
  intros c1 c2 k1 k2 db.
  pose proof (findChannelForModel_sound 0 "gpt-4o" [] db ∅
                ltac:(discriminate) ltac:(reflexivity) cursors_ok_empty) as H.
  assert (E : findChannelForModel 0 "gpt-4o" [] db ∅ = (Some (c2, k2), ∅))
    by (vm_compute; reflexivity).
  rewrite E in H. destruct H as (_ & Hel & _ & _ & _ & _ & pre & post & Hsplit & Hpre).
  split; [exact E|]. split; [exact Hel|]. split; [|reflexivity].
  destruct pre as [|c pre].
  - injection Hsplit as Hc _. discriminate Hc.
  - injection Hsplit as <- _. apply Hpre; [now left|].
    split; [reflexivity|]. split; [left; reflexivity | now left].
Defined.

(** ** GET /v1/models *)

Lemma pushModel_seen (clock : string -> Z) (model : string) (types : list ChannelType)
    (chs : list Channel.t) (models : list ModelInfo.t) (set : gset string) :
  model ∈ set ->
  fold_left (pushModel clock model types) chs (models, set) = (models, set).
Proof.
  intros Hin. induction chs as [|c chs IH]; simpl; [reflexivity|].
  destruct (existsb _ types); [|exact IH].
  rewrite bool_decide_eq_true_2 by exact Hin. exact IH.
Qed.

Lemma pushModel_fresh (clock : string -> Z) (model : string) (types : list ChannelType)
    (chs : list Channel.t) (models : list ModelInfo.t) (set : gset string) :
  model ∉ set ->
  fold_left (pushModel clock model types) chs (models, set)
  = match find (fun c => existsb (ChannelType_eqb (Channel.type c)) types) chs with
    | Some c =>
        (models ++ [ {| ModelInfo.id := model; ModelInfo.object := "model";
                        ModelInfo.created := clock model / 1000;
                        ModelInfo.owned_by := Channel.type c |} ],
         {[model]} ∪ set)
    | None => (models, set)
    end.
Proof.
  intros Hout. induction chs as [|c chs IH]; simpl; [reflexivity|].
  destruct (existsb _ types); [|exact IH].
  rewrite bool_decide_eq_false_2 by exact Hout.
  apply pushModel_seen. set_solver.
Qed.

(** The models pushed for one entry of the table. *)
Lemma listModels_closed_form (clock : string -> Z) (chs : list Channel.t)
    (table : list (string * list ChannelType)) :
  NoDup (map fst table) ->
  forall models (set : gset string),
    (forall name, In name (map fst table) -> name ∉ set) ->
    fst (fold_left
           (fun state (entry : string * list ChannelType) =>
              fold_left (pushModel clock (fst entry) (snd entry)) chs state)
           table (models, set))
    = models ++
      flat_map
        (fun entry : string * list ChannelType =>
           match find (fun c => existsb (ChannelType_eqb (Channel.type c)) (snd entry)) chs with
           | Some c =>
               [ {| ModelInfo.id := fst entry; ModelInfo.object := "model";
                    ModelInfo.created := clock (fst entry) / 1000;
                    ModelInfo.owned_by := Channel.type c |} ]
           | None => []
           end)
        table.
Proof.
  induction table as [|[name types] table IH]; intros Hnd models set Hfresh; simpl.
  - now rewrite app_nil_r.
  - simpl in Hnd. apply NoDup_cons_iff in Hnd. destruct Hnd as [Hname Hnd].
    rewrite pushModel_fresh by (apply Hfresh; now left).
    destruct (find _ chs) as [c|].
    + rewrite IH; [now rewrite <- app_assoc | exact Hnd |].
      intros n Hn. assert (Hnn : n <> name) by congruence.
      specialize (Hfresh n (or_intror Hn)). rewrite elem_of_union, elem_of_singleton.
      tauto.
    + rewrite IH; [reflexivity | exact Hnd |].
      intros n Hn. apply Hfresh. now right.
Qed.

Lemma table_names_NoDup : NoDup (map fst MODEL_CHANNEL_MAP).
Proof.
  simpl. repeat (apply NoDup_cons; [simpl; intuition discriminate|]). apply NoDup_nil.
Qed.

Lemma sublist_In {A} (l1 l2 : list A) :
  sublist l1 l2 -> forall x, In x l1 -> In x l2.
Proof.
  induction 1 as [|x l1 l2 _ IH|x l1 l2 _ IH]; intros y Hy; simpl in *; intuition.
Qed.

Lemma sublist_keeps_NoDup {A} (l1 l2 : list A) :
  sublist l1 l2 -> List.NoDup l2 -> List.NoDup l1.
Proof.
  induction 1 as [|x l1 l2 Hs IH|x l1 l2 Hs IH]; intros Hnd.
  - constructor.
  - apply NoDup_cons_iff in Hnd. destruct Hnd as [Hx Hnd].
    apply NoDup_cons; [|now apply IH]. intros Hin. apply Hx.
    eapply sublist_In; eassumption.
  - apply NoDup_cons_iff in Hnd. now apply IH.
Qed.

Lemma prefix_refl (s : string) : String.prefix s s = true.
Proof.
  induction s as [|x s IH]; simpl; [reflexivity|].
  destruct (ascii_dec x x); [exact IH | contradiction].
Qed.

Lemma eligibleChannelsOf_In (tokenInfo : Token.t) (db : Database) (c : Channel.t) :
  In c (eligibleChannelsOf tokenInfo db) <->
  In c (channels db) /\ Channel.enabled c = true /\
  (Token.allowedChannels tokenInfo = [] \/
   In (Channel.id c) (Token.allowedChannels tokenInfo)).
Proof.
  unfold eligibleChannelsOf, getChannels.
  destruct (Token.allowedChannels tokenInfo) as [|a allowed]; cbn [length Nat.ltb Nat.leb].
  - rewrite filter_In. intuition.
  - rewrite !filter_In, ids_in. intuition discriminate.
Qed.

(** X14: the list of [GET /v1/models] names each model of the table at most
    once and in the order of the table; a model of the table is listed
    exactly when some channel of the store is eligible for it (enabled, of
    a type of the model, allowed for the token); and each listed model
    carries the type of such a channel as its owner. *)
Theorem listModels_spec (clock : string -> Z) (tokenInfo : Token.t) (db : Database) :
  let allowed := Token.allowedChannels tokenInfo in
  let result := listModels clock tokenInfo db in
  NoDup (map ModelInfo.id result) /\
  sublist (map ModelInfo.id result) (map fst MODEL_CHANNEL_MAP) /\
  (forall m, In m result ->
     ModelInfo.object m = "model" /\
     ModelInfo.created m = clock (ModelInfo.id m) / 1000 /\
     exists c, In c (channels db) /\ eligible (ModelInfo.id m) allowed c /\
               ModelInfo.owned_by m = Channel.type c) /\
  (forall name c,
     In name (map fst MODEL_CHANNEL_MAP) -> In c (channels db) ->
     eligible name allowed c -> In name (map ModelInfo.id result)).
Proof.
  intros allowed result.
  set (chs := eligibleChannelsOf tokenInfo db).
  set (g := fun entry : string * list ChannelType =>
         match find (fun c => existsb (ChannelType_eqb (Channel.type c)) (snd entry)) chs with
         | Some c =>
             [ {| ModelInfo.id := fst entry; ModelInfo.object := "model";
                  ModelInfo.created := clock (fst entry) / 1000;
                  ModelInfo.owned_by := Channel.type c |} ]
         | None => []
         end).
  assert (Hres : result = flat_map g MODEL_CHANNEL_MAP).
  { unfold result, listModels. fold chs.
    rewrite (listModels_closed_form clock chs MODEL_CHANNEL_MAP table_names_NoDup [] ∅).
    - reflexivity.
    - intros name _. apply not_elem_of_empty. }
  assert (Hsub : forall table, sublist (map ModelInfo.id (flat_map g table)) (map fst table)).
  { induction table as [|e table IH]; simpl; [constructor|].
    unfold g at 1. destruct (find _ chs); simpl; now constructor. }
  assert (Htypes : forall e, In e MODEL_CHANNEL_MAP -> matchingTypes (fst e) = snd e).
  { intros e He. apply matchingTypes_of_match; [exact He | apply prefix_refl]. }
  rewrite Hres. split.
  { eapply sublist_keeps_NoDup; [apply Hsub | apply table_names_NoDup]. }
  split; [apply Hsub|]. split.
  - intros m Hm. apply in_flat_map in Hm. destruct Hm as (e & He & Hm).
    unfold g in Hm. destruct (find _ chs) as [c|] eqn:Hfind; [|destruct Hm].
    destruct Hm as [<-|[]]. cbn [ModelInfo.object ModelInfo.created ModelInfo.id
      ModelInfo.owned_by].
    split; [reflexivity|]. split; [reflexivity|].
    apply find_some in Hfind. destruct Hfind as (pre & post & Hl & Hc & _).
    assert (Hin : In c chs) by (rewrite Hl; apply in_elt).
    apply eligibleChannelsOf_In in Hin. destruct Hin as (Hin & Hen & Hal).
    exists c. split; [exact Hin|]. split; [|reflexivity].
    split; [exact Hen|]. split; [|exact Hal].
    rewrite (Htypes e He). now apply types_in.
  - intros name c Hname Hc (Hen & Hty & Hal).
    apply in_map_iff in Hname. destruct Hname as (e & <- & He).
    rewrite (Htypes e He) in Hty.
    destruct (find (fun c => existsb (ChannelType_eqb (Channel.type c)) (snd e)) chs)
      as [c'|] eqn:Hfind.
    + apply in_map_iff.
      exists {| ModelInfo.id := fst e; ModelInfo.object := "model";
                ModelInfo.created := clock (fst e) / 1000;
                ModelInfo.owned_by := Channel.type c' |}.
      split; [reflexivity|]. apply in_flat_map. exists e. split; [exact He|].
      unfold g. rewrite Hfind. now left.
    + exfalso. apply find_none_iff in Hfind. rewrite Forall_forall in Hfind.
      assert (Hin : In c chs) by (apply eligibleChannelsOf_In; auto).
      specialize (Hfind c Hin). apply types_in in Hty. congruence.
Qed.

(** An Anthropic channel only: the five claude entries of the table. *)
Lemma listModels_spec_witness :
  let db := {| channels := [sampleChannel "c1" Anthropic TestChat];
               apiKeys := []; logs := []; settings := settings defaultData |} in
  map ModelInfo.id (listModels (fun _ => 5000) (sampleToken "t1" None) db)
  = ["claude-3-opus"; "claude-3-sonnet"; "claude-3-haiku"; "claude-3.5-sonnet";
     "claude-3-5-sonnet"] /\
  NoDup (map ModelInfo.id (listModels (fun _ => 5000) (sampleToken "t1" None) db)).
Proof.
  intros db. split; [vm_compute; reflexivity|].
  exact (proj1 (listModels_spec (fun _ => 5000) (sampleToken "t1" None) db)).
Defined.

(** ** Sorting by a key, newest first *)

Section SortByKey.
Context {A : Type} (m : A -> Z).
Let cmp := fun a b : A => m b - m a.

Lemma sort_insert_Forall (P : A -> Prop) (x : A) (l : list A) :
  Forall P (sort_insert cmp x l) <-> P x /\ Forall P l.
Proof.
  induction l as [|y l IH]; simpl.
  - split; [intros H; inversion H; auto | intros [? ?]; auto].
  - destruct (0 <? cmp x y).
    + rewrite !Forall_cons_iff, IH. tauto.
    + rewrite !Forall_cons_iff. tauto.
Qed.

Lemma sort_insert_permutation (x : A) (l : list A) :
  Permutation (sort_insert cmp x l) (x :: l).
Proof.
  induction l as [|y l IH]; simpl; [reflexivity|].
  destruct (0 <? cmp x y); [|reflexivity].
  rewrite IH. apply perm_swap.
Qed.

Lemma sort_permutation (l : list A) : Permutation (sort cmp l) l.
Proof.
  induction l as [|x l IH]; simpl; [reflexivity|].
  rewrite sort_insert_permutation. now constructor.
Qed.

Lemma sort_insert_sorted (x : A) (l : list A) :
  StronglySorted (fun a b => m b <= m a) l ->
  StronglySorted (fun a b => m b <= m a) (sort_insert cmp x l).
Proof.
  induction 1 as [|y l Hs IH Hall]; simpl; [repeat constructor|].
  destruct (Z.ltb_spec 0 (cmp x y)) as [Hgt|Hle]; unfold cmp in *.
  - constructor; [exact IH|]. apply sort_insert_Forall. split; [lia | exact Hall].
  - constructor; [now constructor|]. constructor; [lia|].
    eapply Forall_impl; [|exact Hall]. intros a Ha. simpl in Ha. lia.
Qed.

Lemma sort_sorted (l : list A) : StronglySorted (fun a b => m b <= m a) (sort cmp l).
Proof.
  induction l as [|x l IH]; simpl; [constructor | now apply sort_insert_sorted].
Qed.
End SortByKey.

Lemma StronglySorted_sublist {A} (R : A -> A -> Prop) (l1 l2 : list A) :
  sublist l1 l2 -> StronglySorted R l2 -> StronglySorted R l1.
Proof.
  induction 1 as [|x l1 l2 Hs IH|x l1 l2 Hs IH]; intros H.
  - constructor.
  - inversion H as [|? ? Hl2 Hall]; subst. constructor; [now apply IH|].
    rewrite Forall_forall in *. intros y Hy. apply Hall. eapply sublist_In; eassumption.
  - inversion H; subst. now apply IH.
Qed.

Lemma js_slice_sublist {A} (l : list A) (start stop : Z) : sublist (js_slice l start stop) l.
Proof.
  unfold js_slice. etransitivity; [apply sublist_take | apply sublist_drop].
Qed.

Lemma js_slice_length {A} (l : list A) (offset limit : Z) :
  0 <= offset -> 0 <= limit ->
  Z.of_nat (length (js_slice l offset (offset + limit)))
  = Z.min limit (Z.max 0 (Z.of_nat (length l) - offset)).
Proof.
  intros Ho Hl. unfold js_slice.
  destruct (Z.ltb_spec offset 0); [lia|].
  destruct (Z.ltb_spec (offset + limit) 0); [lia|].
  rewrite length_firstn, length_skipn. lia.
Qed.

(** ** The store: querying logs *)

Lemma filterLogs_filter (filters : option LogFilters.t) (logs : list RequestLog.t) :
  filterLogs filters logs = List.filter (logMatches filters) logs.
Proof.
  assert (Htrue : forall l : list RequestLog.t, List.filter (fun _ => true) l = l).
  { intros l. apply filter_all. apply Forall_forall. auto. }
  destruct filters as [f|]; unfold filterLogs, logMatches; [|now rewrite Htrue].
  destruct (truthy_string (LogFilters.channelId f)), (truthy_number (LogFilters.status f)),
    (truthy_number (LogFilters.startTime f)), (truthy_number (LogFilters.endTime f));
    rewrite ?filter_filter_and;
    first [ apply filter_ext | rewrite <- (Htrue logs) at 1; apply filter_ext ];
    intros l; rewrite ?andb_true_r, ?andb_true_l, ?andb_assoc; reflexivity.
Qed.

(** X15: [getLogs] answers with [total] = the number of stored logs that
    pass all the filters that are set, and with a page that is the slice
    [offset, offset + limit) of those logs sorted newest first, so the page
    is newest first, holds only stored logs that pass the filters, and for
    [offset >= 0] and [limit >= 0] has [min limit (max 0 (total - offset))]
    rows.  An absent or zero offset counts as 0 and an absent or zero limit
    as 50.  The call does not lose or add logs: when a filter is set the
    store is untouched, and when none is set the stored logs are left
    reordered newest first. *)
Theorem getLogs_spec (filters : option LogFilters.t) (db : Database) :
  let matching := List.filter (logMatches filters) (logs db) in
  let page := fst (fst (getLogs filters db)) in
  let total := snd (fst (getLogs filters db)) in
  let db' := snd (getLogs filters db) in
  total = Z.of_nat (length matching) /\
  (exists sorted,
      Permutation sorted matching /\ newest_first sorted /\
      page = js_slice sorted (effectiveOffset filters)
               (effectiveOffset filters + effectiveLimit filters)) /\
  newest_first page /\
  (forall l, In l page -> In l (logs db) /\ logMatches filters l = true) /\
  (0 <= effectiveOffset filters -> 0 <= effectiveLimit filters ->
   Z.of_nat (length page)
   = Z.min (effectiveLimit filters) (Z.max 0 (total - effectiveOffset filters))) /\
  Permutation (logs db') (logs db) /\
  channels db' = channels db /\ apiKeys db' = apiKeys db /\ settings db' = settings db /\
  (anyLogFilter filters = true -> db' = db) /\
  (anyLogFilter filters = false -> newest_first (logs db')).
Proof.
  intros matching page total db'.
  set (sorted := sort (fun a b => RequestLog.timestamp b - RequestLog.timestamp a)
                   (filterLogs filters (logs db))).
  assert (Hperm : Permutation sorted matching).
  { unfold sorted, matching. rewrite filterLogs_filter.
    apply (sort_permutation RequestLog.timestamp). }
  assert (Hsorted : newest_first sorted) by apply (sort_sorted RequestLog.timestamp).
  assert (Hpage : page = js_slice sorted (effectiveOffset filters)
                           (effectiveOffset filters + effectiveLimit filters))
    by reflexivity.
  assert (Htotal : total = Z.of_nat (length sorted)) by reflexivity.
  split; [rewrite Htotal; f_equal; now apply Permutation_length|].
  split; [exists sorted; auto|].
  split; [rewrite Hpage; eapply StronglySorted_sublist; [apply js_slice_sublist | exact Hsorted]|].
  split.
  { intros l Hl. rewrite Hpage in Hl.
    apply (sublist_In _ _ (js_slice_sublist _ _ _)) in Hl.
    apply (Permutation_in _ Hperm) in Hl. unfold matching in Hl.
    now apply filter_In in Hl. }
  split; [intros Ho Hl; rewrite Hpage, Htotal; now apply js_slice_length|].
  unfold db', getLogs. fold sorted.
  destruct (anyLogFilter filters) eqn:Hany; cbn [snd logs channels apiKeys settings].
  - repeat split; try reflexivity. discriminate.
  - assert (Hall : filterLogs filters (logs db) = logs db).
    { destruct filters as [f|]; [|reflexivity]. unfold anyLogFilter in Hany.
      unfold filterLogs.
      destruct (truthy_string (LogFilters.channelId f)); [discriminate|].
      destruct (truthy_number (LogFilters.status f)); [discriminate|].
      destruct (truthy_number (LogFilters.startTime f)); [discriminate|].
      destruct (truthy_number (LogFilters.endTime f)); [discriminate | reflexivity]. }
    split.
    { unfold sorted. rewrite Hall. apply (sort_permutation RequestLog.timestamp). }
    repeat split; try discriminate. intros _. exact Hsorted.
Qed.

(** Three logs appended in time order, then read without filters: the page
    has them newest first, and so has the store afterwards; limit 0 reads
    as limit 50. *)
Lemma getLogs_spec_witness :
  let l1 := sampleLog "l1" 1000 in
  let l2 := sampleLog "l2" 2000 in
  let l3 := sampleLog "l3" 3000 in
  let db := {| channels := []; apiKeys := []; logs := [l1; l2; l3];
               settings := settings defaultData |} in
  let zero := Some (LogFilters.mk None None None None (Some 0) None) in
  fst (getLogs zero db) = ([l3; l2; l1], 3) /\
  logs (snd (getLogs zero db)) = [l3; l2; l1] /\
  newest_first (fst (fst (getLogs zero db))).
Proof.
  intros l1 l2 l3 db zero. split; [reflexivity|]. split; [reflexivity|].
  exact (proj1 (proj2 (proj2 (getLogs_spec zero db)))).
Defined.

(** ** checkKeys *)

Lemma checkKeysFrom_enough (probe : ApiKey.t -> KeyCheckResult.t) (keys : list ApiKey.t) :
  forall fuel (i : nat) results,
    (length keys <= i + fuel)%nat ->
    checkKeysFrom fuel probe keys (Z.of_nat i) results
    = results ++ map probe (skipn i keys).
Proof.
  induction fuel as [|fuel IH]; intros i results Hfuel; cbn [checkKeysFrom].
  - rewrite skipn_all2 by lia. now rewrite app_nil_r.
  - destruct (Z.ltb_spec (Z.of_nat i) (Z.of_nat (length keys))) as [Hlt|Hge].
    + replace (Z.of_nat i + 5) with (Z.of_nat (i + 5)) by lia.
      rewrite IH by lia. rewrite <- app_assoc. f_equal.
      rewrite <- map_app. f_equal.
      unfold js_slice.
      destruct (Z.ltb_spec (Z.of_nat i) 0); [lia|].
      destruct (Z.ltb_spec (Z.of_nat (i + 5)) 0); [lia|].
      replace (Z.to_nat (Z.min (Z.of_nat i) (Z.of_nat (length keys)))) with i by lia.
      assert (Hf : firstn (Z.to_nat (Z.min (Z.of_nat (i + 5)) (Z.of_nat (length keys))
                                     - Z.min (Z.of_nat i) (Z.of_nat (length keys))))
                     (skipn i keys)
                   = firstn 5 (skipn i keys)).
      { destruct (Nat.le_ge_cases (i + 5) (length keys)) as [Hin|Hout].
        - f_equal. lia.
        - rewrite !firstn_all2; [reflexivity | rewrite length_skipn; lia
                                | rewrite length_skipn; lia]. }
      rewrite Hf. replace (i + 5)%nat with (5 + i)%nat by lia.
      rewrite <- skipn_skipn. apply firstn_skipn.
    + rewrite skipn_all2 by lia. now rewrite app_nil_r.
Qed.

(** X16: [checkKeys] returns one result per key, in the order of the keys:
    the result at position [i] is what [checkKey] gives for the key at
    position [i].  The batches of 5 do not show in the result. *)
Theorem checkKeys_one_result_per_key (env : Channel.t -> ApiKey.t -> ProbeEnv)
    (channel : Channel.t) (keys : list ApiKey.t) :
  checkKeys env channel keys
  = map (fun key =>
           checkKey (checkedTime (env channel key)) channel key (upstream (env channel key)))
      keys /\
  length (checkKeys env channel keys) = length keys /\
  map KeyCheckResult.keyId (checkKeys env channel keys) = map ApiKey.id keys.
Proof.
  assert (H : checkKeys env channel keys
              = map (fun key => checkKey (checkedTime (env channel key)) channel key
                                  (upstream (env channel key))) keys).
  { unfold checkKeys.
    exact (checkKeysFrom_enough _ keys (length keys) 0 [] (Nat.le_refl _)). }
  split; [exact H|]. rewrite H. split; [apply length_map|].
  rewrite map_map. apply map_ext. intros key.
  unfold checkKey, checkOpenAI, checkAnthropic, checkGemini, handleErrorResponse,
    caught, activeResult.
  destruct (Channel.type channel), (upstream (env channel key)) as [?|res];
    try reflexivity;
    destruct (Channel.testMethod channel), (res_ok (res_status res));
    try reflexivity; destruct (res_json res) as [?|[|?]]; reflexivity.
Qed.

(** ** The scheduler: one whole run *)

Lemma NoDup_map_inj {A B} (f : A -> B) (l : list A) (a b : A) :
  List.NoDup (map f l) -> In a l -> In b l -> f a = f b -> a = b.
Proof.
  induction l as [|x l IH]; simpl; [intros _ []|].
  intros Hnd Ha Hb E. apply NoDup_cons_iff in Hnd. destruct Hnd as [Hx Hnd].
  destruct Ha as [<-|Ha], Hb as [<-|Hb]; auto.
  - exfalso. apply Hx. rewrite E. now apply in_map.
  - exfalso. apply Hx. rewrite <- E. now apply in_map.
Qed.

Lemma NoDup_map_filter {A B} (f : A -> B) (p : A -> bool) (l : list A) :
  List.NoDup (map f l) -> List.NoDup (map f (List.filter p l)).
Proof.
  induction l as [|x l IH]; simpl; [auto|].
  intros Hnd. apply NoDup_cons_iff in Hnd. destruct Hnd as [Hx Hnd].
  destruct (p x); [|auto]. simpl. apply NoDup_cons; [|auto].
  intros Hin. apply Hx. apply in_map_iff in Hin. destruct Hin as (y & Hy & Hin).
  apply filter_In in Hin. apply in_map_iff. exists y. tauto.
Qed.

(** With unique ids, the lookup of the id of a stored key finds that key. *)
Lemma getApiKeyById_stored (db : Database) (k : ApiKey.t) :
  List.NoDup (map ApiKey.id (apiKeys db)) -> In k (apiKeys db) ->
  getApiKeyById (ApiKey.id k) db = Some k.
Proof.
  intros Hnd Hk. unfold getApiKeyById.
  destruct (find _ (apiKeys db)) as [k'|] eqn:Hfind.
  - apply find_some in Hfind. destruct Hfind as (pre & post & Hl & Hk' & _).
    apply String.eqb_eq in Hk'. f_equal.
    apply (NoDup_map_inj ApiKey.id (apiKeys db)); auto. rewrite Hl. apply in_elt.
  - exfalso. apply find_none_iff in Hfind. rewrite Forall_forall in Hfind.
    specialize (Hfind k Hk). rewrite String.eqb_refl in Hfind. discriminate.
Qed.

Lemma getApiKeyById_In (db : Database) (id : string) (k : ApiKey.t) :
  getApiKeyById id db = Some k -> In k (apiKeys db) /\ ApiKey.id k = id.
Proof.
  unfold getApiKeyById. intros H. apply find_some in H.
  destruct H as (pre & post & Hl & Hk & _). split; [rewrite Hl; apply in_elt|].
  now apply String.eqb_eq.
Qed.

Lemma updateApiKey_frame (now : Z) (id : string) (updates : ApiKeyPatch.t) (db : Database) :
  ApiKeyPatch.id updates = None ->
  map ApiKey.id (apiKeys (snd (updateApiKey now id updates db))) = map ApiKey.id (apiKeys db) /\
  channels (snd (updateApiKey now id updates db)) = channels db /\
  logs (snd (updateApiKey now id updates db)) = logs db /\
  settings (snd (updateApiKey now id updates db)) = settings db /\
  (forall other, other <> id ->
     getApiKeyById other (snd (updateApiKey now id updates db)) = getApiKeyById other db).
Proof.
  intros Hid.
  destruct (updateApiKey_cases now id updates db)
    as [[Hnone ->] | (pre & old & post & Hl & Hold & Hpre & ->)]; cbn [fst snd].
  - repeat split.
  - cbn [apiKeys channels logs settings]. rewrite Hl, !map_app. cbn [map].
    rewrite applyPatch_id by exact Hid.
    repeat split. intros other Hne. unfold getApiKeyById. cbn [apiKeys]. rewrite Hl.
    apply find_replace; rewrite ?applyPatch_id by exact Hid; rewrite Hold;
      apply String.eqb_neq; congruence.
Qed.

(** One round of the scheduler loop on a key that is stored as it is. *)
Lemma checkAndUpdate_stored (env : Channel.t -> ApiKey.t -> ProbeEnv) (ch : Channel.t)
    (db : Database) (k : ApiKey.t) :
  getApiKeyById (ApiKey.id k) db = Some k ->
  getApiKeyById (ApiKey.id k) (checkAndUpdate env ch db k) = Some (probedKey env ch k) /\
  (forall other, other <> ApiKey.id k ->
     getApiKeyById other (checkAndUpdate env ch db k) = getApiKeyById other db) /\
  map ApiKey.id (apiKeys (checkAndUpdate env ch db k)) = map ApiKey.id (apiKeys db) /\
  channels (checkAndUpdate env ch db k) = channels db /\
  logs (checkAndUpdate env ch db k) = logs db.
Proof.
  intros Hk. unfold checkAndUpdate.
  match goal with
  | |- context [updateApiKey ?n ?i ?u db] =>
      destruct (updateApiKey_frame n i u db eq_refl) as (Hids & Hch & Hlogs & _ & Hother);
      destruct (updateApiKey_stored n i u db k eq_refl Hk) as (db' & Hupd & Hget & _)
  end.
  rewrite Hupd in *. cbn [snd] in *. rewrite probe_patch_applied in Hget.
  split; [exact Hget|]. auto.
Qed.

Lemma checkAndUpdate_fold (env : Channel.t -> ApiKey.t -> ProbeEnv) (ch : Channel.t)
    (l : list ApiKey.t) : forall db,
  List.NoDup (map ApiKey.id l) ->
  (forall k, In k l -> getApiKeyById (ApiKey.id k) db = Some k) ->
  let db' := fold_left (checkAndUpdate env ch) l db in
  (forall k, In k l -> getApiKeyById (ApiKey.id k) db' = Some (probedKey env ch k)) /\
  (forall id, ~ In id (map ApiKey.id l) -> getApiKeyById id db' = getApiKeyById id db) /\
  map ApiKey.id (apiKeys db') = map ApiKey.id (apiKeys db) /\
  channels db' = channels db /\ logs db' = logs db.
Proof.
  induction l as [|k l IH]; intros db Hnd Hstored; cbn [fold_left].
  - repeat split; auto. intros k [].
  - cbn [map] in Hnd. apply NoDup_cons_iff in Hnd. destruct Hnd as [Hk Hnd].
    destruct (checkAndUpdate_stored env ch db k (Hstored k (or_introl eq_refl)))
      as (Hget & Hother & Hids & Hch & Hlogs).
    destruct (IH (checkAndUpdate env ch db k) Hnd) as (H1 & H2 & H3 & H4 & H5).
    { intros k' Hk'. rewrite Hother; [apply Hstored; now right|].
      intros E. apply Hk. rewrite <- E. now apply in_map. }
    split.
    { intros k' [<-|Hk']; [|now apply H1]. rewrite H2; [exact Hget | exact Hk]. }
    split.
    { intros id Hid. rewrite H2 by (intros Hin; apply Hid; now right).
      apply Hother. intros ->. apply Hid. now left. }
    split; [congruence|]. split; congruence.
Qed.

(** The outer loop of [runKeyCheck] over channels with distinct ids. *)
Lemma runKeyCheck_channels (env : Channel.t -> ApiKey.t -> ProbeEnv)
    (chs : list Channel.t) : forall db,
  List.NoDup (map ApiKey.id (apiKeys db)) ->
  List.NoDup (map Channel.id chs) ->
  let db' :=
    fold_left
      (fun db channel =>
         fold_left (checkAndUpdate env channel)
           (List.filter
              (fun k => String.eqb (ApiKey.channelId k) (Channel.id channel)
                        && negb (ApiKeyStatus_eqb (ApiKey.status k) Disabled))
              (getApiKeys None db))
           db)
      chs db in
  (forall k, In k (apiKeys db) -> getApiKeyById (ApiKey.id k) db' = Some (afterRun env chs k)) /\
  map ApiKey.id (apiKeys db') = map ApiKey.id (apiKeys db) /\
  channels db' = channels db /\ logs db' = logs db.
Proof.
  induction chs as [|ch chs IH]; intros db Hnd Hchs; cbn [fold_left]; cbv zeta.
  - split; [|auto]. intros k Hk. now apply getApiKeyById_stored.
  - cbn [map] in Hchs. apply NoDup_cons_iff in Hchs. destruct Hchs as [Hch Hchs].
    set (q := fun k => String.eqb (ApiKey.channelId k) (Channel.id ch)
                       && negb (ApiKeyStatus_eqb (ApiKey.status k) Disabled)).
    change (getApiKeys None db) with (apiKeys db).
    destruct (checkAndUpdate_fold env ch (List.filter q (apiKeys db)) db)
      as (H1 & H2 & H3 & H4 & H5).
    { now apply NoDup_map_filter. }
    { intros k Hk. apply filter_In in Hk. now apply getApiKeyById_stored. }
    set (db1 := fold_left (checkAndUpdate env ch) (List.filter q (apiKeys db)) db) in *.
    destruct (IH db1) as (I1 & I2 & I3 & I4); [now rewrite H3 | exact Hchs |].
    cbv zeta in H3, H4, H5. fold db1 in H3, H4, H5.
    split; [|split; [congruence | split; congruence]].
    intros k Hk.
    assert (Hrest : forall k1, ApiKey.channelId k1 = Channel.id ch ->
              find (fun c => String.eqb (ApiKey.channelId k1) (Channel.id c)) chs = None).
    { intros k1 Hc. apply find_none. apply Forall_forall. intros c Hc'.
      apply String.eqb_neq. intros E. apply Hch. rewrite <- Hc, E. now apply in_map. }
    unfold afterRun at 1. cbn [find].
    destruct (String.eqb_spec (ApiKey.channelId k) (Channel.id ch)) as [Hc|Hc].
    + destruct (ApiKeyStatus_eqb (ApiKey.status k) Disabled) eqn:Hd.
      * assert (Hk1 : getApiKeyById (ApiKey.id k) db1 = Some k).
        { rewrite H2; [now apply getApiKeyById_stored|].
          intros Hin. apply in_map_iff in Hin. destruct Hin as (k' & E & Hk').
          apply filter_In in Hk'. destruct Hk' as [Hk' Hq].
          assert (k' = k) by (apply (NoDup_map_inj ApiKey.id (apiKeys db)); auto).
          subst k'. unfold q in Hq. rewrite Hd, andb_false_r in Hq. discriminate. }
        apply getApiKeyById_In in Hk1. destruct Hk1 as [Hk1 _].
        rewrite (I1 k Hk1). unfold afterRun. now rewrite (Hrest k Hc).
      * assert (Hq : In k (List.filter q (apiKeys db))).
        { apply filter_In. split; [exact Hk|]. unfold q.
          rewrite Hc, String.eqb_refl, Hd. reflexivity. }
        pose proof (H1 k Hq) as Hk1.
        apply getApiKeyById_In in Hk1. destruct Hk1 as [Hk1 Hid].
        rewrite <- Hid, (I1 _ Hk1). unfold afterRun.
        rewrite (Hrest (probedKey env ch k)) by exact Hc. reflexivity.
    + assert (Hk1 : getApiKeyById (ApiKey.id k) db1 = Some k).
      { rewrite H2; [now apply getApiKeyById_stored|].
        intros Hin. apply in_map_iff in Hin. destruct Hin as (k' & E & Hk').
        apply filter_In in Hk'. destruct Hk' as [Hk' Hq].
        assert (k' = k) by (apply (NoDup_map_inj ApiKey.id (apiKeys db)); auto).
        subst k'. unfold q in Hq. apply andb_true_iff in Hq. destruct Hq as [Hq _].
        apply String.eqb_eq in Hq. contradiction. }
      apply getApiKeyById_In in Hk1. destruct Hk1 as [Hk1 _].
      rewrite (I1 k Hk1). reflexivity.
Qed.

(** X17: one run of [runKeyCheck] on a store whose key ids and channel ids
    are unique.  Every key that is not disabled and whose channel is stored
    and enabled is probed once, against that channel and as it was stored
    at the start of the run, and ends as that probe leaves it.  Every other
    key, that is a disabled key or a key whose channel is disabled or not
    stored, is left exactly as it was.  The run adds, removes and reorders
    no key and touches neither the channels nor the logs. *)
Theorem runKeyCheck_probes_each_key_once (env : Channel.t -> ApiKey.t -> ProbeEnv)
    (db : Database) :
  List.NoDup (map ApiKey.id (apiKeys db)) ->
  List.NoDup (map Channel.id (channels db)) ->
  let db' := runKeyCheck env db in
  (forall k ch,
     In k (apiKeys db) -> In ch (channels db) -> Channel.enabled ch = true ->
     Channel.id ch = ApiKey.channelId k -> ApiKey.status k <> Disabled ->
     getApiKeyById (ApiKey.id k) db' = Some (probedKey env ch k)) /\
  (forall k,
     In k (apiKeys db) ->
     ApiKey.status k = Disabled \/
     (forall ch, In ch (channels db) -> Channel.enabled ch = true ->
                 Channel.id ch <> ApiKey.channelId k) ->
     getApiKeyById (ApiKey.id k) db' = Some k) /\
  map ApiKey.id (apiKeys db') = map ApiKey.id (apiKeys db) /\
  channels db' = channels db /\ logs db' = logs db.
Proof.
  intros Hkeys Hchs db'.
  destruct (runKeyCheck_channels env (List.filter Channel.enabled (channels db)) db Hkeys)
    as (Hrun & Hids & Hch & Hlogs).
  { now apply NoDup_map_filter. }
  change (fold_left _ (List.filter Channel.enabled (channels db)) db) with db' in *.
  split.
  { intros k ch Hk Hc Hen Hid Hs. rewrite (Hrun k Hk). unfold afterRun.
    destruct (find _ (List.filter Channel.enabled (channels db))) as [ch'|] eqn:Hfind.
    - apply find_some in Hfind. destruct Hfind as (pre & post & Hl & Hch' & _).
      apply String.eqb_eq in Hch'.
      assert (Hin' : In ch' (List.filter Channel.enabled (channels db)))
        by (rewrite Hl; apply in_elt).
      apply filter_In in Hin'. destruct Hin' as [Hin' _].
      assert (ch' = ch) by (apply (NoDup_map_inj Channel.id (channels db)); congruence).
      subst ch'. destruct (ApiKey.status k); try reflexivity. congruence.
    - exfalso. apply find_none_iff in Hfind. rewrite Forall_forall in Hfind.
      assert (Hin' : In ch (List.filter Channel.enabled (channels db)))
        by (apply filter_In; auto).
      specialize (Hfind ch Hin'). rewrite Hid, String.eqb_refl in Hfind. discriminate. }
  split; [|auto].
  intros k Hk Hcase. rewrite (Hrun k Hk). unfold afterRun.
  destruct (find _ (List.filter Channel.enabled (channels db))) as [ch'|] eqn:Hfind;
    [|reflexivity].
  destruct Hcase as [Hd | Hnone]; [now rewrite Hd|].
  exfalso. apply find_some in Hfind. destruct Hfind as (pre & post & Hl & Hch' & _).
  apply String.eqb_eq in Hch'.
  assert (Hin' : In ch' (List.filter Channel.enabled (channels db)))
    by (rewrite Hl; apply in_elt).
  apply filter_In in Hin'. destruct Hin' as [Hin' Hen].
  exact (Hnone ch' Hin' Hen (eq_sym Hch')).
Qed.

(** An enabled channel with a live key and a disabled key, and a key of a
    channel that is not stored: only the live key is probed (here a 429). *)
Lemma runKeyCheck_probes_each_key_once_witness :
  let live := sampleKey "k1" "c1" Active 50 0 in
  let off := sampleKey "k2" "c1" Disabled 50 0 in
  let orphan := sampleKey "k3" "gone" Active 50 0 in
  let env := fun (_ : Channel.t) (_ : ApiKey.t) =>
    {| upstream := inr {| res_status := 429; res_text := inr "slow down";
                          res_json := inr (JsonValue None) |};
       checkedTime := 10; updateTime := 11 |} in
  let db' := runKeyCheck env (sampleDb [live; off; orphan]) in
  option_map ApiKey.status (getApiKeyById "k1" db') = Some QuotaExceeded /\
  getApiKeyById "k2" db' = Some off /\
  getApiKeyById "k3" db' = Some orphan.
Proof.
  intros live off orphan env db'.
  destruct (runKeyCheck_probes_each_key_once env (sampleDb [live; off; orphan]))
    as (Hprobed & Hleft & _).
  - simpl. repeat (apply NoDup_cons; [simpl; intuition discriminate|]). apply NoDup_nil.
  - simpl. repeat (apply NoDup_cons; [simpl; intuition discriminate|]). apply NoDup_nil.
  - subst db'. split; [|split].
    + change "k1" with (ApiKey.id live).
      rewrite (Hprobed live (sampleChannel "c1" OpenAI TestBalance)); simpl; auto;
        discriminate.
    + apply (Hleft off); simpl; auto.
    + apply (Hleft orphan); simpl; auto. right.
      intros ch [<-|[<-|[]]] _; discriminate.
Defined.

(** ** The relay: the log row *)

Lemma addLog_logs (now : Z) (log : RequestLog.t) (db : Database) :
  logs (addLog now log db)
  = List.filter (fun l => now - retentionOf db <? RequestLog.timestamp l) (logs db ++ [log]).
Proof. reflexivity. Qed.

Lemma relayCatch_logs (env : RelayEnv) (tokenInfo : Token.t) (model : string)
    (isStreaming : bool) (channel : Channel.t) (key : ApiKey.t) (e : Thrown)
    (db : Database) :
  exists log,
    logs (relayCatch env tokenInfo model isStreaming channel key e db)
    = List.filter (fun l => atCatchAddLog env - retentionOf db <? RequestLog.timestamp l)
        (logs db ++ [log]) /\
    RequestLog.keyId log = ApiKey.id key /\
    RequestLog.channelId log = Channel.id channel /\
    RequestLog.tokenId log = Some (Token.id tokenInfo) /\
    RequestLog.model log = model /\
    RequestLog.streaming log = isStreaming /\
    RequestLog.status log = 500 /\
    RequestLog.error log = Some (relayErrorMessage e) /\
    RequestLog.latency log = atCatch env - atStart env /\
    RequestLog.timestamp log = atCatchLogTimestamp env.
Proof.
  unfold relayCatch.
  match goal with
  | |- context [updateApiKey ?n ?i ?u db] =>
      destruct (updateApiKey_frame n i u db eq_refl) as (_ & _ & Hlogs & Hset & _)
  end.
  eexists. rewrite addLog_logs. unfold retentionOf. rewrite Hlogs, Hset.
  split; [reflexivity|]. repeat split.
Qed.

(** X18: every relay, whatever its outcome, leaves exactly one new log row
    (subject to the retention that [addLog] applies to all rows).  The row
    names the key, the channel, the token and the model of the request.  Its
    status is the upstream status when the body was relayed to its end, with
    the body as error text for a status outside 2xx; it is 500, with the
    message of the exception, when no response arrived and also when
    reading the body of a response failed.  Channels are not touched. *)
Theorem relay_logs_one_row (env : RelayEnv) (tokenInfo : Token.t) (model : string)
    (isStreaming : bool) (channel : Channel.t) (key : ApiKey.t) (up : RelayOutcome)
    (db : Database) :
  let db' := relayChatCompletions env tokenInfo model isStreaming channel key up db in
  exists log now,
    logs db'
    = List.filter (fun l => now - retentionOf db <? RequestLog.timestamp l) (logs db ++ [log]) /\
    RequestLog.keyId log = ApiKey.id key /\
    RequestLog.channelId log = Channel.id channel /\
    RequestLog.tokenId log = Some (Token.id tokenInfo) /\
    RequestLog.model log = model /\
    RequestLog.streaming log = isStreaming /\
    match up with
    | Responded status (BodyRead stringified) =>
        RequestLog.status log = status /\
        RequestLog.error log = (if res_ok status then None else Some stringified) /\
        RequestLog.latency log = atResponse env - atStart env /\
        now = atAddLog env
    | Responded _ (BodyThrows e) | NoResponse e =>
        RequestLog.status log = 500 /\
        RequestLog.error log = Some (relayErrorMessage e) /\
        RequestLog.latency log = atCatch env - atStart env /\
        now = atCatchAddLog env
    end /\
    channels db' = channels db.
Proof.
  cbv zeta. destruct up as [e | status [stringified | e]]; cbn [relayChatCompletions].
  - destruct (relayCatch_logs env tokenInfo model isStreaming channel key e db)
      as (log & Hlogs & H).
    exists log, (atCatchAddLog env). split; [exact Hlogs|].
    decompose [and] H. repeat split; auto.
    unfold relayCatch.
    match goal with
    | |- context [updateApiKey ?n ?i ?u db] =>
        destruct (updateApiKey_frame n i u db eq_refl) as (_ & Hch & _)
    end.
    exact Hch.
  - match goal with
    | |- context [updateApiKey ?n ?i ?u db] =>
        destruct (updateApiKey_frame n i u db eq_refl) as (_ & Hch & Hlogs & Hset & _);
        set (db1 := snd (updateApiKey n i u db)) in *
    end.
    assert (Hret : retentionOf db1 = retentionOf db) by (unfold retentionOf; now rewrite Hset).
    destruct (isStreaming && res_ok status) eqn:Hs.
    + eexists _, (atAddLog env). rewrite addLog_logs, Hret, Hlogs.
      split; [reflexivity|]. cbn. apply andb_true_iff in Hs. destruct Hs as [_ ->].
      repeat split. exact Hch.
    + eexists _, (atAddLog env). rewrite addLog_logs, Hret, Hlogs.
      split; [reflexivity|]. cbn. repeat split. exact Hch.
  - match goal with
    | |- context [updateApiKey ?n ?i ?u db] =>
        destruct (updateApiKey_frame n i u db eq_refl) as (_ & Hch & Hlogs & Hset & _);
        set (db1 := snd (updateApiKey n i u db)) in *
    end.
    assert (Hret : retentionOf db1 = retentionOf db) by (unfold retentionOf; now rewrite Hset).
    destruct (relayCatch_logs env tokenInfo model isStreaming channel key e db1)
      as (log & Hl & H).
    exists log, (atCatchAddLog env). rewrite Hl, Hret, Hlogs. split; [reflexivity|].
    decompose [and] H. repeat split; auto.
    unfold relayCatch.
    match goal with
    | |- context [updateApiKey ?n ?i ?u db1] =>
        destruct (updateApiKey_frame n i u db1 eq_refl) as (_ & Hch1 & _)
    end.
    cbn [addLog channels]. congruence.
Qed.

(** ** The rate limiter: tokens do not interfere *)

Lemma rateLimit_depends_on_record (now : Z) (token : Token.t) (rc rc' : RequestCounts) :
  rc !! Token.id token = rc' !! Token.id token ->
  fst (rateLimitMiddleware now (Some token) rc)
  = fst (rateLimitMiddleware now (Some token) rc') /\
  snd (rateLimitMiddleware now (Some token) rc) !! Token.id token
  = snd (rateLimitMiddleware now (Some token) rc') !! Token.id token.
Proof.
  intros Heq. unfold rateLimitMiddleware.
  destruct (Token.rateLimit token) as [limit|]; [|auto].
  destruct (limit =? 0); [auto|]. rewrite <- Heq.
  match goal with |- context [if ?c then _ else _] => destruct c end;
    cbn [fst snd]; rewrite !lookup_insert_eq; auto.
Qed.

Lemma serveAll_other_token (tokenInfo : option Token.t) (id : string) (times : list Z) :
  match tokenInfo with Some t => Token.id t <> id | None => True end ->
  forall rc, snd (serveAll tokenInfo times rc) !! id = rc !! id.
Proof.
  intros Hid. induction times as [|now times IH]; intros rc; cbn [serveAll]; [reflexivity|].
  pose proof (rateLimit_other_token now tokenInfo rc id Hid) as Hstep.
  destruct (rateLimitMiddleware now tokenInfo rc) as [r rc1]. cbn [snd] in Hstep.
  specialize (IH rc1). destruct (serveAll tokenInfo times rc1) as [rs rc2].
  cbn [snd] in *. congruence.
Qed.

(** X19: the limiter keeps the tokens apart.  Whatever requests another
    token has made in between, at whatever times, a request of a token gets
    the same verdict and leaves the same record for that token as if the
    other token had made none. *)
Theorem rateLimit_tokens_independent (a b : Token.t) (now : Z) (times : list Z)
    (rc : RequestCounts) :
  Token.id a <> Token.id b ->
  let rc' := snd (serveAll (Some b) times rc) in
  fst (rateLimitMiddleware now (Some a) rc') = fst (rateLimitMiddleware now (Some a) rc) /\
  snd (rateLimitMiddleware now (Some a) rc') !! Token.id a
  = snd (rateLimitMiddleware now (Some a) rc) !! Token.id a.
Proof.
  intros Hne rc'. apply rateLimit_depends_on_record.
  unfold rc'. apply (serveAll_other_token (Some b)). congruence.
Qed.

(** Token b is over its limit of 1; token a, with the same limit, passes. *)
Lemma rateLimit_tokens_independent_witness :
  let a := sampleToken "a" (Some 1) in
  let b := sampleToken "b" (Some 1) in
  fst (serveAll (Some b) [0; 1; 2] ∅) = [Next; rateLimited; rateLimited] /\
  fst (rateLimitMiddleware 3 (Some a) (snd (serveAll (Some b) [0; 1; 2] ∅))) = Next.
Proof.
  intros a b. split; [vm_compute; reflexivity|].
  rewrite (proj1 (rateLimit_tokens_independent a b 3 [0; 1; 2] ∅ ltac:(discriminate))).
  reflexivity.
Defined.

(** ** The on-demand check *)

Lemma checkKey_status_cases (now : Z) (channel : Channel.t) (key : ApiKey.t) (up : Upstream) :
  KeyCheckResult.status (checkKey now channel key up) = Active \/
  KeyCheckResult.status (checkKey now channel key up) = Invalid \/
  KeyCheckResult.status (checkKey now channel key up) = QuotaExceeded.
Proof.
  unfold checkKey, checkOpenAI, checkAnthropic, checkGemini, handleErrorResponse,
    caught, activeResult.
  destruct (Channel.type channel), up as [?|res]; cbn; auto;
    destruct (Channel.testMethod channel), (res_ok (res_status res)); cbn; auto;
    try (destruct (res_json res) as [?|[|?]]; cbn; auto);
    destruct ((res_status res =? 401) || (res_status res =? 403)); auto;
    destruct (res_status res =? 429); auto.
Qed.

(** X20: [checkSingleKey] throws "Key not found" exactly when no key has the
    id, and "Channel not found" exactly when the first key with the id
    references no stored channel; it throws nothing else.  Otherwise it
    probes the key whatever the status of the key and whether or not the
    channel is enabled, so a key that was disabled ends with one of the
    statuses active, invalid and quota_exceeded. *)
Theorem checkSingleKey_outcomes (e : ProbeEnv) (keyId : string) (db : Database) :
  (checkSingleKey e keyId db = inl "Key not found" <->
   forall k, In k (apiKeys db) -> ApiKey.id k <> keyId) /\
  (forall key, getApiKeyById keyId db = Some key ->
     (checkSingleKey e keyId db = inl "Channel not found" <->
      forall c, In c (channels db) -> Channel.id c <> ApiKey.channelId key)) /\
  (forall msg, checkSingleKey e keyId db = inl msg ->
     msg = "Key not found" \/ msg = "Channel not found") /\
  (forall key channel,
     getApiKeyById keyId db = Some key ->
     getChannelById (ApiKey.channelId key) db = Some channel ->
     exists db' key',
       checkSingleKey e keyId db = inr db' /\
       getApiKeyById keyId db' = Some key' /\
       (ApiKey.status key' = Active \/ ApiKey.status key' = Invalid \/
        ApiKey.status key' = QuotaExceeded)).
Proof.
  unfold checkSingleKey. cbn [getApiKeys].
  change (find (fun k => String.eqb (ApiKey.id k) keyId) (apiKeys db))
    with (getApiKeyById keyId db).
  destruct (getApiKeyById keyId db) as [key|] eqn:Hkey.
  - pose proof (getApiKeyById_In db keyId key Hkey) as [Hin Hid].
    assert (Hnotmissing : ~ forall k, In k (apiKeys db) -> ApiKey.id k <> keyId).
    { intros H. exact (H key Hin Hid). }
    destruct (getChannelById (ApiKey.channelId key) db) as [channel|] eqn:Hch.
    + split; [split; [discriminate | contradiction]|].
      split.
      { intros key0 [= <-]. split; [discriminate|]. intros Hnone. exfalso.
        unfold getChannelById in Hch. apply find_some in Hch.
        destruct Hch as (pre & post & Hl & Hc & _). apply String.eqb_eq in Hc.
        apply (Hnone channel); [rewrite Hl; apply in_elt | exact Hc]. }
      split; [discriminate|].
      intros key0 channel0 [= <-] Hc0. rewrite Hch in Hc0. injection Hc0 as <-.
      set (result := checkKey (checkedTime e) channel key (upstream e)).
      match goal with
      | |- context [updateApiKey ?n ?i ?u db] =>
          assert (Hst : getApiKeyById (ApiKey.id key) db = Some key) by (now rewrite Hid);
          destruct (updateApiKey_stored n i u db key eq_refl Hst) as (db' & Hupd & Hget & _)
      end.
      rewrite Hupd. cbn [snd]. rewrite probe_patch_applied in Hget.
      exists db'. eexists. split; [reflexivity|]. rewrite <- Hid. split; [exact Hget|].
      cbn [keyAfterProbe ApiKey.status]. apply checkKey_status_cases.
    + split; [split; [discriminate | contradiction]|].
      split.
      { intros key0 [= <-]. split; [|reflexivity]. intros _.
        unfold getChannelById in Hch. apply find_none_iff in Hch.
        exact (proj1 (eqb_false_Forall Channel.id _ _) Hch). }
      split; [intros msg [= <-]; now right|].
      intros key0 channel0 [= <-] Hc0. rewrite Hch in Hc0. discriminate Hc0.
  - split.
    { split; [|reflexivity]. intros _.
      unfold getApiKeyById in Hkey. apply find_none_iff in Hkey.
      exact (proj1 (eqb_false_Forall ApiKey.id _ _) Hkey). }
    split; [intros key0 [=]|].
    split; [intros msg [= <-]; now left|].
    intros key0 channel0 [=].
Qed.

(** A disabled key of a disabled channel, checked on demand and answered
    200, ends active; a key without a stored channel cannot be checked. *)
Lemma checkSingleKey_outcomes_witness :
  let off := sampleKey "k1" "c1" Disabled 50 0 in
  let orphan := sampleKey "k2" "gone" Active 50 0 in
  let e := {| upstream := inr {| res_status := 200; res_text := inr "";
                                 res_json := inr (JsonValue None) |};
              checkedTime := 10; updateTime := 11 |} in
  let db := sampleDb [off; orphan] in
  (exists db' key',
      checkSingleKey e "k1" db = inr db' /\ getApiKeyById "k1" db' = Some key' /\
      ApiKey.status key' = Active) /\
  checkSingleKey e "k2" db = inl "Channel not found" /\
  checkSingleKey e "k9" db = inl "Key not found".
Proof.
  intros off orphan e db.
  destruct (checkSingleKey_outcomes e "k1" db) as (_ & _ & _ & Hprobe).
  destruct (Hprobe off (sampleChannel "c1" OpenAI TestBalance) eq_refl eq_refl)
    as (db' & key' & Hrun & Hget & _).
  split; [|split; reflexivity].
  exists db', key'. split; [exact Hrun|]. split; [exact Hget|].
  vm_compute in Hrun. injection Hrun as <-. vm_compute in Hget. injection Hget as <-.
  reflexivity.
Defined.

(** ** The key routes *)

Lemma optional_1_100_default (o : option Z) :
  optional_1_100 o = true ->
  1 <= match truthy_number o with Some n => n | None => 50 end <= 100.
Proof.
  destruct o as [n|]; simpl; [|lia].
  intros H. apply andb_true_iff in H. destruct H as [H1 H2].
  apply Z.leb_le in H1, H2. destruct (Z.eqb_spec n 0); lia.
Qed.

Lemma optional_1_100_pick (o : option Z) (d : Z) :
  optional_1_100 o = true -> 1 <= d <= 100 ->
  1 <= match o with Some n => n | None => d end <= 100.
Proof.
  destruct o as [n|]; simpl; [|auto].
  intros H _. apply andb_true_iff in H. destruct H as [H1 H2].
  apply Z.leb_le in H1, H2. lia.
Qed.

Lemma optional_1_100_given (o : option Z) :
  optional_1_100 o = true ->
  match truthy_number o with Some n => n | None => 50 end
  = match o with Some n => n | None => 50 end.
Proof.
  destruct o as [n|]; simpl; [|reflexivity].
  intros H. apply andb_true_iff in H. destruct H as [H1 _].
  apply Z.leb_le in H1. destruct (Z.eqb_spec n 0); [lia | reflexivity].
Qed.

(** X21: [POST /api/keys] changes the store only when it answers 201.  It
    then has appended one key, under the new id, for a channel that is
    stored, with the given secret and alias, status unknown, both counters
    at 0, no balance and no time of check or use, both timestamps at the
    time of the request, and the priority and the weight that were sent,
    50 for one that was not sent, in 1..100 either way; the answer shows
    that key with its secret masked.  So the route keeps both invariants:
    every key references a stored channel, and every priority and weight
    is in 1..100. *)
Theorem postKey_spec (now : Z) (newId : string) (body : CreateKeyBody.t) (db : Database) :
  let reply := fst (postKey now newId body db) in
  let db' := snd (postKey now newId body db) in
  match reply with
  | KeyData status data =>
      status = 201 /\
      (exists c, In c (channels db) /\ Channel.id c = CreateKeyBody.channelId body) /\
      exists k,
        apiKeys db' = apiKeys db ++ [k] /\ data = masked k /\
        ApiKey.id k = newId /\
        ApiKey.channelId k = CreateKeyBody.channelId body /\
        ApiKey.key k = CreateKeyBody.key body /\
        ApiKey.key k <> EmptyString /\
        ApiKey.status k = Unknown /\
        ApiKey.errorCount k = 0 /\ ApiKey.totalRequests k = 0 /\
        1 <= ApiKey.priority k <= 100 /\ 1 <= ApiKey.weight k <= 100 /\
        ApiKey.priority k
        = match CreateKeyBody.priority body with Some p => p | None => 50 end /\
        ApiKey.weight k
        = match CreateKeyBody.weight body with Some w => w | None => 50 end /\
        ApiKey.alias k = CreateKeyBody.alias body /\
        ApiKey.balance k = None /\ ApiKey.lastChecked k = None /\
        ApiKey.lastUsed k = None /\
        ApiKey.createdAt k = now /\ ApiKey.updatedAt k = now
  | KeyError status _ =>
      status = 400 /\ db' = db /\
      forall c, In c (channels db) -> Channel.id c <> CreateKeyBody.channelId body
  | KeyInvalid => db' = db /\ createKeySchema body = false
  end /\
  channels db' = channels db /\ logs db' = logs db /\
  (keys_reference_channels db -> keys_reference_channels db') /\
  (keys_in_range db -> keys_in_range db').
Proof.
  cbv zeta. unfold postKey.
  destruct (createKeySchema body) eqn:Hschema; cbn [negb]; [|cbn; auto].
  unfold createKeySchema in Hschema. rewrite !andb_true_iff in Hschema.
  destruct Hschema as (((Hc & Hk) & Hp) & Hw).
  destruct (getChannelById (CreateKeyBody.channelId body) db) as [c|] eqn:Hch.
  - unfold getChannelById in Hch. apply find_some in Hch.
    destruct Hch as (pre & post & Hl & Hid & _). apply String.eqb_eq in Hid.
    assert (Hin : In c (channels db)) by (rewrite Hl; apply in_elt).
    pose proof (optional_1_100_default _ Hp) as Hp'.
    pose proof (optional_1_100_default _ Hw) as Hw'.
    cbn [fst snd createApiKey apiKeys channels logs].
    split.
    { split; [reflexivity|]. split; [exists c; auto|].
      eexists. split; [reflexivity|]. split; [reflexivity|].
      cbn [ApiKey.id ApiKey.channelId ApiKey.key ApiKey.status ApiKey.errorCount
             ApiKey.totalRequests ApiKey.priority ApiKey.weight ApiKey.alias
             ApiKey.balance ApiKey.lastChecked ApiKey.lastUsed ApiKey.createdAt
             ApiKey.updatedAt].
      repeat split; try lia; try (now apply optional_1_100_given).
      intros E. rewrite E in Hk. discriminate. }
    split; [reflexivity|]. split; [reflexivity|]. split.
    + intros Href k Hk'. cbn [apiKeys channels] in *. apply in_app_or in Hk'.
      destruct Hk' as [Hk'|[<-|[]]]; [now apply Href|]. exists c. auto.
    + intros Hrange k Hk'. cbn [apiKeys] in *. apply in_app_or in Hk'.
      destruct Hk' as [Hk'|[<-|[]]]; [now apply Hrange|]. cbn. lia.
  - cbn [fst snd]. split; [|auto]. split; [reflexivity|]. split; [reflexivity|].
    unfold getChannelById in Hch. apply find_none_iff in Hch.
    exact (proj1 (eqb_false_Forall Channel.id _ _) Hch).
Qed.

Lemma postKey_spec_witness :
  let body := CreateKeyBody.mk "c1" "sk-0123456789abcdef" None (Some 80) None in
  exists k,
    apiKeys (snd (postKey 5 "new" body (sampleDb []))) = [k] /\
    ApiKey.key k = "sk-0123456789abcdef" /\
    ApiKey.priority k = 80 /\ ApiKey.weight k = 50.
Proof.
  intros body.
  pose proof (postKey_spec 5 "new" body (sampleDb [])) as [H _].
  cbv zeta in H.
  destruct (fst (postKey 5 "new" body (sampleDb []))) eqn:E;
    try (vm_compute in E; discriminate E).
  destruct H
    as (_ & _ & k & Hkeys & _ & _ & _ & Hkey & _ & _ & _ & _ & _ & _ & Hp & Hw & _).
  exists k. split; [exact Hkeys|]. split; [exact Hkey|]. split; [exact Hp | exact Hw].
Defined.

(** X22: [PUT /api/keys/:id] answers 404, with the store untouched, when no
    key has the id, and 400, with the store untouched, when a priority or
    weight outside 1..100 is sent.  Otherwise it changes, in the first key
    with the id, only the alias, the priority, the weight and the status
    that were sent (and [updatedAt]): the secret, the channel, the counters,
    the balance and the timestamps of use stay, and so do all other keys.
    The route keeps every priority and weight in 1..100. *)
Theorem putKey_spec (now : Z) (id : string) (body : UpdateKeyBody.t) (db : Database) :
  let reply := fst (putKey now id body db) in
  let db' := snd (putKey now id body db) in
  match reply with
  | KeyData status data =>
      status = 200 /\
      exists old new,
        getApiKeyById id db = Some old /\ getApiKeyById id db' = Some new /\
        data = masked new /\
        ApiKey.id new = id /\
        ApiKey.channelId new = ApiKey.channelId old /\
        ApiKey.key new = ApiKey.key old /\
        ApiKey.errorCount new = ApiKey.errorCount old /\
        ApiKey.totalRequests new = ApiKey.totalRequests old /\
        ApiKey.balance new = ApiKey.balance old /\
        ApiKey.lastChecked new = ApiKey.lastChecked old /\
        ApiKey.lastUsed new = ApiKey.lastUsed old /\
        ApiKey.createdAt new = ApiKey.createdAt old /\
        ApiKey.updatedAt new = now /\
        ApiKey.alias new
        = match UpdateKeyBody.alias body with Some a => Some a | None => ApiKey.alias old end /\
        ApiKey.priority new
        = match UpdateKeyBody.priority body with Some p => p | None => ApiKey.priority old end /\
        ApiKey.weight new
        = match UpdateKeyBody.weight body with Some w => w | None => ApiKey.weight old end /\
        ApiKey.status new
        = match UpdateKeyBody.status body with Some s => s | None => ApiKey.status old end
  | KeyError status _ =>
      status = 404 /\ db' = db /\ forall k, In k (apiKeys db) -> ApiKey.id k <> id
  | KeyInvalid => db' = db /\ updateKeySchema body = false
  end /\
  (forall other, other <> id -> getApiKeyById other db' = getApiKeyById other db) /\
  map ApiKey.id (apiKeys db') = map ApiKey.id (apiKeys db) /\
  channels db' = channels db /\
  (keys_in_range db -> keys_in_range db').
Proof.
  cbv zeta. unfold putKey.
  destruct (updateKeySchema body) eqn:Hschema; cbn [negb]; [|cbn; auto 6].
  unfold updateKeySchema in Hschema. apply andb_true_iff in Hschema.
  destruct Hschema as [Hp Hw].
  match goal with
  | |- context [updateApiKey now id ?u db] =>
      set (patch := u);
      destruct (updateApiKey_frame now id patch db eq_refl) as (Hids & Hch & _ & _ & Hother);
      destruct (updateApiKey_cases now id patch db)
        as [[Hnone Hupd] | (pre & old & post & Hl & Hold & Hpre & Hupd)]
  end; rewrite Hupd in *; cbn [fst snd] in *.
  - split; [auto|]. split; [exact Hother|]. auto.
  - set (new := applyPatch old patch now) in *.
    assert (Hgetold : getApiKeyById id db = Some old).
    { unfold getApiKeyById. rewrite Hl. apply find_middle.
      - now apply eqb_false_Forall.
      - now apply String.eqb_eq. }
    assert (Hgetnew : getApiKeyById id
                        {| channels := channels db; apiKeys := pre ++ new :: post;
                           logs := logs db; settings := settings db |} = Some new).
    { unfold getApiKeyById. cbn [apiKeys]. apply find_middle.
      - now apply eqb_false_Forall.
      - apply String.eqb_eq. exact Hold. }
    split.
    { split; [reflexivity|]. exists old, new. split; [exact Hgetold|].
      split; [exact Hgetnew|]. split; [reflexivity|].
      unfold new, patch, applyPatch. cbn.
      repeat split; auto; destruct (UpdateKeyBody.alias body); reflexivity. }
    split; [exact Hother|]. split; [exact Hids|]. split; [exact Hch|].
    intros Hrange k Hk. cbn [apiKeys] in Hk. apply in_app_or in Hk.
    destruct Hk as [Hk|[<-|Hk]].
    + apply Hrange. rewrite Hl. apply in_or_app. now left.
    + assert (Ho : In old (apiKeys db)) by (rewrite Hl; apply in_elt).
      destruct (Hrange old Ho) as [Hop How].
      unfold new, patch, applyPatch. cbn [ApiKey.priority ApiKey.weight
        ApiKeyPatch.priority ApiKeyPatch.weight].
      split; now apply optional_1_100_pick.
    + apply Hrange. rewrite Hl. apply in_or_app. right. now right.
Qed.

Lemma putKey_spec_witness :
  let k := sampleKey "k1" "c1" Active 50 4 in
  let body := UpdateKeyBody.mk None (Some 90) None (Some Disabled) in
  exists new,
    getApiKeyById "k1" (snd (putKey 9 "k1" body (sampleDb [k]))) = Some new /\
    ApiKey.priority new = 90 /\ ApiKey.status new = Disabled /\
    ApiKey.errorCount new = 4 /\
    fst (putKey 9 "k1" (UpdateKeyBody.mk None None (Some 101) None) (sampleDb [k]))
    = KeyInvalid.
Proof.
  intros k body.
  pose proof (putKey_spec 9 "k1" body (sampleDb [k])) as [H _].
  cbv zeta in H.
  destruct (putKey 9 "k1" body (sampleDb [k])) as [reply db'] eqn:E.
  vm_compute in E. injection E as <- <-. cbn [fst snd] in H.
  destruct H as (_ & old & new & _ & Hnew & _).
  exists new. split; [exact Hnew|].
  vm_compute in Hnew. injection Hnew as <-. repeat split.
Defined.

(** ** The dashboard *)

Lemma count_cons {A} (p : A -> bool) (x : A) (l : list A) :
  countOf p (x :: l) = (if p x then 1 else 0) + countOf p l.
Proof.
  unfold countOf. cbn [List.filter]. destruct (p x); cbn [length]; lia.
Qed.

Lemma count_bounds {A} (p : A -> bool) (l : list A) :
  0 <= countOf p l <= Z.of_nat (length l).
Proof.
  induction l as [|x l IH]; [unfold countOf; simpl; lia|].
  rewrite count_cons. cbn [length]. destruct (p x); lia.
Qed.

Lemma rate_bounds (success total : Z) :
  0 <= success <= total -> (0 <= rate success total <= 1)%Q.
Proof.
  intros H. unfold rate. destruct (Z.ltb_spec 0 total) as [Hpos|Hle].
  - unfold Qle. cbn [Qnum Qden]. rewrite Z2Pos.id by exact Hpos. lia.
  - split; unfold Qle; simpl; lia.
Qed.

Lemma sumZ_map_add {A} (a b : A -> Z) (cs : list A) :
  sumZ (map (fun c => a c + b c) cs) = sumZ (map a cs) + sumZ (map b cs).
Proof.
  induction cs as [|c cs IH]; [reflexivity|].
  unfold sumZ in *. cbn [map fold_right]. rewrite IH. lia.
Qed.

Lemma sumZ_indicator (k : string) (v : Z) (cs : list string) :
  List.NoDup cs ->
  sumZ (map (fun c => if String.eqb k c then v else 0) cs)
  = if existsb (String.eqb k) cs then v else 0.
Proof.
  induction 1 as [|c cs Hc Hnd IH]; [reflexivity|].
  unfold sumZ in *. cbn [map fold_right existsb]. rewrite IH.
  destruct (String.eqb_spec k c) as [->|Hne]; cbn [orb]; [|lia].
  destruct (existsb (String.eqb c) cs) eqn:E; [|lia].
  apply existsb_exists in E. destruct E as (x & Hx & E).
  apply String.eqb_eq in E. subst x. contradiction.
Qed.

(** Counting by group: over groups with distinct names, the sizes of the
    groups add up to the number of elements whose group is listed. *)
Lemma count_by_group {A} (f : A -> string) (q : A -> bool) (l : list A) (cs : list string) :
  List.NoDup cs ->
  sumZ (map (fun c => countOf q (List.filter (fun x => String.eqb (f x) c) l)) cs)
  = countOf (fun x => existsb (String.eqb (f x)) cs && q x) l.
Proof.
  intros Hnd. induction l as [|x l IH].
  - unfold countOf. cbn [List.filter length]. clear Hnd.
    induction cs as [|c cs IHc]; [reflexivity|].
    unfold sumZ in *. cbn [map fold_right]. rewrite IHc. reflexivity.
  - rewrite count_cons, <- IH.
    replace (if existsb (String.eqb (f x)) cs && q x then 1 else 0)
      with (if existsb (String.eqb (f x)) cs then if q x then 1 else 0 else 0)
      by (destruct (existsb (String.eqb (f x)) cs); reflexivity).
    rewrite <- (sumZ_indicator (f x) (if q x then 1 else 0) cs Hnd).
    rewrite <- sumZ_map_add. f_equal. apply map_ext. intros c.
    cbn [List.filter]. destruct (String.eqb (f x) c); [|lia].
    apply count_cons.
Qed.

Lemma count_all {A} (p : A -> bool) (l : list A) :
  (forall x, In x l -> p x = true) -> countOf p l = Z.of_nat (length l).
Proof.
  intros H. induction l as [|x l IH]; [reflexivity|].
  rewrite count_cons, IH by (intros; apply H; simpl; auto).
  rewrite (H x) by (simpl; auto). cbn [length]. lia.
Qed.

Lemma count_ext_in {A} (p q : A -> bool) (l : list A) :
  (forall x, In x l -> p x = q x) -> countOf p l = countOf q l.
Proof.
  intros H. induction l as [|x l IH]; [reflexivity|].
  rewrite !count_cons, IH by (intros; apply H; simpl; auto).
  rewrite (H x) by (simpl; auto). reflexivity.
Qed.

Lemma count_true {A} (l : list A) : countOf (fun _ => true) l = Z.of_nat (length l).
Proof. apply count_all. reflexivity. Qed.

Lemma count_le {A} (p q : A -> bool) (l : list A) :
  (forall x, p x = true -> q x = true) -> countOf p l <= countOf q l.
Proof.
  intros H. induction l as [|x l IH]; [reflexivity|].
  rewrite !count_cons. destruct (p x) eqn:E; [rewrite (H x E); lia|].
  destruct (q x); lia.
Qed.

Lemma keys_by_status (keys : list ApiKey.t) :
  Z.of_nat (length keys)
  = countOf (hasStatus Active) keys + countOf (hasStatus Invalid) keys
    + countOf (hasStatus QuotaExceeded) keys + countOf (hasStatus Disabled) keys
    + countOf (hasStatus Unknown) keys.
Proof.
  induction keys as [|k keys IH]; [reflexivity|].
  rewrite !count_cons. cbn [length]. unfold hasStatus at 1 3 5 7 9.
  destruct (ApiKey.status k); cbn [ApiKeyStatus_eqb]; lia.
Qed.

(** X23: in the answer of [GET /api/stats] the four counts by status and
    the number of keys whose status is unknown (which the answer does not
    report) add up to [totalKeys]; [activeChannels] is at most
    [totalChannels]; there is one entry of [channelStats] per stored
    channel, in the order of the store; and every success rate, of the
    dashboard and of each channel, is between 0 and 1, and is 0 when there
    was no request. *)
Theorem getStats_counts (now : Z) (db : Database) :
  let s := getStats now db in
  DashboardStats.totalKeys s
  = DashboardStats.activeKeys s + DashboardStats.invalidKeys s
    + DashboardStats.quotaExceededKeys s + DashboardStats.disabledKeys s
    + countOf (hasStatus Unknown) (apiKeys db) /\
  0 <= DashboardStats.activeChannels s <= DashboardStats.totalChannels s /\
  (0 <= DashboardStats.successRate24h s <= 1)%Q /\
  (DashboardStats.totalRequests24h s = 0 -> DashboardStats.successRate24h s = 0%Q) /\
  map ChannelStats.channelId (DashboardStats.channelStats s) = map Channel.id (channels db) /\
  Forall (fun cs =>
            0 <= ChannelStats.activeKeys cs <= ChannelStats.totalKeys cs /\
            ChannelStats.totalKeys cs <= DashboardStats.totalKeys s /\
            0 <= ChannelStats.totalRequests cs <= DashboardStats.totalRequests24h s /\
            (0 <= ChannelStats.successRate cs <= 1)%Q /\
            (ChannelStats.totalRequests cs = 0 -> ChannelStats.successRate cs = 0%Q))
         (DashboardStats.channelStats s).
Proof.
  cbv zeta. unfold getStats.
  cbn [DashboardStats.totalKeys DashboardStats.activeKeys DashboardStats.invalidKeys
       DashboardStats.quotaExceededKeys DashboardStats.disabledKeys
       DashboardStats.totalChannels DashboardStats.activeChannels
       DashboardStats.totalRequests24h DashboardStats.successRate24h
       DashboardStats.channelStats].
  change (getApiKeys None db) with (apiKeys db).
  change (getChannels db) with (channels db).
  split; [apply keys_by_status|].
  split; [apply count_bounds|].
  split; [apply rate_bounds, count_bounds|].
  split; [intros ->; reflexivity|].
  split; [rewrite map_map; reflexivity|].
  apply Forall_forall. intros cs Hcs. apply in_map_iff in Hcs.
  destruct Hcs as (c & <- & _). unfold channelStatsOf.
  cbn [ChannelStats.activeKeys ChannelStats.totalKeys ChannelStats.totalRequests
       ChannelStats.successRate].
  split; [apply count_bounds|].
  split; [exact (proj2 (count_bounds _ _))|].
  split; [exact (count_bounds _ _)|].
  split; [apply rate_bounds, count_bounds|].
  intros ->. reflexivity.
Qed.

(** X24: when the stored channels have distinct ids, the per-channel
    request counts of [GET /api/stats] add up to at most
    [totalRequests24h] (logs of channels that are no longer stored are
    counted only in the total); and when moreover every key references a
    stored channel, the per-channel [totalKeys] add up to [totalKeys] and
    the per-channel [activeKeys] to [activeKeys]. *)
Theorem getStats_channel_sums (now : Z) (db : Database) :
  List.NoDup (map Channel.id (channels db)) ->
  let s := getStats now db in
  let per (f : ChannelStats.t -> Z) := sumZ (map f (DashboardStats.channelStats s)) in
  per ChannelStats.totalRequests <= DashboardStats.totalRequests24h s /\
  (keys_reference_channels db ->
   per ChannelStats.totalKeys = DashboardStats.totalKeys s /\
   per ChannelStats.activeKeys = DashboardStats.activeKeys s).
Proof.
  intros Hnd. cbv zeta. unfold getStats.
  cbn [DashboardStats.totalKeys DashboardStats.activeKeys
       DashboardStats.totalRequests24h DashboardStats.channelStats].
  change (getApiKeys None db) with (apiKeys db).
  change (getChannels db) with (channels db).
  rewrite !map_map. unfold channelStatsOf.
  cbn [ChannelStats.activeKeys ChannelStats.totalKeys ChannelStats.totalRequests].
  pose proof (count_by_group RequestLog.channelId (fun _ => true)
                (getLogsForStats (now - 86400000) db) _ Hnd) as Hlogs.
  pose proof (count_by_group ApiKey.channelId (fun _ => true) (apiKeys db) _ Hnd) as Hkeys.
  pose proof (count_by_group ApiKey.channelId (hasStatus Active) (apiKeys db) _ Hnd) as Hact.
  rewrite map_map in Hlogs, Hkeys, Hact.
  split.
  - erewrite map_ext; [rewrite Hlogs|intros c; cbv beta; symmetry; apply count_true].
    rewrite <- count_true. apply count_le. reflexivity.
  - intros Href.
    assert (Hin : forall k, In k (apiKeys db) ->
              existsb (String.eqb (ApiKey.channelId k)) (map Channel.id (channels db)) = true).
    { intros k Hk. destruct (Href k Hk) as (c & Hc & E).
      apply existsb_exists. exists (Channel.id c). split; [now apply in_map|].
      apply String.eqb_eq. now symmetry. }
    split.
    + erewrite map_ext; [rewrite Hkeys|intros c; cbv beta; symmetry; apply count_true].
      apply count_all. intros k Hk. rewrite (Hin k Hk). reflexivity.
    + rewrite Hact. apply count_ext_in. intros k Hk. rewrite (Hin k Hk). reflexivity.
Qed.

Lemma getStats_channel_sums_witness :
  let db :=
    {| channels := [sampleChannel "c1" OpenAI TestBalance];
       apiKeys := [sampleKey "k1" "c1" Active 50 0; sampleKey "k2" "c1" Invalid 50 0];
       logs := [sampleLog "l1" 1000];
       settings := settings (sampleDb []) |} in
  let s := getStats 2000 db in
  sumZ (map ChannelStats.totalKeys (DashboardStats.channelStats s)) = 2 /\
  sumZ (map ChannelStats.activeKeys (DashboardStats.channelStats s)) = 1.
Proof.
  intros db s.
  assert (Hnd : List.NoDup (map Channel.id (channels db))).
  { repeat constructor. simpl. tauto. }
  assert (Href : keys_reference_channels db).
  { intros k [<-|[<-|[]]]; eexists; (split; [left; reflexivity|reflexivity]). }
  destruct (getStats_channel_sums 2000 db Hnd) as [_ H].
  exact (H Href).
Defined.

(** ** Masking of the secrets *)

Lemma string_length_app (a b : string) :
  String.length (a +:+ b) = (String.length a + String.length b)%nat.
Proof. induction a as [|c a IH]; simpl; [reflexivity | now rewrite IH]. Qed.

Lemma substring_0_0 (s : string) : String.substring 0 0 s = EmptyString.
Proof. destruct s; reflexivity. Qed.

Lemma substring_whole (s : string) : String.substring 0 (String.length s) s = s.
Proof. induction s as [|c s IH]; simpl; [reflexivity | now rewrite IH]. Qed.

(** A string splits at any position within it: [s.slice(0, n)] is the
    part before, and reading [s] from [n + k] on is reading the rest from
    [k] on. *)
Lemma substring_split (n : nat) (s : string) :
  (n <= String.length s)%nat ->
  exists pre rest,
    s = pre +:+ rest /\ String.length pre = n /\
    String.substring 0 n s = pre /\
    forall k m, String.substring (n + k) m s = String.substring k m rest.
Proof.
  revert s. induction n as [|n IH]; intros s Hn.
  - exists EmptyString, s. rewrite substring_0_0. repeat split.
  - destruct s as [|c s]; [simpl in Hn; lia|]. simpl in Hn.
    destruct (IH s ltac:(lia)) as (pre & rest & Hs & Hlen & Hsub & Hrest).
    exists (String c pre), rest.
    split; [change (String c s = String c (pre +:+ rest)); now f_equal|].
    split; [cbn [String.length]; now f_equal|].
    split; [cbn [String.substring]; now f_equal|].
    intros k m. change (String.substring (n + k) m s = String.substring k m rest).
    apply Hrest.
Qed.

(** X25: [maskKey] answers "****" for a secret of at most 8 characters.
    For a longer secret it answers the first four characters, "****" and
    the last four characters: 12 characters whatever the length, with the
    middle of the secret, which has at least one character, left out. *)
Theorem maskKey_spec (key : string) :
  ((String.length key <= 8)%nat -> maskKey key = "****") /\
  ((8 < String.length key)%nat ->
   exists first middle last,
     key = first +:+ middle +:+ last /\
     String.length first = 4%nat /\ String.length last = 4%nat /\
     String.length middle = (String.length key - 8)%nat /\
     maskKey key = first +:+ "****" +:+ last) /\
  (String.length (maskKey key) <= 12)%nat.
Proof.
  unfold maskKey. destruct (Nat.leb_spec (String.length key) 8) as [Hle|Hgt].
  - split; [reflexivity|]. split; [lia|]. simpl. lia.
  - split; [lia|].
    destruct (substring_split 4 key ltac:(lia)) as (first & rest & Hkey & Hfirst & Hsub & Hrest).
    assert (Hlen : String.length rest = (String.length key - 4)%nat).
    { pose proof (f_equal String.length Hkey) as E.
      rewrite string_length_app in E. lia. }
    destruct (substring_split (String.length key - 8) rest ltac:(lia))
      as (middle & last & Hr & Hmiddle & _ & Hlast).
    assert (Hl4 : String.length last = 4%nat).
    { rewrite Hr, string_length_app in Hlen. lia. }
    assert (Hmask : String.substring (String.length key - 4) 4 key = last).
    { replace (String.length key - 4)%nat with (4 + (String.length key - 8 + 0))%nat by lia.
      rewrite Hrest, Hlast, <- Hl4. apply substring_whole. }
    rewrite Hsub, Hmask. split.
    + intros _. exists first, middle, last. rewrite <- Hr. auto.
    + rewrite !string_length_app, Hfirst, Hl4. simpl. lia.
Qed.

Lemma maskKey_spec_witness :
  maskKey "sk-short" = "****" /\
  exists first middle last,
    "sk-0123456789abcdef" = first +:+ middle +:+ last /\
    String.length first = 4%nat /\ String.length last = 4%nat /\
    String.length middle = 11%nat /\
    maskKey "sk-0123456789abcdef" = first +:+ "****" +:+ last.
Proof.
  split.
  - apply (proj1 (maskKey_spec "sk-short")). simpl. lia.
  - apply (proj1 (proj2 (maskKey_spec "sk-0123456789abcdef"))). simpl. lia.
Defined.
